(** * ckb-whale-bot: a shallow embedding of [whale-bot.js]

    The bot polls a CKB node, scans every new block for transactions whose
    total output capacity reaches a USD threshold converted at the cached
    CoinGecko price, filters self-transfers and sends the rest to Telegram.

    The embedding follows the source function by function.  JavaScript
    values are modelled as follows.
    - A Number that holds a price is an IEEE 754 binary64 value
      ([spec_float] with precision 53 and maximal exponent 1024).
    - A Number that holds a block height, an array index or a clock reading
      is [NaN] or an integer ([num]); such values stay far below 2^53, where
      binary64 arithmetic on integers is exact.
    - A BigInt is a [Z].
    - [null] and [undefined] are [None].
    - An exception is an explicit [Throw] completion; the module-level
      variables [ckbPriceUsd], [priceFetchedAt] and [lastBlock] are fields of
      an explicit state, threaded through a state-and-exception monad.
    - The node, the price feed, Telegram, the clock and the file system are
      oracles over an abstract world; nothing is assumed about them. *)

From Stdlib Require Import ZArith Lia List Bool Ascii String.
From Stdlib Require Import DecimalString DecimalPos DecimalZ.
From Stdlib Require Import Floats.SpecFloat.
From stdpp Require Import base gmap sets list strings sorting.

Open Scope Z_scope.

(** ** JavaScript strings and integer-valued Numbers *)

Module JS.

(** An integer-valued Number: [NaN] or an integer. *)
Inductive num : Type :=
| NaN
| Int (z : Z).

(** [a <= b], [a < b] on Numbers: false as soon as one side is NaN. *)
Definition num_leb (a b : num) : bool :=
  match a, b with
  | Int x, Int y => x <=? y
  | _, _ => false
  end.

Definition num_ltb (a b : num) : bool :=
  match a, b with
  | Int x, Int y => x <? y
  | _, _ => false
  end.

(** [a + k] for an integer literal [k]. *)
Definition num_add (a : num) (k : Z) : num :=
  match a with
  | Int x => Int (x + k)
  | NaN => NaN
  end.

(** [Math.min(a, b)]: NaN as soon as one argument is NaN. *)
Definition Math_min (a b : num) : num :=
  match a, b with
  | Int x, Int y => Int (Z.min x y)
  | _, _ => NaN
  end.

(** White space as [String.prototype.trim] and [parseInt] strip it (the
    ASCII part: TAB, LF, VT, FF, CR and SPACE). *)
Definition is_white_space (c : ascii) : bool :=
  let n := nat_of_ascii c in
  ((9 <=? n)%nat && (n <=? 13)%nat) || (n =? 32)%nat.

Fixpoint trimStart (s : string) : string :=
  match s with
  | EmptyString => EmptyString
  | String c rest => if is_white_space c then trimStart rest else s
  end.

(** [trimEnd]: drop the white space that is followed by white space only. *)
Fixpoint trimEnd (s : string) : string :=
  match s with
  | EmptyString => EmptyString
  | String c rest =>
      match trimEnd rest with
      | EmptyString => if is_white_space c then EmptyString else String c EmptyString
      | rest' => String c rest'
      end
  end.

Definition trim (s : string) : string := trimEnd (trimStart s).

(** The value of a character as a digit, in any radix up to 36. *)
Definition digit_value (c : ascii) : option Z :=
  let n := Z.of_nat (nat_of_ascii c) in
  if (48 <=? n) && (n <=? 57) then Some (n - 48)
  else if (97 <=? n) && (n <=? 122) then Some (n - 87)
  else if (65 <=? n) && (n <=? 90) then Some (n - 55)
  else None.

(** The longest prefix of radix-[R] digits, read most significant digit
    first; [None] when the prefix is empty.  [seen] tells whether a digit was
    already read, [acc] is the value read so far. *)
Fixpoint parse_digits (R : Z) (seen : bool) (acc : Z) (s : string) : option Z :=
  match s with
  | EmptyString => if seen then Some acc else None
  | String c rest =>
      match digit_value c with
      | Some d =>
          if d <? R then parse_digits R true (acc * R + d) rest
          else if seen then Some acc else None
      | None => if seen then Some acc else None
      end
  end.

(** A leading [0x] or [0X], which [parseInt] skips when the radix is 16. *)
Definition strip_hex_prefix (s : string) : string :=
  match s with
  | String "0" (String "x" rest) => rest
  | String "0" (String "X" rest) => rest
  | _ => s
  end.

(** [parseInt(s, R)] for [R] = 10 or 16 (ECMA-262, 19.2.5): skip leading
    white space, read an optional sign, skip [0x] when [R] = 16, read the
    longest prefix of digits; NaN when that prefix is empty. *)
Definition parseInt (s : string) (R : Z) : num :=
  let s1 := trimStart s in
  let '(sign, s2) :=
    match s1 with
    | String "-" rest => (-1, rest)
    | String "+" rest => (1, rest)
    | _ => (1, s1)
    end in
  let s3 := if R =? 16 then strip_hex_prefix s2 else s2 in
  match parse_digits R false 0 s3 with
  | Some v => Int (sign * v)
  | None => NaN
  end.

(** [String(n)] for an integer-valued Number. *)
Definition String_of_num (n : num) : string :=
  match n with
  | NaN => "NaN"
  | Int z => NilZero.string_of_int (Z.to_int z)
  end.

End JS.

Import JS.

(** ** Exceptions and completions *)

(** What a [throw] carries: an [Error] of the transport or file-system
    layer, or the [RangeError] of [BigInt(x)] on a non-integral Number. *)
Inductive exn : Type :=
| Error (message : string)
| RangeError (message : string).

(** How the evaluation of an expression completes. *)
Inductive completion (A : Type) : Type :=
| Normal (a : A)
| Throw (e : exn).
Arguments Normal {A} a.
Arguments Throw {A} e.

(** ** Prices: binary64 Numbers *)

(** A Number holding a price. *)
Definition number : Type := spec_float.

Module Float.

Definition prec : Z := 53.
Definition emax : Z := 1024.

Definition zero : number := S754_zero false.

(** The Number of an integer literal (rounded to nearest even when
    it does not fit 53 bits). *)
Definition of_Z (n : Z) : number := binary_normalize prec emax n 0 false.

(** [x / y], [x < y], [x <= y]. *)
Definition div (x y : number) : number := SFdiv prec emax x y.
Definition ltb (x y : number) : bool := SFltb x y.
Definition leb (x y : number) : bool := SFleb x y.

(** [!x]: a Number is falsy when it is 0, -0 or NaN. *)
Definition falsy (x : number) : bool :=
  match x with
  | S754_zero _ | S754_nan => true
  | _ => false
  end.

(** The mantissa with its sign. *)
Definition signed (s : bool) (m : positive) : Z := cond_Zopp s (Zpos m).

(** [Math.ceil(x)]: infinities, NaN, zeros and integral values are returned
    as they are; otherwise the least integer above, as a Number (-0 for a
    value in (-1, 0)). *)
Definition Math_ceil (x : number) : number :=
  match x with
  | S754_finite s m e =>
      if 0 <=? e then x
      else binary_normalize prec emax (- ((- signed s m) / 2 ^ (- e))) 0 s
  | _ => x
  end.

(** [BigInt(x)]: the integer a Number holds; a [RangeError] when the Number
    is not an integer (NaN, an infinity, a fraction). *)
Definition BigInt (x : number) : completion Z :=
  match x with
  | S754_zero _ => Normal 0
  | S754_finite s m e =>
      if 0 <=? e then Normal (signed s m * 2 ^ e)
      else if Zpos m mod 2 ^ (- e) =? 0 then Normal (signed s m / 2 ^ (- e))
      else Throw (RangeError "not an integer")
  | _ => Throw (RangeError "not an integer")
  end.

End Float.

(** ** Configuration constants *)

(** [SHANNON_PER_CKB = 100_000_000n]: 1 CKB = 1e8 shannons. *)
Definition SHANNON_PER_CKB : Z := 100000000.

(** [WHALE_USD_THRESHOLD = 200_000]. *)
Definition WHALE_USD_THRESHOLD : number := Float.of_Z 200000.

(** [PRICE_TTL_MS = 5 * 60 * 1000]. *)
Definition PRICE_TTL_MS : Z := 5 * 60 * 1000.

(** ** [whaleThresholdShannons(priceUsd)]

    [priceUsd] is [null] ([None]) or a Number. *)
Definition whaleThresholdShannons (priceUsd : option number) : completion Z :=
  match priceUsd with
  | None => Normal (10000000 * SHANNON_PER_CKB)
  | Some p =>
      if Float.falsy p || Float.leb p Float.zero
      then Normal (10000000 * SHANNON_PER_CKB)
      else
        let ckbNeeded := Float.Math_ceil (Float.div WHALE_USD_THRESHOLD p) in
        match Float.BigInt ckbNeeded with
        | Normal b => Normal (b * SHANNON_PER_CKB)
        | Throw e => Throw e
        end
  end.

(** ** Data model: what the node returns

    The JSON the node returns is read as typed records.  Capacities are
    taken as the integers their hex strings denote ([BigInt(o.capacity)]);
    an out-point index stays the hex string the node sends, since the source
    decodes it with [parseInt]. *)

Record Script : Type := { code_hash : string; hash_type : string; args : string }.
Record Output : Type := { capacity : Z; lock : Script }.
Record OutPoint : Type := { tx_hash : string; index : string }.
Record Input : Type := { previous_output : OutPoint }.
Record Transaction : Type :=
  { hash : string; inputs : list Input; outputs : list Output }.
Record Block : Type := { transactions : list Transaction }.

(** The result of [get_transaction]: [transaction] is [null] for a
    transaction the node does not know. *)
Record TransactionWithStatus : Type := { transaction : option Transaction }.

(** [JSON.stringify(lock)]: the fields in the order the node sends them. *)
Definition quote : string := String (ascii_of_nat 34) EmptyString.
Definition JSON_field (k v : string) : string :=
  quote +:+ k +:+ quote +:+ ":" +:+ quote +:+ v +:+ quote.
Definition JSON_stringify (l : Script) : string :=
  "{" +:+ JSON_field "code_hash" (code_hash l) +:+ "," +:+
  JSON_field "hash_type" (hash_type l) +:+ "," +:+
  JSON_field "args" (args l) +:+ "}".

(** What [data?.['nervos-network']?.usd] evaluates to. *)
Inductive jsval : Type :=
| JUndefined
| JNumber (x : number)
| JString (s : string)
| JObject.

(** The object [processBlock] hands to [buildAlert]. *)
Record AlertCandidate : Type := {
  alert_hash : string;
  alert_blockNum : Z;
  alert_outputCKB : Z;
  alert_inputCount : nat;
  alert_outputCount : nat;
  alert_outputs : list Z;
  alert_priceUsd : option number
}.

(** What the bot does that can be observed from outside: its requests and
    the lines it logs, in order. *)
Inductive event : Type :=
| EvGetBlock (n : Z)
| EvPriceRequest
| EvPrice (p : number)
| EvPriceFailed (e : exn)
| EvFilterFailed (hash : string) (e : exn)
| EvSkip (blockNum : Z) (hash : string) (total : Z)
| EvWhale (a : AlertCandidate)
| EvTelegram (ok : bool)
| EvSave (n : num) (ok : bool)
| EvInit (tip : num)
| EvCatchingUp (processed tip : num)
| EvPollError (e : exn).

(** ** The environment

    Each oracle takes the world and returns its answer with the next world.
    [telegram] receives the candidate that [buildAlert] renders: the text of
    the message is a function of it. *)
Class Env (W : Type) : Type := {
  Date_now : W -> Z * W;
  coingecko : W -> completion jsval * W;
  get_tip_block_number : W -> completion string * W;
  get_block_by_number : Z -> W -> completion (option Block) * W;
  get_transaction : string -> W -> completion (option TransactionWithStatus) * W;
  telegram : AlertCandidate -> W -> completion unit * W;
  writeFileSync : string -> W -> completion unit * W;
  readFileSync : W -> completion string * W
}.

(** ** State and monad *)

Record state (W : Type) : Type := {
  ckbPriceUsd : option number;
  priceFetchedAt : Z;
  lastBlock : option num;
  world : W;
  console : list event
}.
Arguments ckbPriceUsd {W} s.
Arguments priceFetchedAt {W} s.
Arguments lastBlock {W} s.
Arguments world {W} s.
Arguments console {W} s.

Definition M (W A : Type) : Type := state W -> completion A * state W.

Section Monad.
Context {W : Type}.

Definition ret {A} (a : A) : M W A := fun s => (Normal a, s).

Definition bind {A B} (m : M W A) (k : A -> M W B) : M W B :=
  fun s =>
    match m s with
    | (Normal a, s') => k a s'
    | (Throw e, s') => (Throw e, s')
    end.

(** [try { m } catch (e) { h e }] *)
Definition try_catch {A} (m : M W A) (h : exn -> M W A) : M W A :=
  fun s =>
    match m s with
    | (Normal a, s') => (Normal a, s')
    | (Throw e, s') => h e s'
    end.

(** An expression that completes without touching the state. *)
Definition lift {A} (c : completion A) : M W A := fun s => (c, s).

Definition get : M W (state W) := fun s => (Normal s, s).

(** A call to an oracle. *)
Definition call {A} (f : W -> completion A * W) : M W A :=
  fun s =>
    let '(r, w) := f (world s) in
    (r, {| ckbPriceUsd := ckbPriceUsd s; priceFetchedAt := priceFetchedAt s;
           lastBlock := lastBlock s; world := w; console := console s |}).

Definition log (ev : event) : M W unit :=
  fun s =>
    (Normal tt,
     {| ckbPriceUsd := ckbPriceUsd s; priceFetchedAt := priceFetchedAt s;
        lastBlock := lastBlock s; world := world s; console := console s ++ [ev] |}).

Definition set_price (p : number) (now : Z) : M W unit :=
  fun s =>
    (Normal tt,
     {| ckbPriceUsd := Some p; priceFetchedAt := now;
        lastBlock := lastBlock s; world := world s; console := console s |}).

Definition set_lastBlock (n : num) : M W unit :=
  fun s =>
    (Normal tt,
     {| ckbPriceUsd := ckbPriceUsd s; priceFetchedAt := priceFetchedAt s;
        lastBlock := Some n; world := world s; console := console s |}).

End Monad.

#[global] Instance M_ret {W} : MRet (M W) := @ret W.
#[global] Instance M_bind {W} : MBind (M W) := fun A B k m => bind m k.

(** [Promise.all(ms)]: every request is issued, in order; the result is the
    list of answers, or the first rejection. *)
Fixpoint Promise_all {W A} (ms : list (M W A)) : M W (list A) :=
  match ms with
  | [] => ret []
  | m :: rest =>
      fun s =>
        match m s with
        | (Normal a, s1) =>
            match Promise_all rest s1 with
            | (Normal l, s2) => (Normal (a :: l), s2)
            | (Throw e, s2) => (Throw e, s2)
            end
        | (Throw e, s1) => (Throw e, snd (Promise_all rest s1))
        end
  end.

(** ** The program *)

Section Program.
Context {W : Type} {E : Env W}.

(** [Date.now()] *)
Definition now_ms : M W Z :=
  call (fun w => let '(t, w') := Date_now w in (Normal t, w')).

(** *** [fetchCkbPrice()] *)
Definition fetchCkbPrice : M W (option number) :=
  now ← now_ms;
  s ← get;
  if bool_decide (ckbPriceUsd s ≠ None) && (now - priceFetchedAt s <? PRICE_TTL_MS)
  then ret (ckbPriceUsd s)
  else
    try_catch
      (log EvPriceRequest;;
       price ← call coingecko;
       match price with
       | JNumber x =>
           if Float.ltb Float.zero x
           then set_price x now;; log (EvPrice x)
           else ret tt
       | _ => ret tt
       end)
      (fun e => log (EvPriceFailed e));;
    s' ← get;
    ret (ckbPriceUsd s').

(** *** [loadLastBlock()] and [saveLastBlock(n)] *)

Definition isNaN (n : num) : bool :=
  match n with
  | NaN => true
  | Int _ => false
  end.

(** [loadLastBlock] runs once, when the module is loaded: it reads the state
    file from the world and returns the height to resume from, or [null]. *)
Definition loadLastBlock (w : W) : option num * W :=
  match readFileSync w with
  | (Normal content, w') =>
      let saved := trim content in
      let n := parseInt saved 10 in
      if negb (isNaN n) && num_ltb (Int 0) n then (Some n, w') else (None, w')
  | (Throw _, w') => (None, w')
  end.

(** [fs.writeFileSync(STATE_FILE, String(n), 'utf8')]; the trace records the
    write and whether it succeeded. *)
Definition saveLastBlock (n : num) : M W unit :=
  try_catch
    (call (writeFileSync (String_of_num n));; log (EvSave n true))
    (fun e => log (EvSave n false);; lift (Throw e)).

(** *** [isSelfTransfer(tx)] *)

(** [res.transaction?.outputs?.[idx]?.lock] *)
Definition prev_lock (res : TransactionWithStatus) (idx : num) : option Script :=
  match transaction res, idx with
  | Some t, Int i => if 0 <=? i then lock <$> (outputs t !! Z.to_nat i) else None
  | _, _ => None
  end.

(** The loop over [j] that fills [inputLocks] from [tx.inputs[j]] and
    [prevTxResults[j]]. *)
Fixpoint collect_locks (ins : list Input)
  (prevTxResults : list (option TransactionWithStatus))
  (inputLocks : gset string) : gset string :=
  match ins, prevTxResults with
  | inp :: ins', res :: results' =>
      collect_locks ins' results'
        match res with
        | None => inputLocks
        | Some r =>
            match prev_lock r (parseInt (index (previous_output inp)) 16) with
            | Some l => inputLocks ∪ {[JSON_stringify l]}
            | None => inputLocks
            end
        end
  | _, _ => inputLocks
  end.

Definition isSelfTransfer (tx : Transaction) : M W bool :=
  try_catch
    (prevTxResults ←
       Promise_all
         (map (fun inp => call (get_transaction (tx_hash (previous_output inp))))
              (inputs tx));
     let inputLocks := collect_locks (inputs tx) prevTxResults ∅ in
     if bool_decide (size inputLocks = 0%nat) then ret false
     else
       ret (forallb (fun o => bool_decide (JSON_stringify (lock o) ∈ inputLocks))
                    (outputs tx)))
    (fun err => log (EvFilterFailed (hash tx) err);; ret false).

(** *** [processBlock(blockNum)] *)

(** The body of the scan loop for one transaction. *)
Definition scanTx (blockNum : Z) (priceUsd : option number) (threshold : Z)
  (tx : Transaction) : M W unit :=
  let outs := map capacity (outputs tx) in
  let total := fold_left Z.add outs 0 in
  if total <? threshold then ret tt
  else
    filtered ← isSelfTransfer tx;
    if (filtered : bool) then log (EvSkip blockNum (hash tx) total)
    else
      let candidate :=
        {| alert_hash := hash tx; alert_blockNum := blockNum;
           alert_outputCKB := total;
           alert_inputCount := length (inputs tx);
           alert_outputCount := length (outputs tx);
           alert_outputs := outs; alert_priceUsd := priceUsd |} in
      log (EvWhale candidate);;
      try_catch
        (call (telegram candidate);; log (EvTelegram true))
        (fun _ => log (EvTelegram false)).

(** [for (let i = 1; i < txs.length; i++)]: [fuel] bounds the number of
    iterations left; the loop ends when [txs[i]] is out of range. *)
Fixpoint scan_loop (blockNum : Z) (priceUsd : option number) (threshold : Z)
  (txs : list Transaction) (fuel i : nat) : M W unit :=
  match fuel with
  | O => ret tt
  | S fuel' =>
      match txs !! i with
      | None => ret tt
      | Some tx =>
          scanTx blockNum priceUsd threshold tx;;
          scan_loop blockNum priceUsd threshold txs fuel' (S i)
      end
  end.

Definition processBlock (blockNum : Z) : M W unit :=
  block ← (log (EvGetBlock blockNum);; call (get_block_by_number blockNum));
  match block with
  | None => ret tt
  | Some block =>
      let txs := transactions block in
      priceUsd ← fetchCkbPrice;
      threshold ← lift (whaleThresholdShannons priceUsd);
      scan_loop blockNum priceUsd threshold txs (length txs) 1
  end.

(** *** [poll()] *)

(** [for (let n = ...; n <= toProcess; n++)] with [count] iterations left. *)
Fixpoint catch_up (count : nat) (n : Z) : M W unit :=
  match count with
  | O => ret tt
  | S count' =>
      processBlock n;;
      set_lastBlock (Int n);;
      saveLastBlock (Int n);;
      catch_up count' (n + 1)
  end.

(** The loop of [poll]: when [start] or [toProcess] is NaN the test
    [n <= toProcess] fails at once; otherwise it runs for the heights
    [start], ..., [toProcess]. *)
Definition for_heights (start toProcess : num) : M W unit :=
  match start, toProcess with
  | Int a, Int b => catch_up (Z.to_nat (b + 1 - a)) a
  | _, _ => ret tt
  end.

Definition poll : M W unit :=
  try_catch
    (tipHex ← call get_tip_block_number;
     let tip := parseInt tipHex 16 in
     s ← get;
     match lastBlock s with
     | None =>
         set_lastBlock tip;;
         saveLastBlock tip;;
         log (EvInit tip)
     | Some last =>
         if num_leb tip last then ret tt
         else
           let toProcess := Math_min tip (num_add last 50) in
           for_heights (num_add last 1) toProcess;;
           if num_ltb toProcess tip then log (EvCatchingUp toProcess tip)
           else ret tt
     end)
    (fun err => log (EvPollError err)).

(** The state the module starts in. *)
Definition startup (w : W) : state W :=
  let '(last, w') := loadLastBlock w in
  {| ckbPriceUsd := None; priceFetchedAt := 0; lastBlock := last;
     world := w'; console := [] |}.

(** [k] timer ticks, one cycle after the other. *)
Fixpoint run (k : nat) (s : state W) : state W :=
  match k with
  | O => s
  | S k' => run k' (snd (poll s))
  end.

End Program.

(** ** A scripted world, for running the program on concrete inputs *)

Record Sim : Type := {
  sim_clock : Z;
  sim_feed : completion jsval;
  sim_tip : completion string;
  sim_block : Z -> completion (option Block);
  sim_tx : string -> completion (option TransactionWithStatus);
  sim_telegram_ok : bool;
  sim_disk_ok : string -> bool;
  sim_file : option string
}.

Definition sim_write (content : string) (w : Sim) : completion unit * Sim :=
  if sim_disk_ok w content
  then (Normal tt,
        {| sim_clock := sim_clock w; sim_feed := sim_feed w; sim_tip := sim_tip w;
           sim_block := sim_block w; sim_tx := sim_tx w;
           sim_telegram_ok := sim_telegram_ok w; sim_disk_ok := sim_disk_ok w;
           sim_file := Some content |})
  else (Throw (Error "ENOSPC"), w).

#[global] Instance Sim_env : Env Sim := {|
  Date_now w := (sim_clock w, w);
  coingecko w := (sim_feed w, w);
  get_tip_block_number w := (sim_tip w, w);
  get_block_by_number n w := (sim_block w n, w);
  get_transaction h w := (sim_tx w h, w);
  telegram a w :=
    (if sim_telegram_ok w then Normal tt else Throw (Error "Telegram error"), w);
  writeFileSync := sim_write;
  readFileSync w :=
    (match sim_file w with
     | Some c => Normal c
     | None => Throw (Error "ENOENT")
     end, w)
|}.

(** Sample prices: 0.01, 0.02, 0.003 and [Number.MIN_VALUE] (5e-324) as
    binary64 values. *)
Definition price_0_01 : number := S754_finite false 5764607523034235 (-59).
Definition price_0_02 : number := S754_finite false 5764607523034235 (-58).
Definition price_0_003 : number := S754_finite false 6917529027641082 (-61).
Definition MIN_VALUE : number := S754_finite false 1 (-1074).



(** ** The threshold, as the claims read it *)

(** The mantissa of 200000 as a binary64 value: 200000 = [MX] * 2^-35. *)
Definition MX : Z := 6871947673600000.

(** The ceiling of [n * 2^e]. *)
Definition ceil_pow2 (n e : Z) : Z :=
  if 0 <=? e then n * 2 ^ e else - ((- n) / 2 ^ (- e)).

(** What the division of 200000 by a finite positive Number gives: a
    53-bit mantissa [n] and a shift [k], within half a unit of the exact
    quotient. *)
Definition quotient_shape (my : positive) (n : positive) (k : Z) : Prop :=
  (k = 0 \/ k = 1) /\ 2 ^ 52 <= Zpos n < 2 ^ 53 /\
  (2 * Zpos n - 1) * 2 ^ k * Zpos my <= 2 * (MX * 2 ^ Zpos (digits2_pos my))
    <= (2 * Zpos n + 1) * 2 ^ k * Zpos my.

(** A rate is unavailable when it is absent, NaN, or at most 0. *)
Definition unavailable (priceUsd : option number) : Prop :=
  match priceUsd with
  | None => True
  | Some x => x = S754_nan \/ Float.leb x Float.zero = true
  end.

(** ** Traces

    What the claims say about a cycle is read off the trace: which heights
    were fetched, which were saved, and what the scan of a height logged. *)

(** The events the scan of height [h] may log. *)
Definition scan_event (h : Z) (e : event) : Prop :=
  match e with
  | EvPriceRequest | EvPrice _ | EvPriceFailed _
  | EvFilterFailed _ _ | EvTelegram _ => True
  | EvSkip blockNum _ _ => blockNum = h
  | EvWhale a => alert_blockNum a = h
  | _ => False
  end.

(** The heights whose block was requested, in order. *)
Definition heights_fetched (evs : list event) : list Z :=
  omap (fun e => match e with EvGetBlock n => Some n | _ => None end) evs.

(** The writes of the state file, in order, each with its outcome. *)
Definition saves (evs : list event) : list (num * bool) :=
  omap (fun e => match e with EvSave n ok => Some (n, ok) | _ => None end) evs.

(** The candidates for which the WHALE line was logged, in order. *)
Definition alerts (evs : list event) : list AlertCandidate :=
  omap (fun e => match e with EvWhale a => Some a | _ => None end) evs.

(** The trace of a run of heights that were each fetched, scanned and then
    saved, one after the other. *)
Inductive completed : list Z -> list event -> Prop :=
| completed_nil : completed [] []
| completed_cons h hs evs rest :
    Forall (scan_event h) evs ->
    completed hs rest ->
    completed (h :: hs) (EvGetBlock h :: evs ++ EvSave (Int h) true :: rest).

(** [s'] is [s] after a step that left [lastBlock] alone and logged only
    events satisfying [P]. *)
Definition logs_only {W} (P : event -> Prop) (s s' : state W) : Prop :=
  lastBlock s' = lastBlock s /\
  exists evs, console s' = console s ++ evs /\ Forall P evs.

(** A computation whose every run is such a step. *)
Definition quiet {W A} (P : event -> Prop) (m : M W A) : Prop :=
  forall s, logs_only P s (m s).2.

(** A refresh succeeds when the feed answers with a positive Number. *)
Definition refreshed (answer : completion jsval) : option number :=
  match answer with
  | Normal (JNumber x) => if Float.ltb Float.zero x then Some x else None
  | _ => None
  end.

(** The spec's [sum(output.value)]. *)
Definition sum_values (tx : Transaction) : Z :=
  foldr Z.add 0 (map capacity (outputs tx)).

(** The spec's scan: each transaction from index 1 onward, in order. *)
Fixpoint scan_each {W} `{Env W} (blockNum : Z) (priceUsd : option number)
  (threshold : Z) (txs : list Transaction) : M W unit :=
  match txs with
  | [] => ret tt
  | tx :: rest =>
      scanTx blockNum priceUsd threshold tx;;
      scan_each blockNum priceUsd threshold rest
  end.

(** How a catch-up batch ends: every height done, or the scan of [h]
    raised [e], or the save of [h] raised [e]. *)
Inductive batch_outcome : Type :=
| AllDone
| ScanFailed (h : Z) (e : exn)
| SaveFailed (h : Z) (e : exn).

(** The trace of a batch over the [count] heights from [from] on. *)
Definition batch_trace (from : Z) (count : nat) (o : batch_outcome)
  (evs : list event) : Prop :=
  match o with
  | AllDone => completed (seqZ from (Z.of_nat count)) evs
  | ScanFailed h _ =>
      from <= h < from + Z.of_nat count /\
      exists done scan,
        completed (seqZ from (h - from)) done /\ Forall (scan_event h) scan /\
        evs = done ++ EvGetBlock h :: scan
  | SaveFailed h _ =>
      from <= h < from + Z.of_nat count /\
      exists done scan,
        completed (seqZ from (h - from)) done /\ Forall (scan_event h) scan /\
        evs = done ++ EvGetBlock h :: scan ++ [EvSave (Int h) false]
  end.

(** The completion of the batch and the pointer it leaves in memory. *)
Definition batch_result (from : Z) (count : nat) (o : batch_outcome)
  (r : completion unit) (last : option num) : Prop :=
  match o with
  | AllDone => r = Normal tt /\ last = Some (Int (from + Z.of_nat count - 1))
  | ScanFailed h e => r = Throw e /\ last = Some (Int (h - 1))
  | SaveFailed h e => r = Throw e /\ last = Some (Int h)
  end.

(** The line [poll] logs after the batch. *)
Definition batch_epilogue (o : batch_outcome) (toProcess tip : Z) : list event :=
  match o with
  | AllDone => if toProcess <? tip then [EvCatchingUp (Int toProcess) (Int tip)] else []
  | ScanFailed _ e | SaveFailed _ e => [EvPollError e]
  end.

(** The number of heights a batch fetched. *)
Definition fetched_count (from : Z) (count : nat) (o : batch_outcome) : Z :=
  match o with
  | AllDone => Z.of_nat count
  | ScanFailed h _ | SaveFailed h _ => h - from + 1
  end.

(** Content of the state file that is not numeric: after leading white
    space and an optional sign it does not start with a decimal digit. *)
Definition is_decimal_digit (c : ascii) : bool :=
  let n := Z.of_nat (nat_of_ascii c) in (48 <=? n) && (n <=? 57).

Definition non_numeric (content : string) : Prop :=
  match
    match trimStart content with
    | String "-" rest => rest
    | String "+" rest => rest
    | t => t
    end
  with
  | String c _ => is_decimal_digit c = false
  | EmptyString => True
  end.

(** What a cycle appended to the trace. *)
Definition new_events {W} (s s' : state W) : list event :=
  drop (length (console s)) (console s').

(** ** Scenarios

    The transaction of the README: outputs of 15,000,000 and 2,500,000 CKB,
    one input that spends an output locked by [lockA]. *)

Definition lockA : Script :=
  {| code_hash := "0x9bd7"; hash_type := "type"; args := "0xaa" |}.
Definition lockB : Script :=
  {| code_hash := "0x9bd7"; hash_type := "type"; args := "0xbb" |}.
Definition CKB (n : Z) : Z := n * SHANNON_PER_CKB.
Definition prevTx : Transaction :=
  {| hash := "0xprev"; inputs := [];
     outputs := [ {| capacity := CKB 17500001; lock := lockA |} ] |}.
Definition cellbase : Transaction :=
  {| hash := "0xcb"; inputs := [];
     outputs := [ {| capacity := CKB 99999999; lock := lockB |} ] |}.
Definition spend_prev : Input :=
  {| previous_output := {| tx_hash := "0xprev"; index := "0x0" |} |}.
Definition whaleTx : Transaction :=
  {| hash := "0xwhale"; inputs := [spend_prev];
     outputs := [ {| capacity := CKB 15000000; lock := lockA |};
                  {| capacity := CKB 2500000; lock := lockB |} ] |}.
Definition selfTx : Transaction :=
  {| hash := "0xself"; inputs := [spend_prev];
     outputs := [ {| capacity := CKB 15000000; lock := lockA |};
                  {| capacity := CKB 2500000; lock := lockA |} ] |}.

(** A node at tip 1002 whose block 1000 holds the two transactions, a feed
    that is down, a state file that says 999. *)
Definition healthy : Sim :=
  {| sim_clock := 1700000000000;
     sim_feed := Throw (Error "timeout");
     sim_tip := Normal "0x3ea";
     sim_block := fun n =>
       if n =? 1000
       then Normal (Some {| transactions := [cellbase; whaleTx; selfTx] |})
       else Normal (Some {| transactions := [cellbase] |});
     sim_tx := fun h =>
       if String.eqb h "0xprev"
       then Normal (Some {| transaction := Some prevTx |})
       else Normal None;
     sim_telegram_ok := true;
     sim_disk_ok := fun _ => true;
     sim_file := Some "999" |}.

(** The same, with a node that fails to return block 1001. *)
Definition block_1001_fails : Sim :=
  {| sim_clock := sim_clock healthy; sim_feed := sim_feed healthy;
     sim_tip := sim_tip healthy;
     sim_block := fun n =>
       if n =? 1001 then Throw (Error "timeout") else sim_block healthy n;
     sim_tx := sim_tx healthy; sim_telegram_ok := true;
     sim_disk_ok := fun _ => true; sim_file := Some "999" |}.

(** The same, with a disk that refuses to write 1001. *)
Definition save_1001_fails : Sim :=
  {| sim_clock := sim_clock healthy; sim_feed := sim_feed healthy;
     sim_tip := sim_tip healthy; sim_block := sim_block healthy;
     sim_tx := sim_tx healthy; sim_telegram_ok := true;
     sim_disk_ok := fun c => negb (String.eqb c "1001");
     sim_file := Some "999" |}.

(** The same, with the given content of the state file ([None]: no file). *)
Definition with_file (content : option string) : Sim :=
  {| sim_clock := sim_clock healthy; sim_feed := sim_feed healthy;
     sim_tip := sim_tip healthy; sim_block := sim_block healthy;
     sim_tx := sim_tx healthy; sim_telegram_ok := true;
     sim_disk_ok := fun _ => true; sim_file := content |}.

(** The healthy node, with a feed that answers [Number.MIN_VALUE]. *)
Definition tiny_price : Sim :=
  {| sim_clock := sim_clock healthy;
     sim_feed := Normal (JNumber MIN_VALUE);
     sim_tip := sim_tip healthy; sim_block := sim_block healthy;
     sim_tx := sim_tx healthy; sim_telegram_ok := true;
     sim_disk_ok := fun _ => true; sim_file := Some "999" |}.

(** A feed that answers with the given value, at the given clock reading,
    seen from a state whose cache holds [cached], fetched at time 0. *)
Definition feed_state (cached : option number) (clock : Z)
  (answer : completion jsval) : state Sim :=
  {| ckbPriceUsd := cached; priceFetchedAt := 0; lastBlock := None;
     world :=
       {| sim_clock := clock; sim_feed := answer; sim_tip := sim_tip healthy;
          sim_block := sim_block healthy; sim_tx := sim_tx healthy;
          sim_telegram_ok := true; sim_disk_ok := fun _ => true;
          sim_file := None |};
     console := [] |}.

(** The order on pointers: [null] is below everything, heights are ordered
    as integers. *)
Definition pointer_le (a b : option num) : Prop :=
  match a, b with
  | None, _ => True
  | Some (Int x), Some (Int y) => x <= y
  | Some NaN, Some NaN => True
  | _, _ => False
  end.

(** ** Invariants of the state

    A relation between the state before and the state after a step; a
    computation keeps it when every run of it is such a step. *)
Definition keeps {W A} (R : state W -> state W -> Prop) (m : M W A) : Prop :=
  forall s, R s (m s).2.

(** A step of the price cache: rate and timestamp are left as they are, or
    the rate is replaced by a positive Number. *)
Definition price_step {W} (s s' : state W) : Prop :=
  (ckbPriceUsd s' = ckbPriceUsd s /\ priceFetchedAt s' = priceFetchedAt s) \/
  exists x, ckbPriceUsd s' = Some x /\ Float.ltb Float.zero x = true.

(** A rate as the cache may hold it: absent, or a positive Number. *)
Definition null_or_positive (priceUsd : option number) : Prop :=
  match priceUsd with
  | None => True
  | Some x => Float.ltb Float.zero x = true
  end.

(** The requests to the price feed in a trace. *)
Definition price_requests (evs : list event) : list unit :=
  omap (fun e => match e with EvPriceRequest => Some tt | _ => None end) evs.

(** The lines of the price cache. *)
Definition price_line (e : event) : Prop :=
  match e with
  | EvPriceRequest | EvPrice _ | EvPriceFailed _ => True
  | _ => False
  end.

(** The lines of the scan of block [blockNum] at rate [priceUsd]. *)
Definition scan_line (blockNum : Z) (priceUsd : option number) (e : event) : Prop :=
  match e with
  | EvFilterFailed _ _ | EvTelegram _ => True
  | EvSkip b _ _ => b = blockNum
  | EvWhale a => alert_blockNum a = blockNum /\ alert_priceUsd a = priceUsd
  | _ => False
  end.

(** A step that leaves the price cache and the pointer alone and logs only
    lines satisfying [P]. *)
Definition scan_step {W} (P : event -> Prop) (s s' : state W) : Prop :=
  ckbPriceUsd s' = ckbPriceUsd s /\ priceFetchedAt s' = priceFetchedAt s /\
  logs_only P s s'.

(** The heights of the alerts in a trace. *)
Definition alert_heights (evs : list event) : list Z :=
  map alert_blockNum (alerts evs).

(** The lines a cycle logs when it fetches no block. *)
Definition idle_line (e : event) : Prop :=
  match e with
  | EvPollError _ => True
  | _ => False
  end.

(** A height above the pointer [a] ([null]: every height). *)
Definition beyond (a : option num) (h : Z) : Prop :=
  match a with
  | None => True
  | Some (Int p) => p < h
  | Some NaN => False
  end.

(** A height the pointer [a] has reached. *)
Definition reached (a : option num) (h : Z) : Prop :=
  match a with
  | Some (Int q) => h <= q
  | _ => False
  end.

(** ** The scripted world: restarts and steady progress *)

(** The pointer a restart resumes from: [loadLastBlock] accepts heights
    above 0 only. *)
Definition resumable (last : option num) : option num :=
  match last with
  | Some (Int z) => if 0 <? z then Some (Int z) else None
  | _ => None
  end.

(** A step that leaves the scripted world as it is. *)
Definition same_world (s s' : state Sim) : Prop := world s' = world s.

(** A disk that accepts every write. *)
Definition disk_ok (w : Sim) : Prop := forall c, sim_disk_ok w c = true.

(** A rate at which the threshold can be computed. *)
Definition safe_rate (priceUsd : option number) : Prop :=
  exists threshold, whaleThresholdShannons priceUsd = Normal threshold.

(** A world in which no cycle fails: the disk accepts every write, the
    node answers every request for the tip and for a block, and the feed
    gives no rate at which the threshold overflows. *)
Definition steady (tipHex : string) (w : Sim) : Prop :=
  disk_ok w /\ sim_tip w = Normal tipHex /\
  (forall n, exists b, sim_block w n = Normal b) /\
  (forall x, refreshed (sim_feed w) = Some x -> safe_rate (Some x)).

(** What a restart would resume from is what the process holds. *)
Definition in_step (s : state Sim) : Prop :=
  disk_ok (world s) /\ (loadLastBlock (world s)).1 = resumable (lastBlock s).

(** ** Locks as the node sends them *)

(** A character that [JSON.stringify] copies as it is and that is no
    quote: a letter or a digit. *)
Definition is_alphanumeric (c : ascii) : bool :=
  let n := Z.of_nat (nat_of_ascii c) in
  ((48 <=? n) && (n <=? 57)) || ((65 <=? n) && (n <=? 90)) ||
  ((97 <=? n) && (n <=? 122)).

Fixpoint plain (s : string) : bool :=
  match s with
  | EmptyString => true
  | String c rest => is_alphanumeric c && plain rest
  end.

(** A lock whose fields are hex strings or names, as the node sends
    them. *)
Definition plain_lock (l : Script) : Prop :=
  plain (code_hash l) = true /\ plain (hash_type l) = true /\ plain (args l) = true.

(** The locks of the cells a transaction spends, as far as the answers
    to the lookups resolve them. *)
Definition spent_lock (ins : list Input)
  (prevTxResults : list (option TransactionWithStatus)) (lk : Script) : Prop :=
  exists j inp res,
    ins !! j = Some inp /\ prevTxResults !! j = Some (Some res) /\
    prev_lock res (parseInt (index (previous_output inp)) 16) = Some lk.

(** ** The state file, edited by hand *)

Fixpoint all_white_space (s : string) : bool :=
  match s with
  | EmptyString => true
  | String c rest => is_white_space c && all_white_space rest
  end.

(** What may follow the digits: nothing, or text that starts with a
    character that is no decimal digit. *)
Definition no_digit_ahead (s : string) : Prop :=
  match s with
  | EmptyString => True
  | String c _ => is_decimal_digit c = false
  end.

(** A text made of decimal digits. *)
Fixpoint all_digits (s : string) : bool :=
  match s with
  | EmptyString => true
  | String c rest => is_decimal_digit c && all_digits rest
  end.

(** ** Formatting

    The text of an alert.  A string is held as the bytes of its UTF-8
    encoding, the form in which the message leaves the process; a hash is a
    string of ASCII characters, for which bytes and UTF-16 code units
    coincide. *)

(** The line break. *)
Definition LF : string := String (ascii_of_nat 10) EmptyString.

(** [z.toString()] for a BigInt, [String(z)] for an integer-valued Number:
    the decimal digits, after a [-] below 0. *)
Definition decimal (z : Z) : string := String_of_num (Int z).

(** The digits in groups of three, separated by commas: how the [en-AU]
    locale writes an integer. *)
Fixpoint group_digits (digits : string) : string :=
  match digits with
  | EmptyString => EmptyString
  | String c rest =>
      String c
        (if (0 <? String.length rest)%nat && (String.length rest mod 3 =? 0)%nat
         then "," +:+ group_digits rest
         else group_digits rest)
  end.

(** [z.toLocaleString('en-AU')] for a BigInt or an integer-valued
    Number. *)
Definition toLocaleString (z : Z) : string :=
  if z <? 0 then "-" +:+ group_digits (decimal (- z)) else group_digits (decimal z).

(** [formatCKB(shannons)]: the division of BigInts truncates. *)
Definition formatCKB (shannons : Z) : string :=
  let ckb := shannons ÷ SHANNON_PER_CKB in
  toLocaleString ckb.

Fixpoint zeros (n : nat) : string :=
  match n with
  | O => EmptyString
  | S n' => String "0" (zeros n')
  end.

(** The digits of a natural number, with zeros in front up to [width]
    digits. *)
Definition pad_zeros (width : nat) (digits : string) : string :=
  zeros (width - String.length digits) +:+ digits.

(** [n / 10^f] in fixed-point notation: the digits of [n] with a point
    before the last [f] of them. *)
Definition fixed_point (n : Z) (f : nat) : string :=
  match f with
  | O => decimal n
  | _ =>
      decimal (n / 10 ^ Z.of_nat f) +:+ "." +:+
      pad_zeros f (decimal (n mod 10 ^ Z.of_nat f))
  end.

(** [x.toFixed(f)] (ECMA-262, 21.1.3.3).  A Number that is not finite is
    printed by name.  Otherwise the sign is split off, the magnitude times
    [10^f] is rounded to the nearest integer [n], the larger one on a tie,
    and [n] is printed with the point before its last [f] digits.  From
    [10^21] on, [toFixed] switches to the exponential notation of
    [Number::toString], which is not part of this development: [None]. *)
Definition Number_toFixed (x : number) (f : nat) : option string :=
  match x with
  | S754_nan => Some "NaN"%string
  | S754_infinity s => Some (if s then "-Infinity" else "Infinity")%string
  | S754_zero _ => Some (fixed_point 0 f)
  | S754_finite s m e =>
      if (if 0 <=? e then 10 ^ 21 <=? Zpos m * 2 ^ e
          else 10 ^ 21 * 2 ^ (- e) <=? Zpos m)
      then None
      else
        let n :=
          if 0 <=? e then Zpos m * 2 ^ e * 10 ^ Z.of_nat f
          else (2 * Zpos m * 10 ^ Z.of_nat f + 2 ^ (- e)) / (2 * 2 ^ (- e)) in
        Some ((if s then "-" else "") +:+ fixed_point n f)
  end.

(** [formatMillions(shannons)] *)
Definition formatMillions (shannons : Z) : option string :=
  let m := Float.of_Z (shannons ÷ (SHANNON_PER_CKB * 1000000)) in
  digits ← Number_toFixed m 2;
  Some (digits +:+ "M").

(** [truncHash(hash)], with the default [len = 12]:
    [hash.slice(0, 2 + len) + '...' + hash.slice(-6)]. *)
Definition truncHash (hash : string) : string :=
  substring 0 14 hash +:+ "..." +:+
  substring (String.length hash - 6) 6 hash.

(** [x * y] on Numbers. *)
Definition Float_mul (x y : number) : number := SFmul Float.prec Float.emax x y.

(** [Math.round(x)]: the nearest integer, the larger one on a tie; an
    infinity, NaN, a zero and an integral value are returned as they are,
    and a value in [-0.5, 0) gives -0. *)
Definition Math_round (x : number) : number :=
  match x with
  | S754_finite s m e =>
      if 0 <=? e then x
      else
        binary_normalize Float.prec Float.emax
          ((2 * Float.signed s m + 2 ^ (- e)) / (2 * 2 ^ (- e))) 0 s
  | _ => x
  end.

(** The integer a finite Number holds, when it holds one. *)
Definition integer_value (s : bool) (m : positive) (e : Z) : option Z :=
  if 0 <=? e then Some (Float.signed s m * 2 ^ e)
  else if Zpos m mod 2 ^ (- e) =? 0 then Some (Float.signed s m / 2 ^ (- e))
  else None.

(** [x.toLocaleString('en-AU')] for a Number that is NaN, an infinity, a
    zero or an integer below 2^53 in magnitude; fractions and larger
    integers, which the bot never prints this way, are not part of this
    development: [None]. *)
Definition Number_toLocaleString (x : number) : option string :=
  match x with
  | S754_nan => Some "NaN"%string
  | S754_infinity s => Some (if s then "-∞" else "∞")%string
  | S754_zero s => Some (if s then "-0" else "0")%string
  | S754_finite s m e =>
      z ← integer_value s m e;
      if Z.abs z <? 2 ^ 53 then Some (toLocaleString z) else None
  end.

(** [EXPLORER_TX] *)
Definition EXPLORER_TX : string := "https://explorer.nervos.org/transaction".

(** [outputs.reduce((a, b) => (b > a ? b : a), 0n)] *)
Definition biggest (outputs : list Z) : Z :=
  fold_left (fun a b => if a <? b then b else a) outputs 0.

(** The [usdLine] of [buildAlert]: empty unless the rate is a Number
    above 0. *)
Definition usdLine (outputCKB : Z) (priceUsd : option number) : option string :=
  match priceUsd with
  | Some rate =>
      if negb (Float.falsy rate) && Float.ltb Float.zero rate
      then
        let ckbCount := Float.of_Z (outputCKB ÷ SHANNON_PER_CKB) in
        let usdValue := Float_mul ckbCount rate in
        usdStr ←
          (if Float.leb (Float.of_Z 1000000) usdValue
           then
             millions ← Number_toFixed (Float.div usdValue (Float.of_Z 1000000)) 2;
             Some ("$" +:+ millions +:+ "M")
           else
             rounded ← Number_toLocaleString (Math_round usdValue);
             Some ("$" +:+ rounded));
        perCKB ← Number_toFixed rate 4;
        Some ("💵 USD value: <code>~" +:+ usdStr +:+ "</code> @ $" +:+ perCKB +:+
              "/CKB" +:+ LF)
      else Some EmptyString
  | None => Some EmptyString
  end.

(** The lines of the message, before the empty ones are dropped. *)
Definition alert_lines (a : AlertCandidate) (millAmount usd : string) : list string :=
  [ "🐋 <b>CKB Whale Alert</b>";
    "";
    "<b>" +:+ millAmount +:+ " CKB</b> moved on-chain";
    "";
    "💰 Total output: <code>" +:+ formatCKB (alert_outputCKB a) +:+ " CKB</code>";
    trimEnd usd;
    "📦 Largest output: <code>" +:+ formatCKB (biggest (alert_outputs a)) +:+ " CKB</code>";
    "🔀 Inputs → Outputs: " +:+ decimal (Z.of_nat (alert_inputCount a)) +:+ " → " +:+
      decimal (Z.of_nat (alert_outputCount a));
    "📏 Block: <code>" +:+ toLocaleString (alert_blockNum a) +:+ "</code>";
    "";
    "🔗 <a href=" +:+ quote +:+ EXPLORER_TX +:+ "/" +:+ alert_hash a +:+ quote +:+ ">" +:+
      truncHash (alert_hash a) +:+ "</a>" ]%string.

(** [buildAlert(candidate)]: the lines that are not empty, joined by line
    breaks.  [None] when a Number to print in fixed-point notation is
    10^21 or more. *)
Definition buildAlert (a : AlertCandidate) : option string :=
  millAmount ← formatMillions (alert_outputCKB a);
  usd ← usdLine (alert_outputCKB a) (alert_priceUsd a);
  Some (String.concat LF
          (filter (fun l => l <> EmptyString) (alert_lines a millAmount usd))).

(** The lines of a text: its pieces between line breaks. *)
Fixpoint lines (s : string) : list string :=
  match s with
  | EmptyString => [EmptyString]
  | String c rest =>
      if Ascii.eqb c (ascii_of_nat 10) then EmptyString :: lines rest
      else
        match lines rest with
        | l :: ls => String c l :: ls
        | [] => [String c EmptyString]
        end
  end.

(** A text in which the character [c] does not occur. *)
Fixpoint free_of (c : ascii) (s : string) : bool :=
  match s with
  | EmptyString => true
  | String x rest => negb (Ascii.eqb x c) && free_of c rest
  end.

(** The text without its commas. *)
Fixpoint strip_commas (s : string) : string :=
  match s with
  | EmptyString => EmptyString
  | String c rest => if Ascii.eqb c "," then strip_commas rest else String c (strip_commas rest)
  end.

(** Whether [buildAlert] prints the USD line. *)
Definition priced (priceUsd : option number) : bool :=
  match priceUsd with
  | Some rate => negb (Float.falsy rate) && Float.ltb Float.zero rate
  | None => false
  end.

(** The README alert. *)
Definition readme_alert (priceUsd : option number) : AlertCandidate :=
  {| alert_hash := "0x1a2b3c4d5e6f00000000000000000000000000000000000000000000abc123";
     alert_blockNum := 18500000;
     alert_outputCKB := CKB 17500000;
     alert_inputCount := 3; alert_outputCount := 2;
     alert_outputs := [CKB 15000000; CKB 2500000];
     alert_priceUsd := priceUsd |}.

(** ** Telegram up or down *)

(** The scripted world with Telegram accepting ([true]) or refusing
    ([false]) every message. *)
Definition with_telegram (ok : bool) (w : Sim) : Sim :=
  {| sim_clock := sim_clock w; sim_feed := sim_feed w; sim_tip := sim_tip w;
     sim_block := sim_block w; sim_tx := sim_tx w;
     sim_telegram_ok := ok; sim_disk_ok := sim_disk_ok w;
     sim_file := sim_file w |}.

(** A line of the trace, with the outcome of a send replaced by [ok]. *)
Definition telegram_line (ok : bool) (e : event) : event :=
  match e with
  | EvTelegram _ => EvTelegram ok
  | _ => e
  end.

(** Two states that differ in the availability of Telegram and in the
    outcomes of the sends logged so far, and in nothing else. *)
Definition apart_from_telegram (ok : bool) (s s' : state Sim) : Prop :=
  ckbPriceUsd s' = ckbPriceUsd s /\ priceFetchedAt s' = priceFetchedAt s /\
  lastBlock s' = lastBlock s /\
  world s' = with_telegram ok (world s) /\
  console s' = map (telegram_line ok) (console s).

(** A computation that returns the same and keeps two such states such. *)
Definition telegram_blind {A} (ok : bool) (m : M Sim A) : Prop :=
  forall s s', apart_from_telegram ok s s' ->
    (m s').1 = (m s).1 /\ apart_from_telegram ok (m s).2 (m s').2.

(** The healthy node, without a state file and with a tip that is no
    number. *)
Definition bad_tip : Sim :=
  {| sim_clock := sim_clock healthy; sim_feed := sim_feed healthy;
     sim_tip := Normal "null"; sim_block := sim_block healthy;
     sim_tx := sim_tx healthy; sim_telegram_ok := true;
     sim_disk_ok := fun _ => true; sim_file := None |}.

(** A steady world whose node has every block and whose feed gives no
    rate: it is down, or answers with something that is no positive
    Number. *)
Definition feed_down (tipHex : string) (w : Sim) : Prop :=
  steady tipHex w /\ refreshed (sim_feed w) = None /\
  (forall n, exists b, sim_block w n = Normal (Some b)).

(** * Proofs *)

(** ** Tactics for the monad *)

Ltac unfold_monad :=
  unfold mbind, M_bind, mret, M_ret, bind, ret, try_catch, lift, get, call, log,
    set_price, set_lastBlock in *.

Ltac simpl_state :=
  cbn [fst snd ckbPriceUsd priceFetchedAt lastBlock world console] in *.

(** ** The model on sample inputs *)

Example parseInt_samples :
  parseInt "  42abc" 10 = Int 42 /\ parseInt "-7" 10 = Int (-7) /\
  parseInt "abc" 10 = NaN /\ parseInt "" 10 = NaN /\
  parseInt "0x1f" 16 = Int 31 /\ parseInt "0x" 16 = NaN /\
  parseInt "0x1f" 10 = Int 0 /\ parseInt "+" 10 = NaN /\
  String_of_num (Int 18500000) = "18500000"%string /\
  String_of_num (Int 0) = "0"%string /\ String_of_num (Int (-3)) = "-3"%string /\
  trim "  12 " = "12"%string.
Proof. repeat split; reflexivity. Qed.

Example whaleThresholdShannons_samples :
  WHALE_USD_THRESHOLD = S754_finite false 6871947673600000 (-35) /\
  whaleThresholdShannons None = Normal 1000000000000000 /\
  whaleThresholdShannons (Some price_0_01) = Normal (20000000 * 100000000) /\
  whaleThresholdShannons (Some price_0_02) = Normal (10000000 * 100000000) /\
  whaleThresholdShannons (Some price_0_003) = Normal (66666667 * 100000000) /\
  whaleThresholdShannons (Some (S754_infinity false)) = Normal 0 /\
  whaleThresholdShannons (Some S754_nan) = Normal 1000000000000000 /\
  whaleThresholdShannons (Some MIN_VALUE) = Throw (RangeError "not an integer").
Proof. repeat split; vm_compute; reflexivity. Qed.

(** The README scenario: block 1000 holds the reward transaction, a
    transfer of 17,500,000 CKB from [lockA] to [lockA] and [lockB], and the
    same amount moved from [lockA] to [lockA].  The first is alerted on, the
    second is filtered, the reward transaction is not looked at. *)
Example readme_scenario :
  let s := startup healthy in
  let new := new_events s (poll s).2 in
  heights_fetched new = [1000; 1001; 1002] /\
  alerts new =
    [ {| alert_hash := "0xwhale"; alert_blockNum := 1000;
         alert_outputCKB := CKB 17500000;
         alert_inputCount := 1; alert_outputCount := 2;
         alert_outputs := [CKB 15000000; CKB 2500000];
         alert_priceUsd := None |} ] /\
  EvSkip 1000 "0xself" (CKB 17500000) ∈ new /\
  saves new = [(Int 1000, true); (Int 1001, true); (Int 1002, true)] /\
  sim_file (world (poll s).2) = Some "1002"%string.
Proof.
  vm_compute. repeat split. apply list_elem_of_In. simpl. tauto.
Qed.

(** ** The monad *)

Section Frame.
Context {W : Type} {E : Env W}.
Implicit Types (s : state W) (P : event -> Prop).

Lemma logs_only_refl P s : logs_only P s s.
Proof. split; [done|]. exists []. by rewrite app_nil_r. Qed.

Lemma logs_only_trans P s1 s2 s3 :
  logs_only P s1 s2 -> logs_only P s2 s3 -> logs_only P s1 s3.
Proof.
  intros [H1 (e1 & Hc1 & F1)] [H2 (e2 & Hc2 & F2)]. split; [congruence|].
  exists (e1 ++ e2). rewrite Hc2, Hc1, app_assoc. split; [done|].
  by apply Forall_app.
Qed.

Lemma logs_only_weaken P Q s s' :
  (forall e, P e -> Q e) -> logs_only P s s' -> logs_only Q s s'.
Proof.
  intros HPQ [H1 (evs & Hc & F)]. split; [done|]. exists evs. split; [done|].
  eapply Forall_impl; eauto.
Qed.

Lemma quiet_ret {A} P (a : A) : quiet (W := W) P (ret a).
Proof. intros s. apply logs_only_refl. Qed.

Lemma quiet_lift {A} P (c : completion A) : quiet (W := W) P (lift c).
Proof. intros s. apply logs_only_refl. Qed.

Lemma quiet_get P : quiet P (get (W := W)).
Proof. intros s. apply logs_only_refl. Qed.

Lemma quiet_call {A} P (f : W -> completion A * W) : quiet P (call f).
Proof.
  intros s. unfold call. destruct (f (world s)) as [r w]. simpl.
  split; [done|]. exists []. by rewrite app_nil_r.
Qed.

Lemma quiet_log P ev : P ev -> quiet (W := W) P (log ev).
Proof.
  intros Hev s. split; [done|]. exists [ev]. simpl. split; [done|].
  by constructor.
Qed.

Lemma quiet_set_price P x now : quiet (W := W) P (set_price x now).
Proof. intros s. split; [done|]. exists []. simpl. by rewrite app_nil_r. Qed.

Lemma quiet_bind {A B} P (m : M W A) (k : A -> M W B) :
  quiet P m -> (forall a, quiet P (k a)) -> quiet P (m ≫= k).
Proof.
  intros Hm Hk s. unfold_monad. specialize (Hm s).
  destruct (m s) as [[a|e] s1]; simpl in *; [|done].
  eapply logs_only_trans; [exact Hm|]. apply Hk.
Qed.

Lemma quiet_try_catch {A} P (m : M W A) (h : exn -> M W A) :
  quiet P m -> (forall e, quiet P (h e)) -> quiet P (try_catch m h).
Proof.
  intros Hm Hh s. unfold try_catch. specialize (Hm s).
  destruct (m s) as [[a|e] s1]; simpl in *; [done|].
  eapply logs_only_trans; [exact Hm|]. apply Hh.
Qed.

Lemma quiet_Promise_all {A} P (ms : list (M W A)) :
  Forall (quiet P) ms -> quiet P (Promise_all ms).
Proof.
  induction 1 as [|m ms Hm _ IH]; [apply quiet_ret|].
  intros s. simpl. specialize (Hm s).
  destruct (m s) as [[a|e] s1]; simpl in *.
  - specialize (IH s1). destruct (Promise_all ms s1) as [[l|e] s2]; simpl in *;
      eapply logs_only_trans; eauto.
  - eapply logs_only_trans; [exact Hm|]. apply IH.
Qed.

End Frame.


(** ** The price cache *)

Section PriceCache.
Context {W : Type} {E : Env W}.
Implicit Types (s : state W).

Lemma fetchCkbPrice_quiet h : quiet (scan_event h) (fetchCkbPrice (W := W)).
Proof.
  unfold fetchCkbPrice, now_ms.
  apply quiet_bind; [apply quiet_call|]. intros now.
  apply quiet_bind; [apply quiet_get|]. intros s.
  destruct (_ && _); [apply quiet_ret|].
  apply quiet_bind.
  - apply quiet_try_catch.
    + apply quiet_bind; [by apply quiet_log|]. intros _.
      apply quiet_bind; [apply quiet_call|]. intros [|x| |]; try apply quiet_ret.
      destruct (Float.ltb _ _); [|apply quiet_ret].
      apply quiet_bind; [apply quiet_set_price|]. intros _. by apply quiet_log.
    + intros e. by apply quiet_log.
  - intros _. apply quiet_bind; [apply quiet_get|]. intros s'. apply quiet_ret.
Qed.

(** The first component of [fetchCkbPrice] is always a normal completion. *)
Lemma fetchCkbPrice_normal s : exists r s', fetchCkbPrice s = (Normal r, s').
Proof.
  unfold fetchCkbPrice, now_ms. unfold_monad.
  destruct (Date_now (world s)) as [now w1]. simpl.
  destruct (_ && _); [eauto|]. simpl.
  destruct (coingecko w1) as [[[|x| |]|e] w2]; simpl; eauto.
  destruct (Float.ltb _ _); simpl; eauto.
Qed.

(** C8.  [fetchCkbPrice] never raises.  While a rate is cached and
    [now - priceFetchedAt < PRICE_TTL_MS] it returns the cached rate and
    sends no request: only the clock was read.  Otherwise it sends exactly one
    request to the feed; when the feed answers with a positive Number, that
    Number replaces the rate, [now] replaces the timestamp, and it is
    returned; in every other case (rejection, malformed answer, rate <= 0)
    the rate and the timestamp stay as they were and the old rate is
    returned, which is [null] when none was ever fetched. *)
Theorem fetchCkbPrice_contract s :
  let now := (Date_now (world s)).1 in
  let w1 := (Date_now (world s)).2 in
  let r := (fetchCkbPrice s).1 in
  let s' := (fetchCkbPrice s).2 in
  (exists v, r = Normal v) /\
  lastBlock s' = lastBlock s /\
  (forall p, ckbPriceUsd s = Some p -> now - priceFetchedAt s < PRICE_TTL_MS ->
     r = Normal (Some p) /\ ckbPriceUsd s' = Some p /\
     priceFetchedAt s' = priceFetchedAt s /\ world s' = w1 /\
     console s' = console s) /\
  (ckbPriceUsd s = None \/ PRICE_TTL_MS <= now - priceFetchedAt s ->
     world s' = (coingecko w1).2 /\
     (exists evs, console s' = console s ++ EvPriceRequest :: evs /\
                  EvPriceRequest ∉ evs) /\
     match refreshed (coingecko w1).1 with
     | Some x =>
         r = Normal (Some x) /\ ckbPriceUsd s' = Some x /\ priceFetchedAt s' = now
     | None =>
         r = Normal (ckbPriceUsd s) /\ ckbPriceUsd s' = ckbPriceUsd s /\
         priceFetchedAt s' = priceFetchedAt s
     end).
Proof.
  unfold fetchCkbPrice, now_ms. unfold_monad.
  destruct (Date_now (world s)) as [now w1]. simpl_state.
  destruct (bool_decide (ckbPriceUsd s ≠ None) && (now - priceFetchedAt s <? PRICE_TTL_MS))
    eqn:Hfresh; simpl_state.
  - apply andb_true_iff in Hfresh as [Hsome Hlt].
    apply bool_decide_eq_true in Hsome. apply Z.ltb_lt in Hlt.
    split; [eauto|]. split; [done|]. split.
    + intros p Hp _. simpl. by rewrite Hp.
    + intros [Hnone|Hstale]; [done|lia].
  - assert (Hstale : ckbPriceUsd s = None \/ PRICE_TTL_MS <= now - priceFetchedAt s).
    { apply andb_false_iff in Hfresh as [Hn|Hn].
      - left. apply bool_decide_eq_false in Hn. by destruct (ckbPriceUsd s); [destruct Hn|].
      - right. apply Z.ltb_ge in Hn. lia. }
    assert (Hfr : forall p, ckbPriceUsd s = Some p ->
                    now - priceFetchedAt s < PRICE_TTL_MS -> False).
    { intros p Hp Hlt. destruct Hstale as [Hn|Hn]; [congruence|lia]. }
    split; [destruct (coingecko w1) as [[[|x| |]|e] w2]; simpl_state; eauto;
            destruct (Float.ltb Float.zero x); simpl_state; eauto|].
    split; [destruct (coingecko w1) as [[[|x| |]|e] w2]; simpl_state; eauto;
            destruct (Float.ltb Float.zero x); simpl_state; eauto|].
    split; [intros p Hp Hlt; destruct (Hfr p Hp Hlt)|]. intros _.
    destruct (coingecko w1) as [[[|x| |]|e] w2]; unfold refreshed; simpl_state.
    + split; [done|]. split; [|done]. exists []. split; [done|]. apply not_elem_of_nil.
    + destruct (Float.ltb Float.zero x); simpl_state.
      * split; [done|]. split; [|done].
        exists [EvPrice x]. split; [by rewrite <- app_assoc|].
        intros Hin. apply list_elem_of_singleton in Hin. discriminate.
      * split; [done|]. split; [|done]. exists []. split; [done|]. apply not_elem_of_nil.
    + split; [done|]. split; [|done]. exists []. split; [done|]. apply not_elem_of_nil.
    + split; [done|]. split; [|done]. exists []. split; [done|]. apply not_elem_of_nil.
    + split; [done|]. split; [|done].
      exists [EvPriceFailed e]. split; [by rewrite <- app_assoc|].
      intros Hin. apply list_elem_of_singleton in Hin. discriminate.
Qed.

End PriceCache.

(** ** The self-transfer classifier *)

Section Classifier.
Context {W : Type} {E : Env W}.
Implicit Types (s : state W) (tx : Transaction).

(** The set [collect_locks] builds holds the serialised lock of the output
    each input spends, for the inputs whose lookup returned data. *)
Lemma elem_of_collect_locks ins results (acc : gset string) l :
  l ∈ collect_locks ins results acc <->
  l ∈ acc \/
  exists j inp res lk,
    ins !! j = Some inp /\ results !! j = Some (Some res) /\
    prev_lock res (parseInt (index (previous_output inp)) 16) = Some lk /\
    l = JSON_stringify lk.
Proof.
  revert results acc. induction ins as [|inp ins IH]; intros results acc.
  - simpl. split; [by left|]. intros [H|(j & i' & ? & ? & H & _)]; [done|].
    by rewrite lookup_nil in H.
  - destruct results as [|res results].
    + simpl. split; [by left|]. intros [H|(j & i' & ? & ? & _ & H & _)]; [done|].
      by rewrite lookup_nil in H.
    + simpl. rewrite IH. split.
      * intros [Hacc|(j & i' & r & lk & H1 & H2 & H3 & H4)].
        -- destruct res as [r|]; [|by left].
           destruct (prev_lock r _) as [lk|] eqn:Hlk; [|by left].
           apply elem_of_union in Hacc as [Hacc|Hacc]; [by left|].
           apply elem_of_singleton in Hacc. right.
           exists 0%nat, inp, r, lk. by simpl.
        -- right. exists (S j), i', r, lk. by simpl.
      * intros [Hacc|(j & i' & r & lk & H1 & H2 & H3 & H4)].
        -- left. destruct res as [r|]; [|done].
           destruct (prev_lock r _); [|done]. apply elem_of_union. by left.
        -- destruct j as [|j]; simpl in H1, H2.
           ++ left. injection H1 as ->. injection H2 as ->. rewrite H3.
              apply elem_of_union. right. by apply elem_of_singleton.
           ++ right. exists j, i', r, lk. done.
Qed.

Lemma isSelfTransfer_quiet h tx : quiet (scan_event h) (isSelfTransfer (W := W) tx).
Proof.
  unfold isSelfTransfer. apply quiet_try_catch.
  - apply quiet_bind.
    + apply quiet_Promise_all. apply Forall_forall. intros m Hm.
      apply list_elem_of_In, in_map_iff in Hm as (inp & <- & _). apply quiet_call.
    + intros results. destruct (bool_decide _); apply quiet_ret.
  - intros e. apply quiet_bind; [by apply quiet_log|]. intros _. apply quiet_ret.
Qed.

(** The classifier always returns: no error leaves it. *)
Lemma isSelfTransfer_normal tx s : exists b s', isSelfTransfer tx s = (Normal b, s').
Proof.
  unfold isSelfTransfer. unfold_monad.
  destruct (Promise_all _ s) as [[results|e] s1]; simpl; [|eauto].
  destruct (bool_decide _); eauto.
Qed.


End Classifier.

(** ** The block scanner *)

Section Scanner.
Context {W : Type} {E : Env W}.
Implicit Types (s : state W) (tx : Transaction).

(** [reduce((a, b) => a + b, 0n)] computes the sum. *)
Lemma reduce_add_sum (l : list Z) : fold_left Z.add l 0 = foldr Z.add 0 l.
Proof. apply fold_symmetric; intros; lia. Qed.

Lemma alerts_app evs1 evs2 : alerts (evs1 ++ evs2) = alerts evs1 ++ alerts evs2.
Proof. apply omap_app. Qed.

(** The events of the classifier and of the price cache are no alerts. *)
Lemma scanTx_quiet blockNum priceUsd threshold tx :
  quiet (scan_event blockNum) (scanTx (W := W) blockNum priceUsd threshold tx).
Proof.
  unfold scanTx. destruct (_ <? _); [apply quiet_ret|].
  apply quiet_bind; [apply isSelfTransfer_quiet|]. intros [|].
  - by apply quiet_log.
  - apply quiet_bind; [by apply quiet_log|]. intros _.
    apply quiet_try_catch.
    + apply quiet_bind; [apply quiet_call|]. intros _. by apply quiet_log.
    + intros _. by apply quiet_log.
Qed.

Lemma isSelfTransfer_no_alert tx s :
  exists evs, console (isSelfTransfer tx s).2 = console s ++ evs /\ alerts evs = [].
Proof.
  unfold isSelfTransfer. unfold_monad.
  assert (HP : quiet (fun _ => False)
                 (Promise_all (W := W)
                    (map (fun inp => call (get_transaction (tx_hash (previous_output inp))))
                         (inputs tx)))).
  { apply quiet_Promise_all. apply Forall_forall. intros m Hm.
    apply list_elem_of_In, in_map_iff in Hm as (inp & <- & _). apply quiet_call. }
  destruct (HP s) as [_ (evs & Hc & HF)].
  assert (evs = []) as -> by (destruct evs; [done|by inversion HF]).
  rewrite app_nil_r in Hc.
  destruct (Promise_all _ s) as [[results|e] s1]; simpl in *.
  - exists []. rewrite app_nil_r. split; [|done]. by destruct (bool_decide _).
  - exists [EvFilterFailed (hash tx) e]. by rewrite Hc.
Qed.

(** What the scan of one transaction logs. *)
Lemma scanTx_alert blockNum priceUsd threshold tx s :
  exists evs s',
    scanTx blockNum priceUsd threshold tx s = (Normal tt, s') /\
    console s' = console s ++ evs /\
    (threshold <= sum_values tx /\ (isSelfTransfer tx s).1 = Normal false ->
     exists a, alerts evs = [a] /\ alert_hash a = hash tx /\
               alert_blockNum a = blockNum /\ alert_outputCKB a = sum_values tx /\
               alert_priceUsd a = priceUsd) /\
    (~ (threshold <= sum_values tx /\ (isSelfTransfer tx s).1 = Normal false) ->
     alerts evs = []).
Proof.
  unfold scanTx, sum_values. rewrite reduce_add_sum.
  set (total := foldr Z.add 0 (map capacity (outputs tx))).
  destruct (total <? threshold) eqn:Hlt.
  - apply Z.ltb_lt in Hlt. exists [], s. rewrite app_nil_r.
    split; [done|]. split; [done|]. split; [lia|done].
  - apply Z.ltb_ge in Hlt.
    destruct (isSelfTransfer_normal tx s) as (b & s1 & Hself).
    destruct (isSelfTransfer_no_alert tx s) as (evs1 & Hc1 & Ha1).
    rewrite Hself in Hc1. simpl in Hc1.
    unfold_monad. rewrite Hself. destruct b.
    + eexists _, _. split; [reflexivity|]. simpl. rewrite Hc1, <- app_assoc.
      split; [reflexivity|]. rewrite alerts_app, Ha1. simpl.
      split; [intros [_ ?]; discriminate|done].
    + simpl. destruct (telegram _ (world s1)) as [[[]|e] w2]; simpl.
      * eexists _, _. split; [reflexivity|]. simpl. rewrite Hc1, <- !app_assoc.
        split; [reflexivity|]. rewrite alerts_app, Ha1. simpl.
        split; [intros _; eexists; split; [reflexivity|done]|].
        intros Hn. destruct Hn. split; [lia|done].
      * eexists _, _. split; [reflexivity|]. simpl. rewrite Hc1, <- !app_assoc.
        split; [reflexivity|]. rewrite alerts_app, Ha1. simpl.
        split; [intros _; eexists; split; [reflexivity|done]|].
        intros Hn. destruct Hn. split; [lia|done].
Qed.

(** The loop over the indices is the scan of the transactions from index 1
    onward, as long as the fuel covers the block. *)
Lemma scan_loop_drop blockNum priceUsd threshold txs fuel i :
  (length txs <= fuel + i)%nat ->
  scan_loop blockNum priceUsd threshold txs fuel i =
  scan_each blockNum priceUsd threshold (drop i txs).
Proof.
  revert i. induction fuel as [|fuel IH]; intros i Hlen; simpl.
  - rewrite drop_ge by lia. done.
  - destruct (txs !! i) as [tx|] eqn:Hi.
    + rewrite (drop_S _ _ _ Hi). simpl. rewrite IH by lia. done.
    + apply lookup_ge_None in Hi. rewrite drop_ge by lia. done.
Qed.

Lemma scan_each_quiet blockNum priceUsd threshold txs :
  quiet (scan_event blockNum) (scan_each (W := W) blockNum priceUsd threshold txs).
Proof.
  induction txs as [|tx txs IH]; simpl; [apply quiet_ret|].
  apply quiet_bind; [apply scanTx_quiet|]. intros _. apply IH.
Qed.

Lemma scan_each_normal blockNum priceUsd threshold txs s :
  exists s', scan_each blockNum priceUsd threshold txs s = (Normal tt, s').
Proof.
  revert s. induction txs as [|tx txs IH]; intros s; simpl; [by eexists|].
  destruct (scanTx_alert blockNum priceUsd threshold tx s) as (evs & s1 & H1 & _).
  unfold_monad. rewrite H1. apply IH.
Qed.

(** The trace of [processBlock n]: the request for block [n], then events of
    its scan; [lastBlock] is not touched. *)
Lemma processBlock_trace n s :
  lastBlock (processBlock n s).2 = lastBlock s /\
  exists evs, console (processBlock n s).2 = console s ++ EvGetBlock n :: evs /\
              Forall (scan_event n) evs.
Proof.
  assert (Hq : quiet (scan_event n)
    (fun s1 : state W =>
       (block ← call (get_block_by_number n);
        match block with
        | None => ret tt
        | Some block =>
            let txs := transactions block in
            priceUsd ← fetchCkbPrice;
            threshold ← lift (whaleThresholdShannons priceUsd);
            scan_loop n priceUsd threshold txs (length txs) 1
        end) s1)).
  { apply quiet_bind; [apply quiet_call|]. intros [block|]; [|apply quiet_ret].
    apply quiet_bind; [apply fetchCkbPrice_quiet|]. intros p.
    apply quiet_bind; [apply quiet_lift|]. intros th.
    rewrite scan_loop_drop by lia. apply scan_each_quiet. }
  unfold processBlock.
  set (rest := fun block : option Block => _) in *.
  destruct (Hq (log (EvGetBlock n) s).2) as [Hl (evs & Hc & HF)].
  unfold_monad. simpl in *. 
  destruct (get_block_by_number n (world s)) as [[block|e] w1]; simpl in *.
  - split; [done|]. exists evs. rewrite Hc, <- app_assoc. done.
  - split; [done|]. exists evs. rewrite Hc, <- app_assoc. done.
Qed.

(** C1.  What [processBlock] does with a fetched block: it takes the price
    from the cache once, turns it into the threshold, and scans the
    transactions from index 1 onward, in order (when the threshold cannot be
    computed the exception leaves [processBlock] and nothing is scanned).
    The transaction at index 0 plays no part: replacing it changes nothing.
    For each scanned transaction the total is the sum of its output values,
    and the WHALE line with the candidate is logged exactly when the total
    reaches the threshold and the classifier, asked then, answers [false].
    No alert is logged for a block that could not be fetched. *)
Theorem processBlock_alerts blockNum s :
  (let s0 := (log (EvGetBlock blockNum) s).2 in
   match call (get_block_by_number blockNum) s0 with
   | (Throw e, s1) => processBlock blockNum s = (Throw e, s1)
   | (Normal None, s1) => processBlock blockNum s = (Normal tt, s1)
   | (Normal (Some block), s1) =>
       exists priceUsd s2,
         fetchCkbPrice s1 = (Normal priceUsd, s2) /\
         match whaleThresholdShannons priceUsd with
         | Throw e => processBlock blockNum s = (Throw e, s2)
         | Normal threshold =>
             processBlock blockNum s =
             scan_each blockNum priceUsd threshold (drop 1 (transactions block)) s2
         end
   end) /\
  (forall priceUsd threshold tx0 tx0' rest,
     scan_loop (W := W) blockNum priceUsd threshold (tx0 :: rest) (length (tx0 :: rest)) 1 =
     scan_loop blockNum priceUsd threshold (tx0' :: rest) (length (tx0' :: rest)) 1) /\
  (forall priceUsd threshold tx s1,
     exists evs s2,
       scanTx blockNum priceUsd threshold tx s1 = (Normal tt, s2) /\
       console s2 = console s1 ++ evs /\
       (threshold <= sum_values tx /\ (isSelfTransfer tx s1).1 = Normal false ->
        exists a, alerts evs = [a] /\ alert_hash a = hash tx /\
                  alert_blockNum a = blockNum /\
                  alert_outputCKB a = sum_values tx /\
                  alert_priceUsd a = priceUsd) /\
       (~ (threshold <= sum_values tx /\ (isSelfTransfer tx s1).1 = Normal false) ->
        alerts evs = [])).
Proof.
  split; [|split].
  - unfold processBlock. unfold_monad. simpl.
    destruct (get_block_by_number blockNum (world s)) as [[[block|]|e] w1]; simpl;
      [|done|done].
    set (s1 := {| ckbPriceUsd := _ |}).
    destruct (fetchCkbPrice_normal s1) as (p & s2 & Hp). exists p, s2.
    split; [done|]. rewrite Hp.
    destruct (whaleThresholdShannons p) as [th|e]; [|done].
    rewrite scan_loop_drop by lia. done.
  - intros. rewrite !scan_loop_drop by (simpl; lia). done.
  - intros. apply scanTx_alert.
Qed.

End Scanner.

(** ** The poll driver *)

Section Driver.
Context {W : Type} {E : Env W}.
Implicit Types (s : state W).

Lemma saveLastBlock_spec n s :
  lastBlock (saveLastBlock n s).2 = lastBlock s /\
  ((saveLastBlock n s).1 = Normal tt /\
   console (saveLastBlock n s).2 = console s ++ [EvSave n true] \/
   exists e, (saveLastBlock n s).1 = Throw e /\
             console (saveLastBlock n s).2 = console s ++ [EvSave n false]).
Proof.
  unfold saveLastBlock. unfold_monad.
  destruct (writeFileSync (String_of_num n) (world s)) as [[[]|e] w1]; simpl.
  - split; [done|]. by left.
  - split; [done|]. right. by exists e.
Qed.

Lemma completed_snoc hs h done scan :
  completed hs done -> Forall (scan_event h) scan ->
  completed (hs ++ [h]) (done ++ EvGetBlock h :: scan ++ [EvSave (Int h) true]).
Proof.
  induction 1 as [|h0 hs0 evs rest HF Hc IH]; intros Hs; simpl.
  - apply (completed_cons h [] scan []); [done|constructor].
  - rewrite <- app_assoc. simpl. constructor; [done|]. by apply IH.
Qed.

(** The batch: by induction on the number of heights left. *)
Lemma catch_up_outcome count n s :
  lastBlock s = Some (Int (n - 1)) ->
  exists o evs,
    console (catch_up count n s).2 = console s ++ evs /\
    batch_trace n count o evs /\
    batch_result n count o (catch_up count n s).1 (lastBlock (catch_up count n s).2).
Proof.
  revert n s. induction count as [|count IH]; intros n s Hlast.
  - exists AllDone, []. simpl. rewrite app_nil_r.
    split; [done|]. split; [constructor|]. split; [done|]. rewrite Hlast.
    do 2 f_equal. lia.
  - cbn [catch_up]. unfold mbind, M_bind, bind.
    destruct (processBlock_trace n s) as [Hl1 (scan & Hc1 & HF1)].
    destruct (processBlock n s) as [[[]|e] s1]; simpl in Hl1, Hc1.
    + unfold set_lastBlock.
      match goal with |- context [saveLastBlock (Int n) ?x] => set (s1' := x) end.
      destruct (saveLastBlock_spec (Int n) s1')
        as [Hl2 [[Hr2 Hc2]|(e & Hr2 & Hc2)]].
      * destruct (saveLastBlock (Int n) s1') as [r2 s2].
        simpl in Hl2, Hr2, Hc2. subst r2.
        destruct (IH (n + 1) s2) as (o & evs & Hc3 & Ht3 & Hr3).
        { rewrite Hl2. do 2 f_equal. lia. }
        exists o, (EvGetBlock n :: scan ++ EvSave (Int n) true :: evs).
        split.
        { rewrite Hc3, Hc2, Hc1. simplify_list_eq. done. }
        destruct o as [|h e|h e]; simpl in *.
        -- split.
           ++ rewrite seqZ_cons by lia. constructor; [done|].
              replace (Z.succ n) with (n + 1) by lia.
              replace (Z.pred (Z.of_nat (S count))) with (Z.of_nat count) by lia. done.
           ++ destruct Hr3 as [-> ->]. split; [done|]. do 2 f_equal. lia.
        -- destruct Ht3 as [Hh (done & sc & Hd & Hs & ->)]. split; [|done].
           split; [lia|]. exists (EvGetBlock n :: scan ++ EvSave (Int n) true :: done), sc.
           split; [|split; [done|]].
           ++ rewrite (seqZ_cons n) by lia. constructor; [done|].
              replace (Z.succ n) with (n + 1) by lia.
              replace (Z.pred (h - n)) with (h - (n + 1)) by lia. done.
           ++ simpl. by rewrite <- app_assoc.
        -- destruct Ht3 as [Hh (done & sc & Hd & Hs & ->)]. split; [|done].
           split; [lia|]. exists (EvGetBlock n :: scan ++ EvSave (Int n) true :: done), sc.
           split; [|split; [done|]].
           ++ rewrite (seqZ_cons n) by lia. constructor; [done|].
              replace (Z.succ n) with (n + 1) by lia.
              replace (Z.pred (h - n)) with (h - (n + 1)) by lia. done.
           ++ simpl. by rewrite <- app_assoc.
      * destruct (saveLastBlock (Int n) s1') as [r2 s2].
        simpl in Hl2, Hr2, Hc2. subst r2. simpl.
        exists (SaveFailed n e), (EvGetBlock n :: scan ++ [EvSave (Int n) false]).
        split; [rewrite Hc2, Hc1; by rewrite <- app_assoc|].
        split; [|done]. split; [lia|]. exists [], scan.
        rewrite Z.sub_diag. split; [constructor|done].
    + exists (ScanFailed n e), (EvGetBlock n :: scan). simpl.
      split; [done|]. split; [|by rewrite Hl1, Hlast].
      split; [lia|]. exists [], scan. rewrite Z.sub_diag. split; [constructor|done].
Qed.

(** *** Reading heights and saves off a trace *)

Lemma elem_of_heights_fetched h evs : EvGetBlock h ∈ evs <-> h ∈ heights_fetched evs.
Proof.
  unfold heights_fetched. rewrite list_elem_of_omap. split.
  - intros H. by exists (EvGetBlock h).
  - intros (e & He & Heq). destruct e; try discriminate. by injection Heq as ->.
Qed.

Lemma elem_of_saves n ok evs : EvSave n ok ∈ evs <-> (n, ok) ∈ saves evs.
Proof.
  unfold saves. rewrite list_elem_of_omap. split.
  - intros H. by exists (EvSave n ok).
  - intros (e & He & Heq). destruct e; try discriminate. by injection Heq as -> ->.
Qed.

Lemma heights_fetched_app evs1 evs2 :
  heights_fetched (evs1 ++ evs2) = heights_fetched evs1 ++ heights_fetched evs2.
Proof. apply omap_app. Qed.

Lemma saves_app evs1 evs2 : saves (evs1 ++ evs2) = saves evs1 ++ saves evs2.
Proof. apply omap_app. Qed.

Lemma scan_events_silent h evs :
  Forall (scan_event h) evs -> heights_fetched evs = [] /\ saves evs = [].
Proof.
  induction 1 as [|e evs He _ [IH1 IH2]]; [done|].
  destruct e; simpl in He; try done; simpl; by rewrite ?IH1, ?IH2.
Qed.

Lemma completed_projections hs done :
  completed hs done ->
  heights_fetched done = hs /\ saves done = map (fun h => (Int h, true)) hs.
Proof.
  induction 1 as [|h hs evs rest HF _ [IH1 IH2]]; [done|].
  destruct (scan_events_silent h evs HF) as [H1 H2].
  change (EvGetBlock h :: evs ++ EvSave (Int h) true :: rest)
    with ([EvGetBlock h] ++ evs ++ [EvSave (Int h) true] ++ rest).
  rewrite !heights_fetched_app, !saves_app, H1, H2, IH1, IH2. done.
Qed.

Lemma epilogue_silent o toProcess tip :
  heights_fetched (batch_epilogue o toProcess tip) = [] /\
  saves (batch_epilogue o toProcess tip) = [].
Proof. destruct o; simpl; [by destruct (_ <? _)|done|done]. Qed.

Lemma batch_trace_heights from count o evs :
  batch_trace from count o evs ->
  heights_fetched evs = seqZ from (fetched_count from count o) /\
  0 <= fetched_count from count o <= Z.of_nat count.
Proof.
  destruct o as [|h e|h e]; simpl.
  - intros H. apply completed_projections in H as [H _]. split; [done|lia].
  - intros [Hh (done & scan & Hd & Hs & ->)].
    apply completed_projections in Hd as [Hd _].
    apply scan_events_silent in Hs as [Hs _].
    change (EvGetBlock h :: scan) with ([EvGetBlock h] ++ scan).
    rewrite !heights_fetched_app, Hd, Hs. simpl. split; [|lia].
    rewrite seqZ_app by lia. simpl. f_equal.
    rewrite seqZ_cons, seqZ_nil by lia. f_equal. lia.
  - intros [Hh (done & scan & Hd & Hs & ->)].
    apply completed_projections in Hd as [Hd _].
    apply scan_events_silent in Hs as [Hs _].
    change (EvGetBlock h :: scan ++ [EvSave (Int h) false])
      with ([EvGetBlock h] ++ scan ++ [EvSave (Int h) false]).
    rewrite !heights_fetched_app, Hd, Hs. simpl. split; [|lia].
    rewrite seqZ_app by lia. simpl. f_equal.
    rewrite seqZ_cons, seqZ_nil by lia. f_equal. lia.
Qed.

Lemma batch_trace_saves from count o evs :
  batch_trace from count o evs ->
  saves evs =
  match o with
  | AllDone => map (fun h => (Int h, true)) (seqZ from (Z.of_nat count))
  | ScanFailed h _ => map (fun h => (Int h, true)) (seqZ from (h - from))
  | SaveFailed h _ =>
      map (fun h => (Int h, true)) (seqZ from (h - from)) ++ [(Int h, false)]
  end.
Proof.
  destruct o as [|h e|h e]; simpl.
  - intros H. by apply completed_projections in H as [_ H].
  - intros [Hh (done & scan & Hd & Hs & ->)].
    apply completed_projections in Hd as [_ Hd].
    apply scan_events_silent in Hs as [_ Hs].
    change (EvGetBlock h :: scan) with ([EvGetBlock h] ++ scan).
    rewrite !saves_app, Hd, Hs. simpl. by rewrite app_nil_r.
  - intros [Hh (done & scan & Hd & Hs & ->)].
    apply completed_projections in Hd as [_ Hd].
    apply scan_events_silent in Hs as [_ Hs].
    change (EvGetBlock h :: scan ++ [EvSave (Int h) false])
      with ([EvGetBlock h] ++ scan ++ [EvSave (Int h) false]).
    rewrite !saves_app, Hd, Hs. done.
Qed.

(** *** One cycle *)

(** A catch-up cycle: the pointer is [p], the node answers with a tip
    [t > p].  [poll] runs the batch over [p + 1 .. min(t, p + 50)], logs the
    epilogue and returns. *)
Lemma poll_cycle s p tipHex t :
  lastBlock s = Some (Int p) ->
  (get_tip_block_number (world s)).1 = Normal tipHex ->
  parseInt tipHex 16 = Int t ->
  p < t ->
  let toProcess := Z.min t (p + 50) in
  let count := Z.to_nat (toProcess - p) in
  exists o evs r,
    (poll s).1 = Normal tt /\
    console (poll s).2 = console s ++ evs ++ batch_epilogue o toProcess t /\
    batch_trace (p + 1) count o evs /\
    batch_result (p + 1) count o r (lastBlock (poll s).2).
Proof.
  intros Hlast Htip Hparse Hlt toProcess count. unfold poll. unfold_monad.
  destruct (get_tip_block_number (world s)) as [rt w1]. simpl in Htip. subst rt.
  simpl_state. rewrite Hlast, Hparse. simpl.
  destruct (t <=? p) eqn:Hle; [apply Z.leb_le in Hle; lia|].
  fold toProcess. replace (toProcess + 1 - (p + 1)) with (toProcess - p) by lia.
  fold count.
  set (s1 := {| ckbPriceUsd := _ |}).
  destruct (catch_up_outcome count (p + 1) s1) as (o & evs & Hc & Ht & Hr).
  { subst s1. simpl. do 2 f_equal. lia. }
  destruct (catch_up count (p + 1) s1) as [r s2]. simpl in Hc, Hr.
  exists o, evs, r. destruct o as [|h e|h e]; simpl in Hr; destruct Hr as [-> Hr].
  - simpl. destruct (toProcess <? t); simpl; rewrite ?Hc, ?app_nil_r, <- ?app_assoc;
      (split; [done|]; split; [done|]; split; [exact Ht|done]).
  - simpl. rewrite Hc, <- app_assoc.
    split; [done|]. split; [done|]. split; [exact Ht|done].
  - simpl. rewrite Hc, <- app_assoc.
    split; [done|]. split; [done|]. split; [exact Ht|done].
Qed.

Lemma new_events_app s s' evs :
  console s' = console s ++ evs -> new_events s s' = evs.
Proof. intros H. unfold new_events. rewrite H. apply drop_app_length. Qed.

Lemma completed_start a k done :
  completed (seqZ a k) done ->
  (0 < k -> exists rest, done = EvGetBlock a :: rest) /\ (k <= 0 -> done = []).
Proof.
  intros H. split; intros Hk.
  - rewrite seqZ_cons in H by lia. inversion H; subst. eauto.
  - rewrite seqZ_nil in H by lia. by inversion H.
Qed.

(** A cycle with work to do starts by fetching the height after the
    pointer. *)
Lemma poll_resumes s q tipHex t :
  lastBlock s = Some (Int q) ->
  (get_tip_block_number (world s)).1 = Normal tipHex ->
  parseInt tipHex 16 = Int t ->
  q < t ->
  exists rest, new_events s (poll s).2 = EvGetBlock (q + 1) :: rest.
Proof.
  intros Hlast Htip Hparse Hlt.
  destruct (poll_cycle s q tipHex t Hlast Htip Hparse Hlt)
    as (o & evs & r & _ & Hc & Ht & _).
  rewrite (new_events_app _ _ _ Hc).
  destruct o as [|h e|h e]; simpl in Ht.
  - apply completed_start in Ht as [Ht _]. destruct Ht as [rest ->]; [lia|].
    eauto.
  - destruct Ht as [Hh (done & scan & Hd & _ & ->)].
    apply completed_start in Hd as [Hd1 Hd2].
    destruct (decide (h = q + 1)) as [->|Hne].
    + rewrite Hd2 by lia. simpl. eauto.
    + destruct Hd1 as [rest ->]; [lia|]. simpl. eauto.
  - destruct Ht as [Hh (done & scan & Hd & _ & ->)].
    apply completed_start in Hd as [Hd1 Hd2].
    destruct (decide (h = q + 1)) as [->|Hne].
    + rewrite Hd2 by lia. simpl. eauto.
    + destruct Hd1 as [rest ->]; [lia|]. simpl. eauto.
Qed.

Lemma pointer_le_refl a : pointer_le a a.
Proof. destruct a as [[|x]|]; simpl; [done|lia|done]. Qed.

Lemma pointer_le_trans a b c : pointer_le a b -> pointer_le b c -> pointer_le a c.
Proof.
  destruct a as [[|x]|], b as [[|y]|], c as [[|z]|]; simpl; try done. lia.
Qed.

(** One cycle never moves the pointer back. *)
Lemma poll_pointer_le s : pointer_le (lastBlock s) (lastBlock (poll s).2).
Proof.
  destruct (get_tip_block_number (world s)) as [rt w1] eqn:Htip.
  destruct rt as [tipHex|e].
  - destruct (lastBlock s) as [[|p]|] eqn:Hlast; [| |done].
    + unfold poll. unfold_monad. rewrite Htip. simpl_state. rewrite Hlast.
      simpl. by destruct (parseInt tipHex 16).
    + destruct (parseInt tipHex 16) as [|t] eqn:Hparse.
      * unfold poll. unfold_monad. rewrite Htip. simpl_state.
        rewrite Hlast, Hparse. simpl. lia.
      * destruct (decide (p < t)) as [Hlt|Hge].
        -- destruct (poll_cycle s p tipHex t) as (o & evs & r & _ & _ & Ht & Hr);
             [done|by rewrite Htip|done|done|].
           destruct o as [|h e|h e]; simpl in Ht, Hr; destruct Hr as [_ ->]; simpl; lia.
        -- unfold poll. unfold_monad. rewrite Htip. simpl_state.
           rewrite Hlast, Hparse. simpl.
           destruct (t <=? p) eqn:Hle; [|apply Z.leb_gt in Hle; lia].
           simpl. lia.
  - unfold poll. unfold_monad. rewrite Htip. simpl. apply pointer_le_refl.
Qed.




(** C9 (amended).  When in a catch-up cycle the save of a height [h]
    fails, the cycle ends there: [h] is the last height fetched, and the
    saves that succeeded are those of the heights before [h].  The pointer in
    memory was advanced before the write, so it is [h] and not the last
    height saved, and the next cycle that sees a tip above [h] resumes at
    [h + 1]. *)
Theorem poll_save_failure s p tipHex t h :
  lastBlock s = Some (Int p) ->
  (get_tip_block_number (world s)).1 = Normal tipHex ->
  parseInt tipHex 16 = Int t ->
  p < t ->
  let s' := (poll s).2 in
  EvSave (Int h) false ∈ new_events s s' ->
  heights_fetched (new_events s s') = seqZ (p + 1) (h - p) /\
  saves (new_events s s') =
    map (fun h' => (Int h', true)) (seqZ (p + 1) (h - p - 1)) ++ [(Int h, false)] /\
  lastBlock s' = Some (Int h) /\
  forall tipHex' t',
    (get_tip_block_number (world s')).1 = Normal tipHex' ->
    parseInt tipHex' 16 = Int t' ->
    h < t' ->
    exists rest, new_events s' (poll s').2 = EvGetBlock (h + 1) :: rest.
Proof.
  intros Hlast Htip Hparse Hlt s' Hfail.
  destruct (poll_cycle s p tipHex t Hlast Htip Hparse Hlt)
    as (o & evs & r & _ & Hc & Ht & Hr).
  fold s' in Hc, Hr. rewrite (new_events_app _ _ _ Hc) in *.
  set (toProcess := Z.min t (p + 50)) in *.
  set (count := Z.to_nat (toProcess - p)) in *.
  destruct (batch_trace_heights _ _ _ _ Ht) as [Hh Hcount].
  pose proof (batch_trace_saves _ _ _ _ Ht) as Hs.
  destruct (epilogue_silent o toProcess t) as [He1 He2].
  apply elem_of_saves in Hfail. rewrite saves_app, He2, app_nil_r, Hs in Hfail.
  assert (Hno : forall l, (Int h, false) ∉ map (fun h' => (Int h', true)) l).
  { intros l Hin. apply list_elem_of_In, in_map_iff in Hin as (x & Hx & _). discriminate. }
  assert (Ho : exists e, o = SaveFailed h e).
  { destruct o as [|h0 e|h0 e].
    - by apply Hno in Hfail.
    - by apply Hno in Hfail.
    - apply elem_of_app in Hfail as [Hfail|Hfail]; [by apply Hno in Hfail|].
      apply list_elem_of_singleton in Hfail. injection Hfail as ->. eauto. }
  destruct Ho as [e ->]. simpl in Hh, Hs, Hr, Ht. destruct Hr as [_ Hr].
  destruct Ht as [Hrange _].
  split; [|split; [|split; [done|]]].
  - rewrite heights_fetched_app, He1, app_nil_r, Hh. f_equal. lia.
  - rewrite saves_app, He2, app_nil_r, Hs. do 3 f_equal. lia.
  - intros tipHex' t' Htip' Hparse' Hlt'.
    apply (poll_resumes s' h tipHex' t' Hr Htip' Hparse' Hlt').
Qed.

End Driver.

(** ** The driver on the scenarios *)





(** The save of 1001 fails: 1000 was saved, the pointer is 1001. *)
Lemma poll_save_failure_witness :
  let s := startup save_1001_fails in
  let s' := (poll s).2 in
  heights_fetched (new_events s s') = seqZ (999 + 1) (1001 - 999) /\
  saves (new_events s s') =
    map (fun h' => (Int h', true)) (seqZ (999 + 1) (1001 - 999 - 1)) ++
    [(Int 1001, false)] /\
  lastBlock s' = Some (Int 1001) /\
  forall tipHex' t',
    (get_tip_block_number (world s')).1 = Normal tipHex' ->
    parseInt tipHex' 16 = Int t' ->
    1001 < t' ->
    exists rest, new_events s' (poll s').2 = EvGetBlock (1001 + 1) :: rest.
Proof.
  apply (poll_save_failure (startup save_1001_fails) 999 "0x3ea" 1002 1001);
    [reflexivity|reflexivity|reflexivity|lia|].
  vm_compute. apply list_elem_of_In. simpl. tauto.
Defined.

(** C9 as stated fails: after the failed save of 1001 the last height whose
    save succeeded is 1000 (the file holds 1000), but the pointer the next
    cycle uses is 1001: that cycle fetches 1002 only, so 1001 is never saved
    on its own. *)
Lemma failed_save_moves_pointer :
  let s := startup save_1001_fails in
  let s1 := (poll s).2 in
  let s2 := (poll s1).2 in
  saves (new_events s s1) = [(Int 1000, true); (Int 1001, false)] /\
  sim_file (world s1) = Some "1000"%string /\
  lastBlock s1 = Some (Int 1001) /\
  lastBlock s1 <> Some (Int 1000) /\
  heights_fetched (new_events s1 s2) = [1002].
Proof. vm_compute. repeat split; discriminate. Qed.

(** ** The state file *)

Section ParseInt.

Lemma trimEnd_head s :
  trimEnd s = EmptyString \/
  exists c rest rest', s = String c rest /\ trimEnd s = String c rest'.
Proof.
  destruct s as [|c rest]; [by left|]. simpl.
  destruct (trimEnd rest) eqn:Hr.
  - destruct (is_white_space c); [by left|]. right. eauto.
  - right. eauto.
Qed.

Lemma trimStart_head s :
  match trimStart s with
  | String c _ => is_white_space c = false
  | EmptyString => True
  end.
Proof.
  induction s as [|c rest IH]; simpl; [done|].
  destruct (is_white_space c) eqn:Hc; [done|]. simpl. done.
Qed.

Lemma trimStart_id c rest :
  is_white_space c = false -> trimStart (String c rest) = String c rest.
Proof. intros H. simpl. by rewrite H. Qed.

(** A string that does not start with a digit of the radix has no integer
    prefix. *)
Lemma parse_digits_no_digit R s :
  match s with
  | String c _ =>
      match digit_value c with
      | Some d => (d <? R) = false
      | None => True
      end
  | EmptyString => True
  end ->
  parse_digits R false 0 s = None.
Proof.
  destruct s as [|c rest]; simpl; [done|].
  destruct (digit_value c) as [d|]; [|done]. by intros ->.
Qed.

Lemma not_decimal_digit c :
  is_decimal_digit c = false ->
  match digit_value c with
  | Some d => (d <? 10) = false
  | None => True
  end.
Proof.
  unfold is_decimal_digit, digit_value.
  set (n := Z.of_nat (nat_of_ascii c)).
  destruct ((48 <=? n) && (n <=? 57)) eqn:H1; [done|]. intros _.
  destruct ((97 <=? n) && (n <=? 122)) eqn:H2.
  - apply andb_true_iff in H2 as [H2 _]. apply Z.leb_le in H2.
    apply Z.ltb_ge. lia.
  - destruct ((65 <=? n) && (n <=? 90)) eqn:H3; [|done].
    apply andb_true_iff in H3 as [H3 _]. apply Z.leb_le in H3.
    apply Z.ltb_ge. lia.
Qed.

Lemma sign_not_white c :
  (c = "-"%char \/ c = "+"%char) -> is_white_space c = false.
Proof. by intros [->| ->]. Qed.

(** [parseInt] of non-numeric content is NaN, trimmed or not. *)
Lemma parseInt_non_numeric content :
  non_numeric content -> parseInt (trim content) 10 = NaN.
Proof.
  unfold non_numeric, trim, parseInt. pose proof (trimStart_head content) as Hhead.
  destruct (trimStart content) as [|c rest] eqn:Hts; [done|].
  intros Hnn.
  assert (Hte : exists rest', trimEnd (String c rest) = String c rest').
  { destruct (trimEnd_head (String c rest)) as [He|(c' & r & r' & Heq & He)].
    - simpl in He. destruct (trimEnd rest); [by rewrite Hhead in He|done].
    - injection Heq as <- <-. eauto. }
  destruct Hte as [rest' Hte]. rewrite Hte, (trimStart_id _ _ Hhead).
  assert (Hrest' : rest' = trimEnd rest \/ (trimEnd rest = EmptyString /\ rest' = EmptyString)).
  { simpl in Hte. destruct (trimEnd rest) eqn:Hr.
    - right. rewrite Hhead in Hte. by injection Hte as <-.
    - left. by injection Hte as <-. }
  assert (Hsign : forall r, (r = rest' -> c = "-"%char \/ c = "+"%char) ->
            match r with
            | String c' _ => is_decimal_digit c' = false
            | EmptyString => True
            end -> parse_digits 10 false 0 r = None).
  { intros r _ Hr. apply parse_digits_no_digit. destruct r as [|c' r']; [done|].
    by apply not_decimal_digit. }
  assert (Hafter : match rest with String c' _ => is_decimal_digit c' = false | EmptyString => True end ->
            match rest' with String c' _ => is_decimal_digit c' = false | EmptyString => True end).
  { intros Hr. destruct Hrest' as [->|[_ ->]]; [|done].
    destruct (trimEnd_head rest) as [->|(c' & r & r' & -> & ->)]; done. }
  destruct (Ascii.ascii_dec c "-") as [->|Hm]; [|destruct (Ascii.ascii_dec c "+") as [->|Hp]].
  - simpl. rewrite (Hsign rest'); [done|by left|by apply Hafter].
  - simpl. rewrite (Hsign rest'); [done|by right|by apply Hafter].
  - assert (Hc : is_decimal_digit c = false).
    { revert Hnn. destruct c as [[] [] [] [] [] [] [] []]; try done. }
    assert (Hpd : parse_digits 10 false 0 (String c rest') = None).
    { apply parse_digits_no_digit. by apply not_decimal_digit. }
    destruct c as [[] [] [] [] [] [] [] []]; try done; simpl in *; by rewrite ?Hpd.
Qed.

(** Reading back what [String] printed. *)
Lemma parse_uint_acc d a :
  parse_digits 10 true (Zpos a) (NilEmpty.string_of_uint d) =
  Some (Zpos (Pos.of_uint_acc d a)).
Proof.
  revert a. induction d; intros a; simpl; try done;
    match goal with
    | |- parse_digits 10 true (?p * 10 + ?k) _ = Some (Z.pos (Pos.of_uint_acc d ?y)) =>
        let k' := eval vm_compute in k in
        change k with k'; replace (p * 10 + k') with (Z.pos y) by lia; apply IHd
    end.
Qed.

Lemma parse_uint d seen :
  seen = true \/ d <> Decimal.Nil ->
  parse_digits 10 seen 0 (NilEmpty.string_of_uint d) = Some (Z.of_N (Pos.of_uint d)).
Proof.
  revert seen. induction d; intros seen Hs; simpl;
    try match goal with
    | |- parse_digits 10 true ?x _ = Some (Z.pos (Pos.of_uint_acc d ?y)) =>
        let x' := eval vm_compute in x in
        change x with x'; apply parse_uint_acc
    end.
  - destruct Hs as [->|Hs]; done.
  - apply IHd. by left.
Qed.

Lemma parseInt_uint d :
  d <> Decimal.Nil ->
  parseInt (NilEmpty.string_of_uint d) 10 = Int (Z.of_N (Pos.of_uint d)) /\
  parseInt (String "-" (NilEmpty.string_of_uint d)) 10 = Int (- Z.of_N (Pos.of_uint d)).
Proof.
  intros Hd. pose proof (parse_uint d false (or_intror Hd)) as Hp.
  unfold parseInt.
  destruct d; [done|..]; simpl trimStart; cbv beta iota zeta;
    change (10 =? 16) with false; cbv iota;
    cbn [NilEmpty.string_of_uint] in Hp; rewrite Hp;
    (split; [f_equal; lia|f_equal; lia]).
Qed.

Lemma trimEnd_uint d :
  trimEnd (NilEmpty.string_of_uint d) = NilEmpty.string_of_uint d.
Proof.
  induction d; simpl; [done|..]; rewrite IHd;
    by destruct (NilEmpty.string_of_uint d).
Qed.

Lemma trim_uint d :
  d <> Decimal.Nil ->
  trim (NilEmpty.string_of_uint d) = NilEmpty.string_of_uint d /\
  trim (String "-" (NilEmpty.string_of_uint d)) = String "-" (NilEmpty.string_of_uint d).
Proof.
  intros Hd. unfold trim. split.
  - destruct d; [done|..]; simpl trimStart;
      match goal with |- trimEnd ?x = _ =>
        change x with (NilEmpty.string_of_uint ltac:(first
          [exact (Decimal.D0 d)|fail])) || idtac end; try apply trimEnd_uint;
      match goal with |- trimEnd (String ?c (NilEmpty.string_of_uint d)) = _ =>
        simpl; rewrite trimEnd_uint; by destruct (NilEmpty.string_of_uint d) end.
  - simpl trimStart. simpl. rewrite trimEnd_uint.
    destruct d; [done|..]; done.
Qed.

(** [parseInt(String(z).trim(), 10)] is [z]. *)
Lemma parseInt_String_of_num z : parseInt (trim (String_of_num (Int z))) 10 = Int z.
Proof.
  destruct z as [|p|p]; [done|..]; simpl.
  - unfold NilZero.string_of_uint.
    pose proof (Unsigned.to_uint_nonnil p) as Hnn.
    pose proof (Unsigned.of_to p) as Hof.
    destruct (trim_uint _ Hnn) as [Ht _]. destruct (parseInt_uint _ Hnn) as [Hp _].
    destruct (Pos.to_uint p); [done|..]; rewrite Ht, Hp, Hof; done.
  - unfold NilZero.string_of_uint.
    pose proof (Unsigned.to_uint_nonnil p) as Hnn.
    pose proof (Unsigned.of_to p) as Hof.
    destruct (trim_uint _ Hnn) as [_ Ht]. destruct (parseInt_uint _ Hnn) as [_ Hp].
    destruct (Pos.to_uint p); [done|..]; rewrite Ht, Hp, Hof; done.
Qed.

End ParseInt.

Section StateFile.
Context {W : Type} {E : Env W}.

(** What [loadLastBlock] returns, by the outcome of reading the file. *)
Lemma loadLastBlock_read (w : W) :
  (loadLastBlock w).1 =
  match (readFileSync w).1 with
  | Normal content =>
      match parseInt (trim content) 10 with
      | Int z => if 0 <? z then Some (Int z) else None
      | NaN => None
      end
  | Throw _ => None
  end.
Proof.
  unfold loadLastBlock. destruct (readFileSync w) as [[content|e] w']; [|done].
  simpl. destruct (parseInt (trim content) 10) as [|z]; [done|].
  simpl. by destruct (0 <? z).
Qed.

(** A height the bot saved is the height it resumes from. *)
Lemma loadLastBlock_saved (w : W) z :
  (readFileSync w).1 = Normal (String_of_num (Int z)) ->
  (loadLastBlock w).1 = if 0 <? z then Some (Int z) else None.
Proof.
  intros H. rewrite loadLastBlock_read, H, parseInt_String_of_num. done.
Qed.

(** Without a pointer, a cycle that gets the tip takes it as the pointer
    and fetches no block. *)
Lemma poll_initialises (s : state W) tipHex :
  lastBlock s = None ->
  (get_tip_block_number (world s)).1 = Normal tipHex ->
  lastBlock (poll s).2 = Some (parseInt tipHex 16) /\
  heights_fetched (new_events s (poll s).2) = [].
Proof.
  intros Hlast Htip. unfold poll. unfold_monad.
  destruct (get_tip_block_number (world s)) as [rt w1]. simpl in Htip. subst rt.
  simpl_state. rewrite Hlast. unfold set_lastBlock.
  match goal with |- context [saveLastBlock ?n ?x] => set (s1 := x) end.
  destruct (saveLastBlock_spec (parseInt tipHex 16) s1)
    as [Hl [[Hr Hc]|(e & Hr & Hc)]];
    destruct (saveLastBlock (parseInt tipHex 16) s1) as [r s2];
    simpl in Hl, Hr, Hc; subst r; simpl_state; (split; [done|]).
  - erewrite new_events_app; [|simpl; rewrite Hc; subst s1; simpl;
                                by rewrite <- app_assoc]. done.
  - erewrite new_events_app; [|simpl; rewrite Hc; subst s1; simpl;
                                by rewrite <- app_assoc]. done.
Qed.


End StateFile.


(** ** The threshold *)

Section Digits.

Lemma digits2_pos_bounds p :
  2 ^ (Zpos (digits2_pos p) - 1) <= Zpos p < 2 ^ Zpos (digits2_pos p).
Proof.
  induction p as [p IH|p IH|]; cbn [digits2_pos].
  - rewrite Pos2Z.inj_succ. replace (Z.succ (Zpos (digits2_pos p)) - 1) with (Zpos (digits2_pos p)) by lia.
    rewrite Z.pow_succ_r by lia.
    replace (2 ^ Zpos (digits2_pos p)) with (2 * 2 ^ (Zpos (digits2_pos p) - 1)) in *
      by (rewrite <- Z.pow_succ_r by lia; f_equal; lia).
    lia.
  - rewrite Pos2Z.inj_succ. replace (Z.succ (Zpos (digits2_pos p)) - 1) with (Zpos (digits2_pos p)) by lia.
    rewrite Z.pow_succ_r by lia.
    replace (2 ^ Zpos (digits2_pos p)) with (2 * 2 ^ (Zpos (digits2_pos p) - 1)) in *
      by (rewrite <- Z.pow_succ_r by lia; f_equal; lia).
    lia.
  - simpl. lia.
Qed.

Lemma digits2_pos_unique p n :
  2 ^ (n - 1) <= Zpos p < 2 ^ n -> Zpos (digits2_pos p) = n.
Proof.
  intros [Hlo Hhi]. destruct (digits2_pos_bounds p) as [Dlo Dhi].
  set (d := Zpos (digits2_pos p)) in *.
  assert (0 < n).
  { destruct n as [|n|n]; [simpl in Hhi; lia|lia|].
    rewrite Z.pow_neg_r in Hhi by lia. lia. }
  destruct (Z.lt_trichotomy d n) as [Hlt|[Heq|Hgt]]; [|done|].
  - assert (2 ^ d <= 2 ^ (n - 1)) by (apply Z.pow_le_mono_r; lia). lia.
  - assert (2 ^ n <= 2 ^ (d - 1)) by (apply Z.pow_le_mono_r; lia). lia.
Qed.

End Digits.

Section Rounding.

Lemma shr_record_of_loc_inv m l :
  loc_of_shr_record (shr_record_of_loc m l) = l /\
  shr_m (shr_record_of_loc m l) = m.
Proof. by destruct l as [|[]]. Qed.

(** Where the remainder [r] of a division by [b] lies. *)
Lemma new_location_spec b r :
  0 < b -> 0 <= r < b ->
  match new_location b r with
  | loc_Exact => r = 0
  | loc_Inexact Lt => 0 < 2 * r < b
  | loc_Inexact Eq => 2 * r = b
  | loc_Inexact Gt => b < 2 * r
  end.
Proof.
  intros Hb Hr. unfold new_location, new_location_even, new_location_odd.
  destruct (Z.even b) eqn:Heven.
  - destruct (Z.eqb_spec r 0) as [->|Hne]; [done|].
    destruct (Z.compare_spec (2 * r) b); lia.
  - destruct (Z.eqb_spec r 0) as [->|Hne]; [done|].
    destruct (Z.compare_spec (2 * r + 1) b) as [Heq|Hlt|Hgt]; try lia.
    assert (Hodd : Z.odd b = true) by (rewrite <- Z.negb_even, Heven; done).
    apply Z.odd_spec in Hodd as [k Hk]. lia.
Qed.

Lemma round_nearest_even_range m l :
  m <= round_nearest_even m l <= m + 1.
Proof.
  destruct l as [|[]]; simpl; try lia. destruct (Z.even m); lia.
Qed.

(** The quotient rounded to nearest: within half a unit of [a / b]. *)
Lemma round_div_sandwich a b :
  0 < b -> 0 <= a ->
  let n := round_nearest_even (a / b) (new_location b (a mod b)) in
  (2 * n - 1) * b <= 2 * a <= (2 * n + 1) * b.
Proof.
  intros Hb Ha n. subst n.
  pose proof (Z.div_mod a b ltac:(lia)) as Hdm.
  pose proof (Z.mod_pos_bound a b Hb) as Hr.
  pose proof (new_location_spec b (a mod b) Hb Hr) as Hloc.
  set (q := a / b) in *. set (r := a mod b) in *. clearbody q r.
  destruct (new_location b r) as [|[]]; simpl.
  - nia.
  - destruct (Z.even q); nia.
  - nia.
  - nia.
Qed.

(** The same after one shift to the right: within half a unit of
    [a / (2 * b)]. *)
Lemma round_div_shr_sandwich a b :
  0 < b -> 0 <= a ->
  let mrs := shr_1 (shr_record_of_loc (a / b) (new_location b (a mod b))) in
  let n := round_nearest_even (shr_m mrs) (loc_of_shr_record mrs) in
  (2 * n - 1) * (2 * b) <= 2 * a <= (2 * n + 1) * (2 * b) /\
  a / b / 2 <= n <= a / b / 2 + 1.
Proof.
  intros Hb Ha mrs n. subst n mrs.
  pose proof (Z.div_mod a b ltac:(lia)) as Hdm.
  pose proof (Z.mod_pos_bound a b Hb) as Hr.
  pose proof (new_location_spec b (a mod b) Hb Hr) as Hloc.
  assert (Hq : 0 <= a / b) by (apply Z.div_pos; lia).
  set (q := a / b) in *. set (r := a mod b) in *. clearbody q r.
  destruct q as [|[p|p|]|]; [| | | |lia].
  - change (0 / 2) with 0. destruct (new_location b r) as [|[]]; simpl; lia.
  - assert (Hdiv : Zpos p~1 / 2 = Zpos p).
    { rewrite Pos2Z.inj_xI. symmetry. apply (Z.div_unique _ _ _ 1); lia. }
    rewrite Hdiv. rewrite Pos2Z.inj_xI in Hdm. clear Hdiv Hq.
    destruct (new_location b r) as [|[]];
      cbn [shr_record_of_loc shr_1 orb loc_of_shr_record shr_m];
      match goal with |- context [round_nearest_even ?m ?l] =>
        pose proof (round_nearest_even_range m l) as Hrange;
        assert (Hup : l = loc_Inexact Gt -> round_nearest_even m l = m + 1) by
          (intros Hl; try discriminate Hl; reflexivity);
        set (n := round_nearest_even m l) in *; clearbody n
      end; try specialize (Hup eq_refl);
      (assert (Hn : n = Zpos p \/ n = Zpos p + 1) by lia);
      destruct Hn as [-> | ->]; lia.
  - assert (Hdiv : Zpos p~0 / 2 = Zpos p).
    { rewrite Pos2Z.inj_xO. symmetry. apply (Z.div_unique _ _ _ 0); lia. }
    rewrite Hdiv. rewrite Pos2Z.inj_xO in Hdm. clear Hdiv Hq.
    destruct (new_location b r) as [|[]];
      cbn [shr_record_of_loc shr_1 orb loc_of_shr_record shr_m round_nearest_even];
      lia.
  - change (1 / 2) with 0.
    destruct (new_location b r) as [|[]];
      cbn [shr_record_of_loc shr_1 orb loc_of_shr_record shr_m round_nearest_even];
      change (Z.even 0) with true; cbv iota; lia.
Qed.

End Rounding.

Section RoundAux.

Lemma Zdigits2_unique q n :
  0 < q -> 2 ^ (n - 1) <= q < 2 ^ n -> Zdigits2 q = n.
Proof.
  intros Hq H. destruct q as [|p|p]; try lia. simpl. by apply digits2_pos_unique.
Qed.

(** Rounding a 53-bit mantissa with its location: no shift, unless the
    rounding carries into a 54th bit. *)
Lemma round_aux_53 s q e l :
  2 ^ 52 <= q < 2 ^ 53 -> -1074 <= e ->
  binary_round_aux 53 1024 s q e l =
  let n := round_nearest_even q l in
  if n <? 2 ^ 53
  then if e <=? 971 then S754_finite s (Z.to_pos n) e else S754_infinity s
  else if e + 1 <=? 971 then S754_finite s (Z.to_pos (2 ^ 52)) (e + 1)
       else S754_infinity s.
Proof.
  intros Hq He. unfold binary_round_aux, shr_fexp.
  rewrite (Zdigits2_unique q 53) by lia.
  replace (fexp 53 1024 (53 + e) - e) with 0 by (unfold fexp, emin; lia).
  cbn [shr]. destruct (shr_record_of_loc_inv q l) as [-> ->].
  pose proof (round_nearest_even_range q l) as Hn.
  set (n := round_nearest_even q l) in *. clearbody n. cbv zeta.
  destruct (Z.ltb_spec n (2 ^ 53)) as [Hlt|Hge].
  - rewrite (Zdigits2_unique n 53) by lia.
    replace (fexp 53 1024 (53 + e) - e) with 0 by (unfold fexp, emin; lia).
    cbn [shr shr_record_of_loc shr_m].
    destruct n as [|m|m]; try lia. done.
  - assert (n = 2 ^ 53) as -> by lia.
    change (Zdigits2 (2 ^ 53)) with 54.
    replace (fexp 53 1024 (54 + e) - e) with 1 by (unfold fexp, emin; lia).
    cbn [shr SpecFloat.iter_pos shr_record_of_loc].
    change (shr_1 {| shr_m := 2 ^ 53; shr_r := false; shr_s := false |})
      with {| shr_m := 2 ^ 52; shr_r := false; shr_s := false |}.
    cbn [shr_m]. change (2 ^ 52) with (Zpos (Z.to_pos (2 ^ 52))) at 1. cbv iota.
    done.
Qed.

(** Rounding a 54-bit mantissa: one shift to the right first. *)
Lemma round_aux_54 q e l :
  2 ^ 53 <= q < 2 ^ 54 - 2 -> -1075 <= e ->
  binary_round_aux 53 1024 false q e l =
  let mrs := shr_1 (shr_record_of_loc q l) in
  let n := round_nearest_even (shr_m mrs) (loc_of_shr_record mrs) in
  if e + 1 <=? 971 then S754_finite false (Z.to_pos n) (e + 1)
  else S754_infinity false.
Proof.
  intros Hq He. unfold binary_round_aux, shr_fexp.
  rewrite (Zdigits2_unique q 54) by lia.
  replace (fexp 53 1024 (54 + e) - e) with 1 by (unfold fexp, emin; lia).
  cbn [shr SpecFloat.iter_pos]. cbv beta iota zeta.
  assert (Hm : shr_m (shr_1 (shr_record_of_loc q l)) = q / 2).
  { destruct q as [|[p|p|]|]; try lia.
    - destruct l as [|[]]; cbn [shr_1 shr_record_of_loc shr_m];
        rewrite Pos2Z.inj_xI; apply (Z.div_unique _ _ _ 1); lia.
    - destruct l as [|[]]; cbn [shr_1 shr_record_of_loc shr_m];
        rewrite Pos2Z.inj_xO; apply (Z.div_unique _ _ _ 0); lia. }
  set (mrs := shr_1 (shr_record_of_loc q l)) in *.
  pose proof (round_nearest_even_range (shr_m mrs) (loc_of_shr_record mrs)) as Hn.
  set (n := round_nearest_even (shr_m mrs) (loc_of_shr_record mrs)) in *.
  clearbody n. rewrite Hm in Hn. clearbody mrs. cbv zeta.
  assert (Hq2 : 2 ^ 52 <= q / 2 < 2 ^ 53 - 1).
  { split; [apply Z.div_le_lower_bound; lia|apply Z.div_lt_upper_bound; lia]. }
  rewrite (Zdigits2_unique n 53) by lia.
  replace (fexp 53 1024 (53 + (e + 1)) - (e + 1)) with 0 by (unfold fexp, emin; lia).
  cbn [shr shr_record_of_loc shr_m].
  destruct n as [|m|m]; try lia. done.
Qed.

End RoundAux.

Section Division.

Lemma bounded_inv my ey :
  bounded 53 1024 my ey = true ->
  Zpos (digits2_pos my) <= 53 /\ -1074 <= ey <= 971 /\
  (Zpos (digits2_pos my) = 53 \/ ey = -1074).
Proof.
  unfold bounded, canonical_mantissa, fexp, emin. intros H.
  apply andb_true_iff in H as [H1 H2]. apply Z.eqb_eq in H1. apply Z.leb_le in H2.
  lia.
Qed.

Lemma SFdiv_threshold my ey :
  bounded 53 1024 my ey = true ->
  let d := Zpos (digits2_pos my) in
  exists n k,
    (k = 0 \/ k = 1) /\ 2 ^ 52 <= Zpos n < 2 ^ 53 /\
    (2 * Zpos n - 1) * 2 ^ k * Zpos my <= 2 * (MX * 2 ^ d)
      <= (2 * Zpos n + 1) * 2 ^ k * Zpos my /\
    Float.div WHALE_USD_THRESHOLD (S754_finite false my ey) =
    if -35 - (ey + d) + k <=? 971
    then S754_finite false n (-35 - (ey + d) + k)
    else S754_infinity false.
Proof.
  intros Hb d. destruct (bounded_inv my ey Hb) as (Hd & Hey & Hcanon).
  destruct (digits2_pos_bounds my) as [Hlo Hhi]. fold d in Hlo, Hhi, Hd, Hcanon.
  change WHALE_USD_THRESHOLD with (S754_finite false 6871947673600000 (-35)).
  unfold Float.div, Float.prec, Float.emax, SFdiv, SFdiv_core_binary.
  change (Zdigits2 (Zpos 6871947673600000)) with 53.
  change (Zdigits2 (Zpos my)) with d.
  assert (He' : Z.min (fexp 53 1024 (53 + -35 - (d + ey))) (-35 - ey) = -35 - (ey + d)).
  { unfold fexp, emin. lia. }
  rewrite He'.
  replace (-35 - ey - (-35 - (ey + d))) with d by lia.
  match goal with |- context [IntDef.Z.div_eucl ?a _] =>
    replace a with (MX * 2 ^ d)
      by (unfold d; rewrite Z.shiftl_mul_pow2 by lia; reflexivity) end.
  set (A := MX * 2 ^ d) in *.
  assert (Hde : IntDef.Z.div_eucl A (Zpos my) = (A / Zpos my, A mod Zpos my)).
  { unfold Z.div, Z.modulo. by destruct (Z.div_eucl A (Zpos my)). }
  rewrite Hde. cbv beta iota zeta. cbn [xorb].
  assert (HD : 2 ^ d = 2 * 2 ^ (d - 1)).
  { rewrite <- Z.pow_succ_r by lia. f_equal. lia. }
  assert (HA : 0 <= A) by (unfold A, MX; lia).
  assert (Hq : MX <= A / Zpos my <= 2 * MX).
  { split.
    - apply Z.div_le_lower_bound; [lia|]. unfold A, MX. lia.
    - apply Z.div_le_upper_bound; [lia|]. unfold A, MX. lia. }
  destruct (Z_lt_le_dec (A / Zpos my) (2 ^ 53)) as [Hsmall|Hbig].
  - rewrite round_aux_53 by (unfold MX in Hq; lia).
    pose proof (round_div_sandwich A (Zpos my) ltac:(lia) HA) as Hs.
    pose proof (round_nearest_even_range (A / Zpos my)
                  (new_location (Zpos my) (A mod Zpos my))) as Hn.
    cbv zeta in Hs |- *.
    set (n := round_nearest_even (A / Zpos my)
                (new_location (Zpos my) (A mod Zpos my))) in *.
    clearbody n. unfold MX in Hq.
    destruct (Z.ltb_spec n (2 ^ 53)) as [Hlt|Hge].
    + exists (Z.to_pos n), 0. rewrite Z2Pos.id by lia. rewrite Z.add_0_r.
      split; [by left|]. split; [lia|]. split; [lia|done].
    + assert (n = 2 ^ 53) as -> by lia.
      exists (Z.to_pos (2 ^ 52)), 1. split; [by right|].
      split; [done|]. split; [|done].
      change (Zpos (Z.to_pos (2 ^ 52))) with (2 ^ 52). lia.
  - rewrite round_aux_54 by (unfold MX in Hq; lia).
    pose proof (round_div_shr_sandwich A (Zpos my) ltac:(lia) HA) as [Hs Hn].
    cbv zeta in Hs, Hn |- *.
    set (n := round_nearest_even _ _) in *. clearbody n.
    assert (Hq2 : 2 ^ 52 <= A / Zpos my / 2 <= MX).
    { split; [apply Z.div_le_lower_bound; lia|apply Z.div_le_upper_bound; lia]. }
    unfold MX in Hq, Hq2.
    exists (Z.to_pos n), 1. rewrite Z2Pos.id by lia.
    split; [by right|]. split; [lia|]. split; [lia|done].
Qed.

End Division.

Section Ceiling.

Lemma Zpos_iter_xO p n : Zpos (Pos.iter xO p n) = Zpos p * 2 ^ Zpos n.
Proof.
  induction n as [|n IH] using Pos.peano_ind.
  - simpl. lia.
  - rewrite Pos.iter_succ, Pos2Z.inj_xO, IH, Pos2Z.inj_succ, Z.pow_succ_r by lia.
    lia.
Qed.

(** An integer below 2^53 is a Number, and [BigInt] gives it back. *)
Lemma BigInt_binary_round s p :
  Zpos p < 2 ^ 53 ->
  Float.BigInt (binary_round 53 1024 s p 0) = Normal (Float.signed s p).
Proof.
  intros Hp. unfold binary_round.
  destruct (digits2_pos_bounds p) as [Hlo Hhi].
  set (dp := Zpos (digits2_pos p)) in *.
  assert (Hdp : 1 <= dp <= 53).
  { split; [subst dp; lia|].
    destruct (Z_le_gt_dec dp 53); [done|].
    assert (2 ^ 53 <= 2 ^ (dp - 1)) by (apply Z.pow_le_mono_r; lia). lia. }
  replace (fexp 53 1024 (dp + 0)) with (dp - 53) by (unfold fexp, emin; lia).
  unfold shl_align.
  destruct (dp - 53 - 0) as [|j|j] eqn:Hj; [|lia|].
  - assert (Hdp53 : dp = 53) by lia. clearbody dp. subst dp.
    change (53 - 1) with 52 in Hlo.
    rewrite round_aux_53 by lia. cbn [round_nearest_even]. cbv zeta.
    destruct (Z.ltb_spec (Zpos p) (2 ^ 53)) as [_|?]; [|lia].
    simpl. rewrite Z.mul_1_r. done.
  - assert (Hmz : Zpos (Pos.iter xO p j) = Zpos p * 2 ^ Zpos j) by apply Zpos_iter_xO.
    assert (Hj' : Zpos j = 53 - dp) by lia.
    assert (Hpow : 2 ^ 53 = 2 ^ dp * 2 ^ Zpos j).
    { rewrite <- Z.pow_add_r by lia. f_equal. lia. }
    assert (Hpow' : 2 ^ 52 = 2 ^ (dp - 1) * 2 ^ Zpos j).
    { rewrite <- Z.pow_add_r by lia. f_equal. lia. }
    assert (H2j : 0 < 2 ^ Zpos j) by (apply Z.pow_pos_nonneg; lia).
    rewrite round_aux_53; [| |lia].
    2:{ rewrite Hmz, Hpow, Hpow'. split.
        - apply Z.mul_le_mono_nonneg_r; lia.
        - apply Z.mul_lt_mono_pos_r; lia. }
    cbn [round_nearest_even]. cbv zeta.
    destruct (Z.ltb_spec (Zpos (Pos.iter xO p j)) (2 ^ 53)) as [_|Hge].
    2:{ rewrite Hmz, Hpow in Hge.
        assert (Zpos p * 2 ^ Zpos j < 2 ^ dp * 2 ^ Zpos j)
          by (apply Z.mul_lt_mono_pos_r; lia). lia. }
    destruct (Z.leb_spec (dp - 53) 971) as [_|?]; [|lia].
    rewrite Pos2Z.id. unfold Float.BigInt.
    destruct (Z.leb_spec 0 (dp - 53)) as [?|_]; [lia|].
    replace (- (dp - 53)) with (Zpos j) by lia.
    rewrite Hmz, Z_mod_mult. simpl Z.eqb. cbv iota. f_equal.
    unfold Float.signed, cond_Zopp. destruct s.
    + rewrite Hmz, <- Z.mul_opp_l, Z_div_mult by lia. done.
    + rewrite Hmz, Z_div_mult by lia. done.
Qed.

(** [BigInt(Math.ceil(x))] is the ceiling of [x], for every finite [x]. *)
Lemma BigInt_Math_ceil s m e :
  bounded 53 1024 m e = true ->
  Float.BigInt (Float.Math_ceil (S754_finite s m e)) =
  Normal (ceil_pow2 (Float.signed s m) e).
Proof.
  intros Hb. destruct (bounded_inv m e Hb) as (Hd & He & _).
  destruct (digits2_pos_bounds m) as [_ Hhi].
  assert (Hm : Zpos m < 2 ^ 53).
  { assert (2 ^ Zpos (digits2_pos m) <= 2 ^ 53) by (apply Z.pow_le_mono_r; lia). lia. }
  unfold Float.Math_ceil, ceil_pow2.
  destruct (Z.leb_spec 0 e) as [Hpos|Hneg].
  - unfold Float.BigInt. destruct (Z.leb_spec 0 e); [done|lia].
  - assert (H2 : 2 <= 2 ^ (- e)).
    { change 2 with (2 ^ 1) at 1. apply Z.pow_le_mono_r; lia. }
    set (c := - (- Float.signed s m / 2 ^ (- e))).
    assert (Hc : - 2 ^ 53 < c < 2 ^ 53).
    { subst c. unfold Float.signed, cond_Zopp. destruct s.
      - rewrite Z.opp_involutive.
        assert (0 <= Zpos m / 2 ^ (- e)) by (apply Z.div_pos; lia).
        assert (Zpos m / 2 ^ (- e) < 2 ^ 53) by (apply Z.div_lt_upper_bound; lia).
        lia.
      - assert (- Zpos m / 2 ^ (- e) < 0) by (apply Z.div_lt_upper_bound; lia).
        assert (- 2 ^ 53 < - Zpos m / 2 ^ (- e)).
        { assert (- 2 ^ 53 + 1 <= - Zpos m / 2 ^ (- e)); [|lia].
          apply Z.div_le_lower_bound; lia. }
        lia. }
    unfold Float.prec, Float.emax, binary_normalize.
    destruct c as [|p|p]; [done| |].
    + rewrite BigInt_binary_round by lia. done.
    + rewrite BigInt_binary_round by lia. done.
Qed.

End Ceiling.

Section Antitone.

Lemma quotient_shape_bounds my n k :
  quotient_shape my n k ->
  (k = 1 -> Zpos n <= MX) /\ (k = 0 -> MX <= Zpos n).
Proof.
  intros (Hk & Hn & Hs).
  destruct (digits2_pos_bounds my) as [Hlo Hhi].
  set (d := Zpos (digits2_pos my)) in *.
  assert (HD : 2 ^ d = 2 * 2 ^ (d - 1)).
  { rewrite <- Z.pow_succ_r by (subst d; lia). f_equal. lia. }
  assert (HD0 : 0 < 2 ^ (d - 1)) by (apply Z.pow_pos_nonneg; subst d; lia).
  clearbody d. set (D := 2 ^ (d - 1)) in *. clearbody D. rewrite HD in *.
  set (N := Zpos n) in *. set (Y := Zpos my) in *.
  assert (HY : 0 < Y) by (subst Y; lia). clearbody N Y. unfold MX in *.
  split; intros ->.
  - change (2 ^ 1) with 2 in Hs. nia.
  - change (2 ^ 0) with 1 in Hs. nia.
Qed.

(** The order of two finite positive Numbers, read on their fields. *)
Lemma SFleb_finite m1 e1 m2 e2 :
  SFleb (S754_finite false m1 e1) (S754_finite false m2 e2) = true ->
  e1 < e2 \/ (e1 = e2 /\ Zpos m1 <= Zpos m2).
Proof.
  unfold SFleb, SFcompare.
  destruct (Z.compare_spec e1 e2) as [->|Hlt|Hgt]; [|by left|done].
  change (Pos.compare_cont Eq m1 m2) with (Pos.compare m1 m2).
  destruct (Pos.compare_spec m1 m2) as [Hc|Hc|Hc]; intros Hleb;
    try discriminate; right; lia.
Qed.

(** The larger the divisor, the smaller the rounded quotient. *)
Lemma quotient_antitone my1 ey1 my2 ey2 n1 k1 n2 k2 :
  bounded 53 1024 my1 ey1 = true ->
  bounded 53 1024 my2 ey2 = true ->
  ey1 < ey2 \/ (ey1 = ey2 /\ Zpos my1 < Zpos my2) ->
  quotient_shape my1 n1 k1 ->
  quotient_shape my2 n2 k2 ->
  let e1 := -35 - (ey1 + Zpos (digits2_pos my1)) + k1 in
  let e2 := -35 - (ey2 + Zpos (digits2_pos my2)) + k2 in
  e2 < e1 \/ (e2 = e1 /\ Zpos n2 <= Zpos n1).
Proof.
  intros Hb1 Hb2 Hle Hq1 Hq2 e1 e2. subst e1 e2.
  destruct (bounded_inv _ _ Hb1) as (Hd1 & Hey1 & Hc1).
  destruct (bounded_inv _ _ Hb2) as (Hd2 & Hey2 & Hc2).
  destruct (quotient_shape_bounds _ _ _ Hq1) as [Hk11 Hk10].
  destruct (quotient_shape_bounds _ _ _ Hq2) as [Hk21 Hk20].
  destruct (digits2_pos_bounds my1) as [Hlo1 Hhi1].
  destruct (digits2_pos_bounds my2) as [Hlo2 Hhi2].
  assert (Hdd : ey1 = ey2 -> Zpos my1 <= Zpos my2 ->
                Zpos (digits2_pos my1) <= Zpos (digits2_pos my2)).
  { intros _ Hm. destruct (Z_le_gt_dec (Zpos (digits2_pos my1)) (Zpos (digits2_pos my2)));
      [done|].
    assert (2 ^ Zpos (digits2_pos my2) <= 2 ^ (Zpos (digits2_pos my1) - 1))
      by (apply Z.pow_le_mono_r; lia). lia. }
  set (d1 := Zpos (digits2_pos my1)) in *. set (d2 := Zpos (digits2_pos my2)) in *.
  assert (Hd1pos : 1 <= d1) by (subst d1; lia).
  assert (Hd2pos : 1 <= d2) by (subst d2; lia).
  destruct Hq1 as (Hk1 & Hn1 & Hs1). destruct Hq2 as (Hk2 & Hn2 & Hs2).
  fold d1 in Hs1. fold d2 in Hs2.
  (* the magnitudes: o = ey + d *)
  destruct (Z.lt_trichotomy (ey1 + d1) (ey2 + d2)) as [Ho|[Ho|Ho]].
  - (* the second divisor is in a higher binade *)
    destruct Hk1 as [-> | ->], Hk2 as [-> | ->]; lia.
  - (* the same binade: the same exponent and digit count *)
    assert (Hsame : ey1 = ey2 /\ d1 = d2) by lia.
    destruct Hsame as [<- Hdeq].
    assert (Hlt : Zpos my1 < Zpos my2) by lia.
    rewrite <- Hdeq in Hs2.
    assert (HA : 0 < MX * 2 ^ d1).
    { apply Z.mul_pos_pos; [unfold MX; lia|apply Z.pow_pos_nonneg; lia]. }
    set (A := MX * 2 ^ d1) in *. clearbody A.
    assert (Hy2 : Zpos my2 < 2 ^ 53).
    { assert (2 ^ d2 <= 2 ^ 53) by (apply Z.pow_le_mono_r; lia). lia. }
    set (Y1 := Zpos my1) in *. set (Y2 := Zpos my2) in *.
    assert (HY1 : 0 < Y1) by (subst Y1; lia). clearbody Y1 Y2.
    set (N1 := Zpos n1) in *. set (N2 := Zpos n2) in *. clearbody N1 N2.
    destruct Hk1 as [-> | ->], Hk2 as [-> | ->];
      change (2 ^ 0) with 1 in *; change (2 ^ 1) with 2 in *.
    + destruct (Z_le_gt_dec N2 N1); [right; lia|]. exfalso. nia.
    + exfalso. nia.
    + left. lia.
    + destruct (Z_le_gt_dec N2 N1); [right; lia|]. exfalso. nia.
  - (* impossible: the first divisor would be the larger *)
    exfalso. destruct Hle as [Hlt|[Heq Hm]];
      [|specialize (Hdd Heq ltac:(lia)); lia].
    destruct Hc2 as [Hc2|Hc2]; lia.
Qed.

End Antitone.

Section Threshold.

Lemma ceil_pow2_nonneg n e : 0 <= n -> 0 <= ceil_pow2 n e.
Proof.
  intros Hn. unfold ceil_pow2. destruct (Z.leb_spec 0 e) as [He|He].
  - apply Z.mul_nonneg_nonneg; [done|]. apply Z.pow_nonneg. lia.
  - assert (HP : 0 < 2 ^ (- e)) by (apply Z.pow_pos_nonneg; lia).
    destruct (Z.eq_dec n 0) as [->|Hne]; [simpl; rewrite Z.div_0_l; lia|].
    assert (- n / 2 ^ (- e) < 0) by (apply Z.div_lt_upper_bound; lia). lia.
Qed.

(** The ceiling is monotone in the value of a normalised mantissa and
    exponent. *)
Lemma ceil_pow2_lex n1 e1 n2 e2 :
  2 ^ 52 <= n1 < 2 ^ 53 -> 2 ^ 52 <= n2 < 2 ^ 53 ->
  e2 < e1 \/ (e2 = e1 /\ n2 <= n1) ->
  ceil_pow2 n2 e2 <= ceil_pow2 n1 e1.
Proof.
  intros Hn1 Hn2 [Hlt|[-> Hle]]; unfold ceil_pow2.
  - destruct (Z.leb_spec 0 e2) as [He2|He2], (Z.leb_spec 0 e1) as [He1|He1]; try lia.
    + assert (Hp : 2 * 2 ^ e2 <= 2 ^ e1).
      { rewrite <- Z.pow_succ_r by lia. apply Z.pow_le_mono_r; lia. }
      assert (0 < 2 ^ e2) by (apply Z.pow_pos_nonneg; lia). nia.
    + assert (HP2 : 2 <= 2 ^ (- e2)).
      { change 2 with (2 ^ 1) at 1. apply Z.pow_le_mono_r; lia. }
      assert (HP1 : 1 <= 2 ^ e1).
      { change 1 with (2 ^ 0) at 1. apply Z.pow_le_mono_r; lia. }
      assert (- 2 ^ 52 <= - n2 / 2 ^ (- e2)) by (apply Z.div_le_lower_bound; lia).
      nia.
    + assert (HP1 : 0 < 2 ^ (- e1)) by (apply Z.pow_pos_nonneg; lia).
      assert (HP2 : 2 * 2 ^ (- e1) <= 2 ^ (- e2)).
      { rewrite <- Z.pow_succ_r by lia. apply Z.pow_le_mono_r; lia. }
      pose proof (Z.mul_div_le (- n1) (2 ^ (- e1)) HP1) as Hc1.
      set (c1 := - n1 / 2 ^ (- e1)) in *. clearbody c1.
      set (P1 := 2 ^ (- e1)) in *. set (P2 := 2 ^ (- e2)) in *. clearbody P1 P2.
      assert (c1 <= - n2 / P2); [|lia].
      apply Z.div_le_lower_bound; [lia|]. nia.
  - destruct (Z.leb_spec 0 e1) as [He1|He1].
    + apply Z.mul_le_mono_nonneg_r; [apply Z.pow_nonneg; lia|done].
    + assert (HP1 : 0 < 2 ^ (- e1)) by (apply Z.pow_pos_nonneg; lia).
      assert (- n1 / 2 ^ (- e1) <= - n2 / 2 ^ (- e1)); [|lia].
      apply Z.div_le_mono; lia.
Qed.

(** The threshold at a finite positive rate. *)
Lemma whaleThresholdShannons_finite my ey :
  bounded 53 1024 my ey = true ->
  exists n k,
    quotient_shape my n k /\
    Float.div WHALE_USD_THRESHOLD (S754_finite false my ey) =
    (let e := -35 - (ey + Zpos (digits2_pos my)) + k in
     if e <=? 971 then S754_finite false n e else S754_infinity false) /\
    whaleThresholdShannons (Some (S754_finite false my ey)) =
    let e := -35 - (ey + Zpos (digits2_pos my)) + k in
    if e <=? 971 then Normal (ceil_pow2 (Zpos n) e * SHANNON_PER_CKB)
    else Throw (RangeError "not an integer").
Proof.
  intros Hb. destruct (SFdiv_threshold my ey Hb) as (n & k & Hk & Hn & Hs & Hdiv).
  exists n, k. split; [done|]. split; [exact Hdiv|].
  unfold whaleThresholdShannons. cbn [Float.falsy orb].
  change (Float.leb (S754_finite false my ey) Float.zero) with false. cbv iota.
  cbv zeta in Hdiv |- *. rewrite Hdiv.
  destruct (bounded_inv my ey Hb) as (Hd & Hey & _).
  assert (1 <= Zpos (digits2_pos my)) by lia.
  set (e := -35 - (ey + Zpos (digits2_pos my)) + k) in *.
  destruct (Z.leb_spec e 971) as [He|He]; [|done].
  rewrite BigInt_Math_ceil; [done|].
  unfold bounded, canonical_mantissa.
  rewrite (digits2_pos_unique n 53) by lia.
  apply andb_true_iff. split; [apply Z.eqb_eq; unfold fexp, emin; lia|].
  apply Z.leb_le. lia.
Qed.

Lemma positive_rate r :
  Float.ltb Float.zero r = true ->
  r = S754_infinity false \/ exists m e, r = S754_finite false m e.
Proof.
  destruct r as [s|[]|  |[] m e]; try discriminate; eauto.
Qed.

(** X1.  The fallback for an unavailable rate; for a positive rate, the
    ceiling of the binary64 quotient [200000 / rate], times 10^8, whenever
    that quotient is finite. *)
Theorem whaleThresholdShannons_spec :
  (forall priceUsd, unavailable priceUsd ->
     whaleThresholdShannons priceUsd = Normal (10000000 * SHANNON_PER_CKB)) /\
  (forall r, valid_binary 53 1024 r = true -> Float.ltb Float.zero r = true ->
     match Float.div WHALE_USD_THRESHOLD r with
     | S754_finite s m e =>
         whaleThresholdShannons (Some r) =
         Normal (ceil_pow2 (Float.signed s m) e * SHANNON_PER_CKB)
     | S754_zero _ => whaleThresholdShannons (Some r) = Normal 0
     | _ => exists err, whaleThresholdShannons (Some r) = Throw err
     end).
Proof.
  split.
  - intros [x|]; [|done]. intros [->|Hle]; [done|].
    unfold whaleThresholdShannons. rewrite Hle, orb_true_r. done.
  - intros r Hvalid Hpos. destruct (positive_rate r Hpos) as [->|(m & e & ->)].
    + done.
    + destruct (whaleThresholdShannons_finite m e Hvalid) as (n & k & _ & Hdiv & Hth).
      cbv zeta in Hdiv, Hth. rewrite Hdiv, Hth.
      destruct (_ <=? 971); [done|eauto].
Qed.

(** C4 (amended).  The threshold is antitone in the rate: of two positive
    rates, the lower one yields the higher-or-equal threshold, whenever the
    threshold at the lower rate is computed at all.  At a rate of 0.01 the
    threshold is 20,000,000 CKB. *)
Theorem whaleThresholdShannons_antitone :
  (forall r1 r2 t1,
     valid_binary 53 1024 r1 = true -> valid_binary 53 1024 r2 = true ->
     Float.ltb Float.zero r1 = true -> Float.leb r1 r2 = true ->
     whaleThresholdShannons (Some r1) = Normal t1 ->
     exists t2, whaleThresholdShannons (Some r2) = Normal t2 /\ t2 <= t1) /\
  whaleThresholdShannons (Some price_0_01) = Normal (20000000 * SHANNON_PER_CKB).
Proof.
  split; [|reflexivity].
  intros r1 r2 t1 Hv1 Hv2 Hpos Hle Ht1.
  destruct (positive_rate r1 Hpos) as [->|(m1 & e1 & ->)].
  - destruct r2 as [s|[]| |s m e]; try discriminate. eauto with zarith.
  - destruct (whaleThresholdShannons_finite m1 e1 Hv1) as (n1 & k1 & Hq1 & _ & Hth1).
    cbv zeta in Hth1. rewrite Hth1 in Ht1.
    destruct (Z.leb_spec (-35 - (e1 + Zpos (digits2_pos m1)) + k1) 971) as [Hfin1|];
      [|discriminate].
    injection Ht1 as <-.
    assert (Hn1 : 2 ^ 52 <= Zpos n1 < 2 ^ 53) by apply Hq1.
    destruct r2 as [s|[]| |[] m2 e2]; try discriminate.
    + exists 0. split; [reflexivity|].
      apply Z.mul_nonneg_nonneg; [apply ceil_pow2_nonneg; lia|done].
    + apply SFleb_finite in Hle.
      destruct (whaleThresholdShannons_finite m2 e2 Hv2) as (n2 & k2 & Hq2 & _ & Hth2).
      cbv zeta in Hth2.
      assert (Hn2 : 2 ^ 52 <= Zpos n2 < 2 ^ 53) by apply Hq2.
      destruct (decide (e1 = e2 /\ m1 = m2)) as [[-> ->]|Hne].
      { exists (ceil_pow2 (Zpos n1) (-35 - (e2 + Zpos (digits2_pos m2)) + k1) *
                SHANNON_PER_CKB). by rewrite Hth1. }
      assert (Hlt : e1 < e2 \/ (e1 = e2 /\ Zpos m1 < Zpos m2)).
      { destruct Hle as [?|[-> Hm]]; [by left|]. right. split; [done|].
        destruct (Z.eq_dec (Zpos m1) (Zpos m2)) as [Heq|?]; [|lia].
        injection Heq as ->. by destruct Hne. }
      pose proof (quotient_antitone m1 e1 m2 e2 n1 k1 n2 k2 Hv1 Hv2 Hlt Hq1 Hq2) as Hlex.
      cbv zeta in Hlex. rewrite Hth2.
      destruct (Z.leb_spec (-35 - (e2 + Zpos (digits2_pos m2)) + k2) 971) as [_|Hinf];
        [|lia].
      eexists. split; [reflexivity|].
      apply Z.mul_le_mono_nonneg_r; [done|]. by apply ceil_pow2_lex.
Qed.

End Threshold.

(** ** The threshold on sample rates *)

(** For a negative exponent [ceil_pow2 n e] is the least integer that is
    at least [n / 2^-e]. *)
Lemma ceil_pow2_spec n e :
  e < 0 ->
  (ceil_pow2 n e - 1) * 2 ^ (- e) < n <= ceil_pow2 n e * 2 ^ (- e).
Proof.
  intros He. unfold ceil_pow2. destruct (Z.leb_spec 0 e) as [?|_]; [lia|].
  assert (HP : 0 < 2 ^ (- e)) by (apply Z.pow_pos_nonneg; lia).
  pose proof (Z.div_mod (- n) (2 ^ (- e)) ltac:(lia)) as Hdm.
  pose proof (Z.mod_pos_bound (- n) (2 ^ (- e)) HP) as Hr.
  set (q := - n / 2 ^ (- e)) in *. set (r := (- n) mod 2 ^ (- e)) in *.
  clearbody q r. set (P := 2 ^ (- e)) in *. clearbody P. nia.
Qed.

(** C3 fails at a rate so small that the quotient overflows:
    [Number.MIN_VALUE] is a positive Number, [200000 / MIN_VALUE] is
    [Infinity], and [BigInt(Infinity)] raises a RangeError where the claim
    promises a threshold.  The exception leaves [processBlock]: a cycle that
    has cached such a rate stops at its first block and the pointer stays
    where it was. *)
Theorem whaleThresholdShannons_MIN_VALUE :
  valid_binary 53 1024 MIN_VALUE = true /\
  Float.ltb Float.zero MIN_VALUE = true /\
  Float.div WHALE_USD_THRESHOLD MIN_VALUE = S754_infinity false /\
  whaleThresholdShannons (Some MIN_VALUE) = Throw (RangeError "not an integer") /\
  let s := startup tiny_price in
  new_events s (poll s).2 =
    [EvGetBlock 1000; EvPriceRequest; EvPrice MIN_VALUE;
     EvPollError (RangeError "not an integer")] /\
  lastBlock (poll s).2 = Some (Int 999).
Proof. vm_compute. repeat split. Qed.

(** C4 as stated fails: 0.01 is the lower rate and it yields the higher
    threshold, 20,000,000 CKB against 10,000,000 CKB at 0.02. *)
Lemma lower_rate_higher_threshold :
  Float.ltb price_0_01 price_0_02 = true /\
  whaleThresholdShannons (Some price_0_01) = Normal (20000000 * SHANNON_PER_CKB) /\
  whaleThresholdShannons (Some price_0_02) = Normal (10000000 * SHANNON_PER_CKB) /\
  ~ (20000000 * SHANNON_PER_CKB <= 10000000 * SHANNON_PER_CKB).
Proof. vm_compute. repeat split. intros H. by apply H. Qed.

(** The rates 0.01 and 0.02. *)
Lemma whaleThresholdShannons_antitone_witness :
  exists t2,
    whaleThresholdShannons (Some price_0_02) = Normal t2 /\
    t2 <= 20000000 * SHANNON_PER_CKB.
Proof.
  apply (proj1 whaleThresholdShannons_antitone price_0_01 price_0_02);
    reflexivity.
Defined.

(** An absent rate and the rate 0.003. *)
Lemma whaleThresholdShannons_spec_witness :
  whaleThresholdShannons None = Normal (10000000 * SHANNON_PER_CKB) /\
  whaleThresholdShannons (Some price_0_003) = Normal (66666667 * SHANNON_PER_CKB).
Proof.
  split.
  - exact (proj1 whaleThresholdShannons_spec None I).
  - exact (proj2 whaleThresholdShannons_spec price_0_003 eq_refl eq_refl).
Defined.

(** ** The other components on the scenarios *)

(** A rate cached 1 second ago is returned as it is; a rate cached 10
    minutes ago is refreshed, and kept when the feed is down. *)
Lemma fetchCkbPrice_contract_witness :
  let fresh := feed_state (Some price_0_01) 1000 (Normal (JNumber price_0_02)) in
  let stale := feed_state (Some price_0_01) 600000 (Throw (Error "down")) in
  ((fetchCkbPrice fresh).1 = Normal (Some price_0_01) /\
   ckbPriceUsd (fetchCkbPrice fresh).2 = Some price_0_01 /\
   priceFetchedAt (fetchCkbPrice fresh).2 = priceFetchedAt fresh /\
   world (fetchCkbPrice fresh).2 = (Date_now (world fresh)).2 /\
   console (fetchCkbPrice fresh).2 = console fresh) /\
  (fetchCkbPrice stale).1 = Normal (Some price_0_01).
Proof.
  intros fresh stale.
  pose proof (fetchCkbPrice_contract fresh) as (_ & _ & Hfresh & _).
  pose proof (fetchCkbPrice_contract stale) as (_ & _ & _ & Hstale).
  split.
  - apply (Hfresh price_0_01); reflexivity.
  - destruct Hstale as (_ & _ & Hres).
    { right. vm_compute. discriminate. }
    exact (proj1 Hres).
Defined.


(** The README transaction reaches the fallback threshold and is no
    self-transfer: one alert, for 17,500,000 CKB. *)
Lemma processBlock_alerts_witness :
  exists evs s2 a,
    scanTx 1000 None (10000000 * SHANNON_PER_CKB) whaleTx (startup healthy) =
      (Normal tt, s2) /\
    alerts evs = [a] /\ alert_hash a = "0xwhale"%string /\
    alert_outputCKB a = 17500000 * SHANNON_PER_CKB.
Proof.
  destruct (proj2 (proj2 (processBlock_alerts 1000 (startup healthy)))
              None (10000000 * SHANNON_PER_CKB) whaleTx (startup healthy))
    as (evs & s2 & Hrun & _ & Hyes & _).
  destruct Hyes as (a & Ha & Hh & _ & Ht & _).
  { split; [vm_compute; discriminate|reflexivity]. }
  exists evs, s2, a. split; [exact Hrun|]. split; [exact Ha|]. split; [exact Hh|].
  exact Ht.
Defined.

Section Keeps.
Context {W : Type} {E : Env W}.
Variable R : state W -> state W -> Prop.
Hypothesis R_refl : forall s, R s s.
Hypothesis R_trans : forall s1 s2 s3, R s1 s2 -> R s2 s3 -> R s1 s3.

Lemma keeps_ret {A} (a : A) : keeps R (ret a).
Proof. intros s. apply R_refl. Qed.

Lemma keeps_lift {A} (c : completion A) : keeps R (lift c).
Proof. intros s. apply R_refl. Qed.

Lemma keeps_get : keeps R (get (W := W)).
Proof. intros s. apply R_refl. Qed.

Lemma keeps_bind {A B} (m : M W A) (k : A -> M W B) :
  keeps R m -> (forall a, keeps R (k a)) -> keeps R (x ← m; k x).
Proof.
  intros Hm Hk s. unfold mbind, M_bind, bind. specialize (Hm s).
  destruct (m s) as [[a|e] s1]; simpl in *; [|done].
  eapply R_trans; [exact Hm|apply Hk].
Qed.

Lemma keeps_try_catch {A} (m : M W A) (h : exn -> M W A) :
  keeps R m -> (forall e, keeps R (h e)) -> keeps R (try_catch m h).
Proof.
  intros Hm Hh s. unfold try_catch. specialize (Hm s).
  destruct (m s) as [[a|e] s1]; simpl in *; [done|].
  eapply R_trans; [exact Hm|apply Hh].
Qed.

Lemma keeps_Promise_all {A} (ms : list (M W A)) :
  Forall (keeps R) ms -> keeps R (Promise_all ms).
Proof.
  induction 1 as [|m ms Hm _ IH]; [apply keeps_ret|].
  intros s. simpl. specialize (Hm s).
  destruct (m s) as [[a|e] s1]; simpl in *.
  - specialize (IH s1). destruct (Promise_all ms s1) as [[l|e] s2]; simpl in *;
      eapply R_trans; eauto.
  - eapply R_trans; [exact Hm|]. apply IH.
Qed.

(** What the functions of the program keep, from what their primitive
    steps keep. *)
Hypothesis R_get_transaction : forall h, keeps R (call (get_transaction h)).
Hypothesis R_telegram : forall a, keeps R (call (telegram a)).

Lemma isSelfTransfer_keeps tx :
  (forall e, keeps R (log (EvFilterFailed (hash tx) e))) ->
  keeps R (isSelfTransfer tx).
Proof.
  intros Hlog. unfold isSelfTransfer. apply keeps_try_catch.
  - apply keeps_bind.
    + apply keeps_Promise_all. apply Forall_forall. intros m Hm.
      apply list_elem_of_In, in_map_iff in Hm as (inp & <- & _).
      apply R_get_transaction.
    + intros results. destruct (bool_decide _); apply keeps_ret.
  - intros e. apply keeps_bind; [apply Hlog|]. intros _. apply keeps_ret.
Qed.

Lemma scanTx_keeps blockNum priceUsd threshold tx :
  (forall e, keeps R (log (EvFilterFailed (hash tx) e))) ->
  (forall total, keeps R (log (EvSkip blockNum (hash tx) total))) ->
  (forall a, alert_hash a = hash tx -> alert_blockNum a = blockNum ->
             alert_priceUsd a = priceUsd -> keeps R (log (EvWhale a))) ->
  (forall ok, keeps R (log (EvTelegram ok))) ->
  keeps R (scanTx blockNum priceUsd threshold tx).
Proof.
  intros Hfail Hskip Hwhale Htg. unfold scanTx. destruct (_ <? _); [apply keeps_ret|].
  apply keeps_bind; [by apply isSelfTransfer_keeps|]. intros [|]; [apply Hskip|].
  apply keeps_bind; [by apply Hwhale|]. intros _.
  apply keeps_try_catch.
  - apply keeps_bind; [apply R_telegram|]. intros _. apply Htg.
  - intros _. apply Htg.
Qed.

Lemma scan_each_keeps blockNum priceUsd threshold txs :
  (forall h e, keeps R (log (EvFilterFailed h e))) ->
  (forall h total, keeps R (log (EvSkip blockNum h total))) ->
  (forall a, alert_blockNum a = blockNum -> alert_priceUsd a = priceUsd ->
             keeps R (log (EvWhale a))) ->
  (forall ok, keeps R (log (EvTelegram ok))) ->
  keeps R (scan_each blockNum priceUsd threshold txs).
Proof.
  intros Hfail Hskip Hwhale Htg.
  induction txs as [|tx txs IH]; simpl; [apply keeps_ret|].
  apply keeps_bind; [|intros _; apply IH].
  apply scanTx_keeps; auto.
Qed.

Hypothesis R_now : keeps R (now_ms (W := W)).
Hypothesis R_coingecko : keeps R (call coingecko).

Lemma fetchCkbPrice_keeps :
  keeps R (log EvPriceRequest) ->
  (forall x, keeps R (log (EvPrice x))) ->
  (forall e, keeps R (log (EvPriceFailed e))) ->
  (forall x now, Float.ltb Float.zero x = true -> keeps R (set_price x now)) ->
  keeps R (fetchCkbPrice (W := W)).
Proof.
  intros Hreq Hprice Hfail Hset. unfold fetchCkbPrice.
  apply keeps_bind; [apply R_now|]. intros now.
  apply keeps_bind; [apply keeps_get|]. intros s.
  destruct (_ && _); [apply keeps_ret|].
  apply keeps_bind.
  - apply keeps_try_catch; [|exact Hfail].
    apply keeps_bind; [exact Hreq|]. intros _.
    apply keeps_bind; [apply R_coingecko|]. intros [|x| |]; try apply keeps_ret.
    destruct (Float.ltb Float.zero x) eqn:Hx; [|apply keeps_ret].
    apply keeps_bind; [by apply Hset|]. intros _. apply Hprice.
  - intros _. apply keeps_bind; [apply keeps_get|]. intros s'. apply keeps_ret.
Qed.

Hypothesis R_get_block : forall n, keeps R (call (get_block_by_number n)).
Hypothesis R_log : forall ev, keeps R (log ev).
Hypothesis R_set_price :
  forall x now, Float.ltb Float.zero x = true -> keeps R (set_price x now).

Lemma processBlock_keeps n : keeps R (processBlock n).
Proof.
  unfold processBlock.
  apply keeps_bind.
  { apply keeps_bind; [apply R_log|]. intros _. apply R_get_block. }
  intros [block|]; [|apply keeps_ret].
  apply keeps_bind; [by apply fetchCkbPrice_keeps|]. intros p.
  apply keeps_bind; [apply keeps_lift|]. intros th.
  rewrite scan_loop_drop by lia. apply scan_each_keeps; auto.
Qed.

Hypothesis R_write : forall c, keeps R (call (writeFileSync c)).

Lemma saveLastBlock_keeps n : keeps R (saveLastBlock n).
Proof.
  unfold saveLastBlock. apply keeps_try_catch.
  - apply keeps_bind; [apply R_write|]. intros _. apply R_log.
  - intros e. apply keeps_bind; [apply R_log|]. intros _. apply keeps_lift.
Qed.

Hypothesis R_set_lastBlock : forall n, keeps R (set_lastBlock n).

Lemma catch_up_keeps count n : keeps R (catch_up count n).
Proof.
  revert n. induction count as [|count IH]; intros n; simpl; [apply keeps_ret|].
  apply keeps_bind; [apply processBlock_keeps|]. intros _.
  apply keeps_bind; [apply R_set_lastBlock|]. intros _.
  apply keeps_bind; [apply saveLastBlock_keeps|]. intros _. apply IH.
Qed.

Hypothesis R_tip : keeps R (call get_tip_block_number).

Lemma poll_keeps : keeps R (poll (W := W)).
Proof.
  unfold poll. apply keeps_try_catch; [|intros e; apply R_log].
  apply keeps_bind; [apply R_tip|]. intros tipHex.
  apply keeps_bind; [apply keeps_get|]. intros s.
  destruct (lastBlock s) as [last|].
  - destruct (num_leb _ _); [apply keeps_ret|].
    apply keeps_bind.
    + unfold for_heights. destruct (num_add last 1); [apply keeps_ret|].
      destruct (Math_min _ _); [apply keeps_ret|]. apply catch_up_keeps.
    + intros _. destruct (num_ltb _ _); [apply R_log|apply keeps_ret].
  - apply keeps_bind; [apply R_set_lastBlock|]. intros _.
    apply keeps_bind; [apply saveLastBlock_keeps|]. intros _. apply R_log.
Qed.

Lemma run_keeps k s : R s (run k s).
Proof.
  revert s. induction k as [|k IH]; intros s; simpl; [apply R_refl|].
  eapply R_trans; [apply poll_keeps|apply IH].
Qed.

End Keeps.

Section PriceInvariant.
Context {W : Type} {E : Env W}.

Lemma price_step_refl (s : state W) : price_step s s.
Proof. by left. Qed.

Lemma price_step_trans (s1 s2 s3 : state W) :
  price_step s1 s2 -> price_step s2 s3 -> price_step s1 s3.
Proof.
  intros [[H1 H1']|(x & H1 & Hx)] [[H2 H2']|(y & H2 & Hy)].
  - left. split; congruence.
  - right. eauto.
  - right. exists x. split; [congruence|done].
  - right. eauto.
Qed.

Lemma price_step_call {A} (f : W -> completion A * W) : keeps price_step (call f).
Proof. intros s. unfold call. destruct (f (world s)). by left. Qed.

Lemma price_step_log ev : keeps (W := W) price_step (log ev).
Proof. intros s. by left. Qed.

Lemma price_step_set_price x now :
  Float.ltb Float.zero x = true -> keeps (W := W) price_step (set_price x now).
Proof. intros Hx s. right. by exists x. Qed.

Lemma price_step_fetch : keeps price_step (fetchCkbPrice (W := W)).
Proof.
  apply fetchCkbPrice_keeps.
  - apply price_step_refl.
  - apply price_step_trans.
  - apply price_step_call.
  - apply price_step_call.
  - apply price_step_log.
  - intros. apply price_step_log.
  - intros. apply price_step_log.
  - apply price_step_set_price.
Qed.

Lemma price_step_run k (s : state W) : price_step s (run k s).
Proof.
  apply run_keeps.
  - apply price_step_refl.
  - apply price_step_trans.
  - intros. apply price_step_call.
  - intros. apply price_step_call.
  - apply price_step_call.
  - apply price_step_call.
  - intros. apply price_step_call.
  - apply price_step_log.
  - apply price_step_set_price.
  - intros. apply price_step_call.
  - intros n s'. by left.
  - apply price_step_call.
Qed.

(** X2.  The cached rate is never zero, negative or NaN, and it is never
    forgotten: if the cache holds no rate or a positive one, then after any
    number of cycles it holds no rate or a positive one, and a cache that
    held a rate still holds one.  So [fetchCkbPrice] hands [null] or a
    positive Number to [processBlock], whatever the feed answers. *)
Theorem price_cache_invariant k (s : state W) :
  null_or_positive (ckbPriceUsd s) ->
  null_or_positive (ckbPriceUsd (run k s)) /\
  (ckbPriceUsd s <> None -> ckbPriceUsd (run k s) <> None) /\
  forall r s', fetchCkbPrice (run k s) = (Normal r, s') -> null_or_positive r.
Proof.
  intros Hs.
  assert (Hstep : forall s1 s2 : state W, price_step s1 s2 ->
            null_or_positive (ckbPriceUsd s1) ->
            null_or_positive (ckbPriceUsd s2) /\
            (ckbPriceUsd s1 <> None -> ckbPriceUsd s2 <> None)).
  { intros s1 s2 [[H _]|(x & H & Hx)] H1; rewrite H; [done|].
    split; [done|]. intros _. discriminate. }
  destruct (Hstep _ _ (price_step_run k s) Hs) as [Hk Hkeep].
  split; [done|]. split; [done|]. intros r s' Hf.
  pose proof (price_step_fetch (run k s)) as Hq.
  destruct (Hstep _ _ Hq Hk) as [Hr _].
  assert (Hret : r = ckbPriceUsd s').
  { revert Hf. unfold fetchCkbPrice, now_ms. unfold_monad.
    destruct (Date_now (world (run k s))) as [now w1]. simpl.
    destruct (_ && _); simpl.
    - intros [= <- <-]. done.
    - destruct (coingecko w1) as [[[|x| |]|e] w2]; simpl;
        try (intros [= <- <-]; done).
      destruct (Float.ltb _ _); simpl; intros [= <- <-]; done. }
  rewrite Hf in Hr. simpl in Hr. by rewrite Hret.
Qed.

End PriceInvariant.

Section BlockPrice.
Context {W : Type} {E : Env W}.
Implicit Types (s : state W).

Lemma scan_step_refl P s : scan_step P s s.
Proof. split; [done|]. split; [done|]. apply logs_only_refl. Qed.

Lemma scan_step_trans P s1 s2 s3 :
  scan_step P s1 s2 -> scan_step P s2 s3 -> scan_step P s1 s3.
Proof.
  intros (H1 & H1' & L1) (H2 & H2' & L2).
  split; [congruence|]. split; [congruence|]. by eapply logs_only_trans.
Qed.

Lemma scan_step_call P {A} (f : W -> completion A * W) : keeps (scan_step P) (call f).
Proof.
  intros s. unfold call. destruct (f (world s)). simpl.
  split; [done|]. split; [done|]. split; [done|]. exists []. by rewrite app_nil_r.
Qed.

Lemma scan_step_log (P : event -> Prop) ev : P ev -> keeps (scan_step (W := W) P) (log ev).
Proof.
  intros HP s. simpl. split; [done|]. split; [done|]. split; [done|].
  exists [ev]. split; [done|]. by constructor.
Qed.

(** The scan of the transactions leaves the price cache alone; its alerts
    carry the rate it was started with. *)
Lemma scan_each_step blockNum priceUsd threshold txs :
  keeps (scan_step (W := W) (scan_line blockNum priceUsd))
        (scan_each blockNum priceUsd threshold txs).
Proof.
  apply scan_each_keeps.
  - apply scan_step_refl.
  - apply scan_step_trans.
  - intros. apply scan_step_call.
  - intros. apply scan_step_call.
  - intros. by apply scan_step_log.
  - intros. by apply scan_step_log.
  - intros. by apply scan_step_log.
  - intros. by apply scan_step_log.
Qed.

(** What [fetchCkbPrice] logs and returns: it returns what the cache holds
    when it is done. *)
Lemma fetchCkbPrice_trace s :
  exists evs r s',
    fetchCkbPrice s = (Normal r, s') /\ r = ckbPriceUsd s' /\
    lastBlock s' = lastBlock s /\
    console s' = console s ++ evs /\
    Forall price_line evs /\ (length (price_requests evs) <= 1)%nat /\
    alerts evs = [].
Proof.
  unfold fetchCkbPrice, now_ms. unfold_monad.
  destruct (Date_now (world s)) as [now w1]. simpl.
  destruct (_ && _); simpl.
  { eexists [], _, _. split; [reflexivity|]. simpl. rewrite app_nil_r.
    repeat split; auto. }
  destruct (coingecko w1) as [[[|x| |]|e] w2]; simpl;
    [| destruct (Float.ltb _ _); simpl | | |];
    [ eexists [EvPriceRequest], _, _
    | eexists [EvPriceRequest; EvPrice x], _, _
    | eexists [EvPriceRequest], _, _
    | eexists [EvPriceRequest], _, _
    | eexists [EvPriceRequest], _, _
    | eexists [EvPriceRequest; EvPriceFailed e], _, _ ];
    (split; [reflexivity|]); simpl; rewrite <- ?app_assoc;
    repeat split; auto; repeat constructor.
Qed.

Lemma price_requests_app evs1 evs2 :
  price_requests (evs1 ++ evs2) = price_requests evs1 ++ price_requests evs2.
Proof. apply omap_app. Qed.

Lemma scan_lines_no_request blockNum priceUsd evs :
  Forall (scan_line blockNum priceUsd) evs -> price_requests evs = [].
Proof.
  induction 1 as [|e evs He _ IH]; [done|].
  destruct e; simpl in He; try done; simpl; by rewrite ?IH.
Qed.

Lemma scan_lines_alerts blockNum priceUsd evs :
  Forall (scan_line blockNum priceUsd) evs ->
  Forall (fun a => alert_blockNum a = blockNum /\ alert_priceUsd a = priceUsd)
         (alerts evs).
Proof.
  induction 1 as [|e evs He _ IH]; [constructor|].
  destruct e; simpl in He; try done; simpl; try done. by constructor.
Qed.

(** The anatomy of [processBlock n]: the request for the block, then at
    most one refresh of the price, then the scan. *)
Lemma processBlock_anatomy n s :
  exists price scan,
    console (processBlock n s).2 = console s ++ EvGetBlock n :: price ++ scan /\
    lastBlock (processBlock n s).2 = lastBlock s /\
    Forall price_line price /\ (length (price_requests price) <= 1)%nat /\
    Forall (scan_line n (ckbPriceUsd (processBlock n s).2)) scan /\
    (forall e, (processBlock n s).1 = Throw e -> scan = []).
Proof.
  unfold processBlock. unfold_monad. simpl.
  destruct (get_block_by_number n (world s)) as [[[block|]|e] w1]; simpl.
  - set (s1 := {| ckbPriceUsd := _ |}).
    destruct (fetchCkbPrice_trace s1) as (price & r & s2 & Hf & -> & Hl & Hc & HP & Hn & _).
    rewrite Hf. destruct (whaleThresholdShannons (ckbPriceUsd s2)) as [th|e]; simpl.
    + rewrite scan_loop_drop by lia.
      destruct (scan_each_step n (ckbPriceUsd s2) th (drop 1 (transactions block)) s2)
        as (Hp & _ & Hl3 & (scan & Hc3 & HF)).
      destruct (scan_each_normal n (ckbPriceUsd s2) th (drop 1 (transactions block)) s2)
        as (s3 & Hs3).
      rewrite Hs3 in *. simpl in *. exists price, scan.
      split; [rewrite Hc3, Hc; subst s1; simpl; by rewrite <- !app_assoc|].
      split; [by rewrite Hl3, Hl|]. split; [done|]. split; [done|].
      split; [by rewrite Hp|]. intros e. discriminate.
    + exists price, []. rewrite app_nil_r.
      split; [rewrite Hc; subst s1; simpl; by rewrite <- app_assoc|]. split; [done|].
      split; [done|]. split; [done|]. split; [constructor|done].
  - exists [], []. repeat split; auto.
  - exists [], []. repeat split; auto.
Qed.

(** X3.  However many transactions a block holds, [processBlock] asks the
    price feed at most once, and every alert of the block carries one and
    the same rate: the one the cache holds when the block is done. *)
Theorem processBlock_one_rate n s :
  let s' := (processBlock n s).2 in
  let new := new_events s s' in
  (length (price_requests new) <= 1)%nat /\
  Forall (fun a => alert_blockNum a = n /\ alert_priceUsd a = ckbPriceUsd s')
         (alerts new).
Proof.
  intros s' new. subst s' new.
  destruct (processBlock_anatomy n s) as (price & scan & Hc & _ & HP & Hn & Hs & _).
  rewrite (new_events_app _ _ _ Hc).
  change (EvGetBlock n :: price ++ scan) with ([EvGetBlock n] ++ price ++ scan).
  rewrite !price_requests_app, !alerts_app.
  rewrite (scan_lines_no_request _ _ _ Hs). simpl. rewrite app_nil_r.
  split; [done|].
  assert (Ha : alerts price = []).
  { clear -HP. induction HP as [|e evs He _ IH]; [done|].
    destruct e; simpl in He; try done; simpl; done. }
  rewrite Ha. simpl. by apply scan_lines_alerts.
Qed.

End BlockPrice.

Section NoReplay.
Context {W : Type} {E : Env W}.
Implicit Types (s : state W).

Lemma alert_heights_app evs1 evs2 :
  alert_heights (evs1 ++ evs2) = alert_heights evs1 ++ alert_heights evs2.
Proof. unfold alert_heights. by rewrite alerts_app, map_app. Qed.

Lemma price_lines_no_alert evs : Forall price_line evs -> alert_heights evs = [].
Proof.
  induction 1 as [|e evs He _ IH]; [done|].
  destruct e; simpl in He; try done; simpl; done.
Qed.

Lemma scan_lines_heights n p evs :
  Forall (scan_line n p) evs -> Forall (fun h => h = n) (alert_heights evs).
Proof.
  intros H. apply scan_lines_alerts in H. unfold alert_heights.
  apply Forall_map. eapply Forall_impl; [exact H|]. by intros a [? _].
Qed.

Lemma constant_sorted n (hs : list Z) :
  Forall (fun h => h = n) hs -> StronglySorted Z.le hs.
Proof.
  induction 1 as [|h hs -> HF IH]; constructor; [done|].
  eapply Forall_impl; [exact HF|]. intros h ->. lia.
Qed.

(** The alerts of a batch are for heights the pointer moves over, in the
    order of the heights. *)
Lemma catch_up_alerts count n s :
  lastBlock s = Some (Int (n - 1)) ->
  exists evs q,
    console (catch_up count n s).2 = console s ++ evs /\
    lastBlock (catch_up count n s).2 = Some (Int q) /\
    n - 1 <= q /\
    Forall (fun h => n <= h <= q) (alert_heights evs) /\
    StronglySorted Z.le (alert_heights evs).
Proof.
  revert n s. induction count as [|count IH]; intros n s Hlast.
  - exists [], (n - 1). simpl. rewrite app_nil_r.
    repeat split; auto; try lia. constructor.
  - cbn [catch_up]. unfold mbind, M_bind, bind.
    destruct (processBlock_anatomy n s) as (price & scan & Hc1 & Hl1 & HP & _ & Hs & Hthrow).
    pose proof (price_lines_no_alert _ HP) as Hpa.
    pose proof (scan_lines_heights _ _ _ Hs) as Hsa.
    destruct (processBlock n s) as [[[]|e] s1]; simpl in Hc1, Hl1, Hthrow.
    + unfold set_lastBlock.
      match goal with |- context [saveLastBlock (Int n) ?x] => set (s1' := x) end.
      destruct (saveLastBlock_spec (Int n) s1') as [Hl2 Hsave].
      assert (Hev : exists ok, console (saveLastBlock (Int n) s1').2 =
                               console s1' ++ [EvSave (Int n) ok]).
      { destruct Hsave as [[_ H]|(e & _ & H)]; eauto. }
      destruct Hev as [ok Hc2].
      destruct (saveLastBlock (Int n) s1') as [[[]|e] s2]; simpl in Hl2, Hc2.
      * destruct (IH (n + 1) s2) as (evs & q & Hc3 & Hl3 & Hq & HF & HS).
        { rewrite Hl2. simpl. do 2 f_equal. lia. }
        exists (EvGetBlock n :: price ++ scan ++ EvSave (Int n) ok :: evs), q.
        split; [rewrite Hc3, Hc2; subst s1'; simpl; rewrite Hc1;
                by simplify_list_eq|].
        split; [done|]. split; [lia|].
        change (EvGetBlock n :: price ++ scan ++ EvSave (Int n) ok :: evs)
          with ([EvGetBlock n] ++ price ++ scan ++ [EvSave (Int n) ok] ++ evs).
        rewrite !alert_heights_app, Hpa. simpl.
        split.
        -- apply Forall_app. split.
           ++ eapply Forall_impl; [exact Hsa|]. intros h ->. lia.
           ++ eapply Forall_impl; [exact HF|]. intros h ?. simpl in *. lia.
        -- apply StronglySorted_app.
           split; [|split; [apply (constant_sorted n); exact Hsa|done]].
           intros h1 h2 H1 H2. rewrite Forall_forall in Hsa, HF.
           rewrite (Hsa h1 H1). specialize (HF h2 H2). simpl in HF. lia.
      * exists (EvGetBlock n :: price ++ scan ++ [EvSave (Int n) ok]), n. simpl.
        split; [rewrite Hc2; subst s1'; simpl; rewrite Hc1; by simplify_list_eq|].
        split; [by rewrite Hl2|]. split; [lia|].
        change (EvGetBlock n :: price ++ scan ++ [EvSave (Int n) ok])
          with ([EvGetBlock n] ++ price ++ scan ++ [EvSave (Int n) ok]).
        rewrite !alert_heights_app, Hpa. simpl. rewrite app_nil_r.
        split; [eapply Forall_impl; [exact Hsa|]; intros h ->; lia|].
        apply (constant_sorted n); exact Hsa.
    + rewrite (Hthrow e eq_refl) in *.
      exists (EvGetBlock n :: price), (n - 1).
      simpl. split; [rewrite Hc1; by rewrite app_nil_r|].
      split; [rewrite Hl1; exact Hlast|].
      split; [lia|].
      change (EvGetBlock n :: price) with ([EvGetBlock n] ++ price).
      rewrite alert_heights_app, Hpa. simpl. split; constructor.
Qed.

(** One cycle: its alerts are for heights above the pointer it started
    with and reached by the pointer it ends with. *)
Lemma poll_alerts s :
  exists evs,
    console (poll s).2 = console s ++ evs /\
    Forall (fun h => beyond (lastBlock s) h /\ reached (lastBlock (poll s).2) h)
           (alert_heights evs) /\
    StronglySorted Z.le (alert_heights evs).
Proof.
  unfold poll. unfold_monad.
  destruct (get_tip_block_number (world s)) as [[tipHex|e] w1]; simpl_state;
    [|exists [EvPollError e]; repeat split; constructor].
  destruct (lastBlock s) as [[|p]|] eqn:Hlast.
  - simpl. destruct (parseInt tipHex 16); simpl;
      exists []; rewrite app_nil_r; repeat split; constructor.
  - destruct (parseInt tipHex 16) as [|t]; simpl;
      [exists []; rewrite app_nil_r; repeat split; constructor|].
    destruct (t <=? p); simpl;
      [exists []; rewrite app_nil_r; repeat split; constructor|].
    set (s1 := {| ckbPriceUsd := _ |}).
    destruct (catch_up_alerts (Z.to_nat (Z.min t (p + 50) + 1 - (p + 1))) (p + 1) s1)
      as (evs & q & Hc & Hl & Hq & HF & HS).
    { subst s1. simpl. do 2 f_equal. lia. }
    assert (HF' : Forall (fun h => p < h /\ reached (Some (Int q)) h) (alert_heights evs)).
    { eapply Forall_impl; [exact HF|]. simpl. intros h ?. lia. }
    destruct (catch_up _ (p + 1) s1) as [[[]|e] s2]; simpl in Hc, Hl.
    + destruct (_ <? _); simpl.
      * eexists (evs ++ [_]). rewrite Hc. subst s1. simpl. rewrite <- app_assoc.
        split; [reflexivity|]. rewrite alert_heights_app, app_nil_r, Hl. done.
      * exists evs. rewrite Hl. done.
    + eexists (evs ++ [_]). rewrite Hc. subst s1. simpl. rewrite <- app_assoc.
      split; [reflexivity|]. rewrite alert_heights_app, app_nil_r, Hl. done.
  - unfold set_lastBlock.
    match goal with |- context [saveLastBlock ?n ?x] => set (s1 := x) end.
    destruct (saveLastBlock_spec (parseInt tipHex 16) s1)
      as [Hl [[Hr Hc]|(e & Hr & Hc)]];
      destruct (saveLastBlock (parseInt tipHex 16) s1) as [r s2];
      simpl in Hl, Hr, Hc; subst r; simpl_state;
      eexists [_; _]; rewrite Hc; subst s1; simpl; rewrite <- app_assoc;
      (split; [reflexivity|]); split; constructor.
Qed.


(** X5.  A cycle that finds no tip above the pointer does nothing: when the
    tip is at or below the pointer (the node fell behind, or the chain was
    reorganised to a shorter one), or is not a number, the cycle logs
    nothing, fetches nothing, and leaves pointer and price cache as they
    are; in particular the pointer is never moved back. *)
Theorem poll_idle s last tipHex :
  lastBlock s = Some last ->
  (get_tip_block_number (world s)).1 = Normal tipHex ->
  num_ltb last (parseInt tipHex 16) = false ->
  (poll s).1 = Normal tt /\
  console (poll s).2 = console s /\
  lastBlock (poll s).2 = Some last /\
  ckbPriceUsd (poll s).2 = ckbPriceUsd s /\
  priceFetchedAt (poll s).2 = priceFetchedAt s /\
  world (poll s).2 = (get_tip_block_number (world s)).2.
Proof.
  intros Hlast Htip Hlt. unfold poll. unfold_monad.
  destruct (get_tip_block_number (world s)) as [rt w1]. simpl in Htip. subst rt.
  simpl_state. rewrite Hlast.
  destruct last as [|p], (parseInt tipHex 16) as [|t]; simpl in *; try done.
  apply Z.ltb_ge in Hlt. destruct (Z.leb_spec t p); [done|lia].
Qed.

(** X6.  A pointer that is NaN is never left.  On a first run, a tip that
    does not parse as a hexadecimal number makes NaN the pointer, and [NaN]
    is what the state file is asked to hold.  From then on, whatever the
    node answers, no cycle fetches a block, saves or alerts: the only lines
    logged are the errors of cycles whose tip request failed. *)
Theorem nan_pointer_sticks :
  (forall s tipHex,
     lastBlock s = None ->
     (get_tip_block_number (world s)).1 = Normal tipHex ->
     parseInt tipHex 16 = NaN ->
     lastBlock (poll s).2 = Some NaN /\
     exists ok rest, new_events s (poll s).2 = EvSave NaN ok :: rest) /\
  (forall k s,
     lastBlock s = Some NaN ->
     lastBlock (run k s) = Some NaN /\
     Forall idle_line (new_events s (run k s))).
Proof.
  split.
  - intros s tipHex Hlast Htip Hparse. unfold poll. unfold_monad.
    destruct (get_tip_block_number (world s)) as [rt w1]. simpl in Htip. subst rt.
    simpl_state. rewrite Hlast, Hparse. unfold set_lastBlock.
    match goal with |- context [saveLastBlock ?n ?x] => set (s1 := x) end.
    destruct (saveLastBlock_spec NaN s1) as [Hl [[Hr Hc]|(e & Hr & Hc)]];
      destruct (saveLastBlock NaN s1) as [r s2];
      simpl in Hl, Hr, Hc; subst r; simpl_state; (split; [done|]).
    + exists true, [EvInit NaN]. apply new_events_app. simpl. rewrite Hc.
      subst s1. simpl. by rewrite <- app_assoc.
    + exists false, [EvPollError e]. apply new_events_app. simpl. rewrite Hc.
      subst s1. simpl. by rewrite <- app_assoc.
  - intros k s Hlast.
    cut (lastBlock (run k s) = Some NaN /\
         exists evs, console (run k s) = console s ++ evs /\ Forall idle_line evs).
    { intros (Hl & evs & Hc & HF). by rewrite (new_events_app _ _ _ Hc). }
    revert s Hlast. induction k as [|k IH]; intros s Hlast; simpl.
    { split; [done|]. exists []. by rewrite app_nil_r. }
    assert (Hpoll : lastBlock (poll s).2 = Some NaN /\
              exists evs, console (poll s).2 = console s ++ evs /\ Forall idle_line evs).
    { unfold poll. unfold_monad.
      destruct (get_tip_block_number (world s)) as [[tipHex|e] w1]; simpl_state.
      - rewrite Hlast. destruct (parseInt tipHex 16); simpl;
          (split; [done|]); exists []; by rewrite app_nil_r.
      - split; [done|]. exists [EvPollError e]. split; [done|]. by constructor. }
    destruct Hpoll as (Hl1 & evs1 & Hc1 & HF1).
    destruct (IH _ Hl1) as (Hl2 & evs2 & Hc2 & HF2).
    split; [done|]. exists (evs1 ++ evs2). rewrite Hc2, Hc1, <- app_assoc.
    split; [done|]. by apply Forall_app.
Qed.

End NoReplay.

Section Restart.
Implicit Types (s : state Sim) (w : Sim).

Lemma same_world_refl s : same_world s s.
Proof. done. Qed.

Lemma same_world_trans s1 s2 s3 :
  same_world s1 s2 -> same_world s2 s3 -> same_world s1 s3.
Proof. unfold same_world. congruence. Qed.

Lemma same_world_log ev : keeps same_world (log ev).
Proof. done. Qed.

(** Nothing but a write changes the scripted world. *)
Lemma processBlock_same_world n : keeps same_world (processBlock n).
Proof.
  apply processBlock_keeps; try done.
  - apply same_world_trans.
Qed.

Lemma saveLastBlock_sim n s :
  disk_ok (world s) ->
  exists s',
    saveLastBlock n s = (Normal tt, s') /\
    lastBlock s' = lastBlock s /\ ckbPriceUsd s' = ckbPriceUsd s /\
    console s' = console s ++ [EvSave n true] /\
    sim_file (world s') = Some (String_of_num n) /\
    sim_disk_ok (world s') = sim_disk_ok (world s) /\
    sim_tip (world s') = sim_tip (world s) /\
    sim_block (world s') = sim_block (world s) /\
    sim_feed (world s') = sim_feed (world s).
Proof.
  intros Hok. unfold saveLastBlock. unfold_monad. simpl. unfold sim_write.
  rewrite Hok. simpl. eexists. split; [reflexivity|]. done.
Qed.

Lemma loadLastBlock_sim w n :
  sim_file w = Some (String_of_num n) -> (loadLastBlock w).1 = resumable (Some n).
Proof.
  intros Hf. destruct n as [|z].
  - unfold loadLastBlock. simpl. rewrite Hf. done.
  - apply loadLastBlock_saved. simpl. by rewrite Hf.
Qed.

Lemma catch_up_in_step count n s :
  in_step s -> in_step (catch_up count n s).2.
Proof.
  revert n s. induction count as [|count IH]; intros n s [Hok Hs]; [done|].
  cbn [catch_up]. unfold mbind, M_bind, bind.
  pose proof (processBlock_same_world n s) as Hw. unfold same_world in Hw.
  destruct (processBlock_trace n s) as [Hl _].
  destruct (processBlock n s) as [[[]|e] s1]; simpl in Hw, Hl.
  - unfold set_lastBlock.
    match goal with |- context [saveLastBlock (Int n) ?x] => set (s1' := x) end.
    destruct (saveLastBlock_sim (Int n) s1') as (s2 & Hsave & Hl2 & _ & _ & Hf & Hd & _).
    { subst s1'. simpl. by rewrite Hw. }
    rewrite Hsave. apply IH. split.
    + intros c. rewrite Hd. subst s1'. simpl. rewrite Hw. apply Hok.
    + rewrite Hl2. subst s1'. exact (loadLastBlock_sim _ (Int n) Hf).
  - simpl. split; [by rewrite Hw|]. by rewrite Hw, Hl.
Qed.

Lemma poll_in_step s : in_step s -> in_step (poll s).2.
Proof.
  intros [Hok Hs]. unfold poll. unfold_monad. simpl.
  destruct (sim_tip (world s)) as [tipHex|e]; simpl; [|done].
  destruct (lastBlock s) as [last|] eqn:Hlast.
  - destruct (num_leb _ _); [done|].
    set (s1 := {| ckbPriceUsd := _ |}).
    assert (H1 : in_step s1) by (subst s1; split; simpl; by rewrite ?Hlast).
    assert (H2 : in_step (for_heights (num_add last 1)
                            (Math_min (parseInt tipHex 16) (num_add last 50)) s1).2).
    { unfold for_heights. destruct (num_add last 1); [done|].
      destruct (Math_min _ _); [done|]. by apply catch_up_in_step. }
    destruct (for_heights _ _ s1) as [[[]|e] s2]; simpl in *; [|done].
    destruct (num_ltb _ _); done.
  - unfold set_lastBlock.
    match goal with |- context [saveLastBlock ?n ?x] => set (s1 := x) end.
    destruct (saveLastBlock_sim (parseInt tipHex 16) s1)
      as (s2 & Hsave & Hl2 & _ & _ & Hf & Hd & _); [done|].
    rewrite Hsave. unfold in_step, disk_ok. simpl. split.
    + intros c. rewrite Hd. apply Hok.
    + rewrite Hl2. subst s1. exact (loadLastBlock_sim _ _ Hf).
Qed.

Lemma startup_sim w :
  world (startup w) = w /\ lastBlock (startup w) = (loadLastBlock w).1.
Proof.
  unfold startup, loadLastBlock. simpl.
  destruct (sim_file w) as [c|]; [|done].
  by destruct (_ && _).
Qed.

(** What [loadLastBlock] returns is a pointer to resume from. *)
Lemma loadLastBlock_resumable w :
  resumable (loadLastBlock w).1 = (loadLastBlock w).1.
Proof.
  rewrite loadLastBlock_read. destruct (readFileSync w).1 as [c|e]; [|done].
  destruct (parseInt (trim c) 10) as [|z]; [done|].
  destruct (0 <? z) eqn:Hz; simpl; by rewrite ?Hz.
Qed.


End Restart.

Section Progress.
Implicit Types (s : state Sim) (w : Sim).

Lemma safe_rate_null : safe_rate None.
Proof. by eexists. Qed.

(** In the scripted world [fetchCkbPrice] returns the rate it found in the
    cache or the one the feed gives. *)
Lemma fetchCkbPrice_sim s :
  exists r s',
    fetchCkbPrice s = (Normal r, s') /\ ckbPriceUsd s' = r /\
    (r = ckbPriceUsd s \/ refreshed (sim_feed (world s)) = r).
Proof.
  unfold fetchCkbPrice, now_ms. unfold_monad. simpl.
  destruct (_ && _); simpl;
    [eexists _, _; split; [reflexivity|]; simpl; auto|].
  unfold refreshed.
  destruct (sim_feed (world s)) as [[|x| |]|e]; simpl;
    [|destruct (Float.ltb Float.zero x); simpl|..];
    (eexists _, _; split; [reflexivity|]; simpl; auto).
Qed.

Lemma heights_fetched_lines evs n p :
  Forall (fun e => price_line e \/ scan_line n p e) evs -> heights_fetched evs = [].
Proof.
  induction 1 as [|e evs He _ IH]; [done|].
  destruct e; simpl in He; try (by destruct He); simpl; done.
Qed.

(** A block of a steady world is scanned to its end. *)
Lemma processBlock_steady tipHex n s :
  steady tipHex (world s) -> safe_rate (ckbPriceUsd s) ->
  exists evs s',
    processBlock n s = (Normal tt, s') /\
    world s' = world s /\ lastBlock s' = lastBlock s /\
    safe_rate (ckbPriceUsd s') /\
    console s' = console s ++ EvGetBlock n :: evs /\ heights_fetched evs = [].
Proof.
  intros (Hdisk & Htip & Hblock & Hfeed) Hsafe.
  pose proof (processBlock_same_world n s) as Hw. unfold same_world in Hw.
  destruct (processBlock_anatomy n s) as (price & scan & Hc & Hl & HP & _ & HS & _).
  assert (Hh : heights_fetched (price ++ scan) = []).
  { apply (heights_fetched_lines _ n (ckbPriceUsd (processBlock n s).2)).
    apply Forall_app. split; (eapply Forall_impl; [eassumption|]); simpl; auto. }
  cut ((processBlock n s).1 = Normal tt /\ safe_rate (ckbPriceUsd (processBlock n s).2)).
  { intros [Hr Hs]. destruct (processBlock n s) as [r s']. simpl in *. subst r.
    exists (price ++ scan), s'. done. }
  clear Hc Hl HP HS Hh Hw price scan.
  unfold processBlock. unfold_monad. simpl.
  destruct (Hblock n) as [[block|] ->]; simpl; [|done].
  set (s1 := {| ckbPriceUsd := _ |}).
  destruct (fetchCkbPrice_sim s1) as (r & s2 & Hf & Hp & Hr). rewrite Hf.
  assert (Hsafe2 : safe_rate r).
  { destruct Hr as [->|Hr]; [done|]. subst s1. simpl in Hr.
    destruct r as [x|]; [by apply Hfeed|apply safe_rate_null]. }
  destruct Hsafe2 as [th Hth]. rewrite Hth. simpl.
  rewrite scan_loop_drop by lia.
  destruct (scan_each_normal n r th (drop 1 (transactions block)) s2) as (s3 & Hs3).
  destruct (scan_each_step n r th (drop 1 (transactions block)) s2) as (Hp3 & _).
  rewrite Hs3 in *. simpl in *. split; [done|]. rewrite Hp3, Hp. by exists th.
Qed.

(** A batch in a steady world does every height it was given. *)
Lemma catch_up_steady tipHex count n s :
  steady tipHex (world s) -> safe_rate (ckbPriceUsd s) ->
  (count = 0%nat -> lastBlock s = Some (Int (n - 1))) ->
  exists evs s',
    catch_up count n s = (Normal tt, s') /\
    steady tipHex (world s') /\ safe_rate (ckbPriceUsd s') /\
    lastBlock s' = Some (Int (n - 1 + Z.of_nat count)) /\
    console s' = console s ++ evs /\
    heights_fetched evs = seqZ n (Z.of_nat count).
Proof.
  revert n s. induction count as [|count IH]; intros n s Hst Hsafe Hlast.
  - exists [], s. simpl. rewrite app_nil_r, Z.add_0_r. by rewrite Hlast.
  - cbn [catch_up]. unfold mbind, M_bind, bind.
    destruct (processBlock_steady tipHex n s Hst Hsafe)
      as (evs1 & s1 & Hrun & Hw & Hl & Hsafe1 & Hc1 & Hh1).
    rewrite Hrun. unfold set_lastBlock.
    match goal with |- context [saveLastBlock (Int n) ?x] => set (s1' := x) end.
    assert (Hst1 : steady tipHex (world s1')) by (subst s1'; simpl; by rewrite Hw).
    destruct (saveLastBlock_sim (Int n) s1' (proj1 Hst1))
      as (s2 & Hsave & Hl2 & Hp2 & Hc2 & _ & Hd & Ht & Hb & Hf).
    rewrite Hsave.
    destruct (IH (n + 1) s2) as (evs3 & s3 & Hrun3 & Hst3 & Hsafe3 & Hl3 & Hc3 & Hh3).
    { destruct Hst1 as (H1 & H2 & H3 & H4). unfold steady, disk_ok.
      rewrite Hd, Ht, Hb, Hf. done. }
    { by rewrite Hp2. }
    { intros _. rewrite Hl2. subst s1'. simpl. do 2 f_equal. lia. }
    exists (EvGetBlock n :: evs1 ++ EvSave (Int n) true :: evs3), s3.
    split; [done|]. split; [done|]. split; [done|].
    split; [rewrite Hl3; do 2 f_equal; lia|].
    split.
    + rewrite Hc3, Hc2. subst s1'. simpl. rewrite Hc1. by simplify_list_eq.
    + change (EvGetBlock n :: evs1 ++ EvSave (Int n) true :: evs3)
        with ([EvGetBlock n] ++ evs1 ++ [EvSave (Int n) true] ++ evs3).
      rewrite !heights_fetched_app, Hh1, Hh3. simpl.
      rewrite (seqZ_cons n) by lia. f_equal. f_equal; lia.
Qed.

(** One cycle in a steady world: the pointer moves to the tip, by at most
    50 heights, and every height on the way is fetched once. *)
Lemma poll_steady tipHex t p s :
  steady tipHex (world s) -> safe_rate (ckbPriceUsd s) ->
  parseInt tipHex 16 = Int t -> lastBlock s = Some (Int p) ->
  let q := Z.max p (Z.min t (p + 50)) in
  steady tipHex (world (poll s).2) /\ safe_rate (ckbPriceUsd (poll s).2) /\
  lastBlock (poll s).2 = Some (Int q) /\
  heights_fetched (new_events s (poll s).2) = seqZ (p + 1) (q - p).
Proof.
  intros Hst Hsafe Hparse Hlast q. subst q.
  pose proof Hst as (_ & Htip & _).
  unfold poll. unfold_monad. simpl. rewrite Htip. simpl. rewrite Hlast, Hparse.
  simpl. destruct (Z.leb_spec t p) as [Hle|Hlt]; simpl.
  - replace (Z.max p (Z.min t (p + 50))) with p by lia.
    rewrite Z.sub_diag. unfold new_events. simpl. rewrite drop_all.
    destruct s; done.
  - replace (Z.max p (Z.min t (p + 50))) with (Z.min t (p + 50)) by lia.
    set (s1 := {| ckbPriceUsd := _ |}).
    destruct (catch_up_steady tipHex (Z.to_nat (Z.min t (p + 50) + 1 - (p + 1)))
                (p + 1) s1) as (evs & s2 & Hrun & Hst2 & Hsafe2 & Hl2 & Hc2 & Hh2);
      [done|done|intros _; subst s1; simpl; do 2 f_equal; lia|].
    rewrite Hrun.
    assert (Hq : p + 1 - 1 + Z.of_nat (Z.to_nat (Z.min t (p + 50) + 1 - (p + 1))) =
                 Z.min t (p + 50)) by lia.
    rewrite Hq in Hl2.
    replace (Z.of_nat (Z.to_nat (Z.min t (p + 50) + 1 - (p + 1))))
      with (Z.min t (p + 50) - p) in Hh2 by lia.
    destruct (_ <? _); simpl.
    + split; [done|]. split; [done|]. split; [done|].
      erewrite new_events_app; [|simpl; rewrite Hc2; subst s1; simpl;
                                 by rewrite <- app_assoc].
      by rewrite heights_fetched_app, Hh2, app_nil_r.
    + split; [done|]. split; [done|]. split; [done|].
      erewrite new_events_app; [|rewrite Hc2; subst s1; simpl; done]. done.
Qed.

(** The pointer and the heights fetched after [k] steady cycles. *)
Lemma run_steady tipHex t p k s :
  steady tipHex (world s) -> safe_rate (ckbPriceUsd s) ->
  parseInt tipHex 16 = Int t -> lastBlock s = Some (Int p) ->
  lastBlock (run k s) = Some (Int (Z.max p (Z.min t (p + 50 * Z.of_nat k)))) /\
  exists evs, console (run k s) = console s ++ evs /\
    heights_fetched evs =
    seqZ (p + 1) (Z.max p (Z.min t (p + 50 * Z.of_nat k)) - p).
Proof.
  intros Hst Hsafe Hparse Hlast.
  revert p s Hst Hsafe Hlast. induction k as [|k IH]; intros p s Hst Hsafe Hlast.
  - replace (Z.max p (Z.min t (p + 50 * Z.of_nat 0))) with p by lia.
    cbn [run]. split; [done|]. exists []. rewrite app_nil_r, Z.sub_diag. done.
  - cbn [run].
    destruct (poll_steady tipHex t p s Hst Hsafe Hparse Hlast) as (Hst1 & Hsafe1 & Hl1 & Hh1).
    set (q1 := Z.max p (Z.min t (p + 50))) in *.
    destruct (IH q1 (poll s).2 Hst1 Hsafe1 Hl1) as (Hl2 & evs2 & Hc2 & Hh2).
    assert (Hq : Z.max q1 (Z.min t (q1 + 50 * Z.of_nat k)) =
                 Z.max p (Z.min t (p + 50 * Z.of_nat (S k)))) by lia.
    rewrite Hq in Hl2, Hh2. split; [done|].
    assert (Hpre : exists evs1, console (poll s).2 = console s ++ evs1).
    { destruct (poll_alerts s) as (evs1 & Hc1 & _). eauto. }
    destruct Hpre as [evs1 Hc1]. rewrite (new_events_app _ _ _ Hc1) in Hh1.
    exists (evs1 ++ evs2). rewrite Hc2, Hc1, <- app_assoc. split; [done|].
    rewrite heights_fetched_app, Hh1, Hh2.
    set (q2 := Z.max p (Z.min t (p + 50 * Z.of_nat (S k)))) in *.
    replace (q2 - p) with ((q1 - p) + (q2 - q1)) by lia.
    rewrite seqZ_app by lia. do 2 f_equal. lia.
Qed.


End Progress.

Section ThresholdRange.

Lemma ceil_pow2_positive n e : 0 < n -> 1 <= ceil_pow2 n e.
Proof.
  intros Hn. unfold ceil_pow2. destruct (Z.leb_spec 0 e) as [He|He].
  - assert (0 < 2 ^ e) by (apply Z.pow_pos_nonneg; lia). nia.
  - assert (HP : 0 < 2 ^ (- e)) by (apply Z.pow_pos_nonneg; lia).
    assert (- n / 2 ^ (- e) < 0) by (apply Z.div_lt_upper_bound; lia). lia.
Qed.

(** X9.  The threshold is a whole number of CKB and never negative.  At
    every finite rate it is at least 1 CKB; it is 0, so that every
    transaction qualifies, exactly when the rate is +Infinity. *)
Theorem whaleThresholdShannons_range priceUsd threshold :
  (forall x, priceUsd = Some x -> valid_binary 53 1024 x = true) ->
  whaleThresholdShannons priceUsd = Normal threshold ->
  exists ckb,
    threshold = ckb * SHANNON_PER_CKB /\ 0 <= ckb /\
    (ckb = 0 <-> priceUsd = Some (S754_infinity false)).
Proof.
  intros Hvalid Hth.
  assert (Hfallback : whaleThresholdShannons priceUsd = Normal (10000000 * SHANNON_PER_CKB) ->
            priceUsd <> Some (S754_infinity false) ->
            exists ckb, threshold = ckb * SHANNON_PER_CKB /\ 0 <= ckb /\
              (ckb = 0 <-> priceUsd = Some (S754_infinity false))).
  { intros H Hne. rewrite H in Hth. injection Hth as <-. exists 10000000.
    split; [done|]. split; [lia|]. split; [lia|done]. }
  destruct priceUsd as [x|]; [|by apply Hfallback].
  specialize (Hvalid x eq_refl).
  destruct x as [[]|[]| |[] m e]; try (by apply Hfallback).
  - simpl in Hth. injection Hth as <-. exists 0. done.
  - destruct (whaleThresholdShannons_finite m e Hvalid) as (n & k & _ & _ & H).
    cbv zeta in H. rewrite H in Hth.
    destruct (_ <=? 971); [|discriminate]. injection Hth as <-.
    eexists. split; [reflexivity|].
    pose proof (ceil_pow2_positive (Zpos n) (-35 - (e + Zpos (digits2_pos m)) + k)
                  ltac:(lia)) as Hpos.
    split; [lia|]. split; [lia|discriminate].
Qed.

End ThresholdRange.

Lemma whaleThresholdShannons_range_witness :
  exists ckb,
    20000000 * SHANNON_PER_CKB = ckb * SHANNON_PER_CKB /\ 0 <= ckb /\
    (ckb = 0 <-> Some price_0_01 = Some (S754_infinity false)).
Proof.
  apply (whaleThresholdShannons_range (Some price_0_01)); [|reflexivity].
  intros x [= <-]. reflexivity.
Defined.

Section Strings.

Lemma append_nil_l (s : string) : "" +:+ s = s.
Proof. done. Qed.

Lemma append_cons c (a b : string) : String c a +:+ b = String c (a +:+ b).
Proof. done. Qed.

Lemma append_assoc (a b c : string) : (a +:+ b) +:+ c = a +:+ (b +:+ c).
Proof. induction a as [|x a IH]; [done|]. by rewrite !append_cons, IH. Qed.

End Strings.

Section LockEquality.
Context {W : Type} {E : Env W}.

Lemma is_alphanumeric_not_quote c :
  is_alphanumeric c = true -> c <> ascii_of_nat 34.
Proof. intros H ->. discriminate. Qed.

(** Text up to a quote: two such texts that agree are the same up to the
    quote and after it. *)
Lemma plain_until_quote a b r1 r2 :
  plain a = true -> plain b = true ->
  a +:+ String (ascii_of_nat 34) r1 = b +:+ String (ascii_of_nat 34) r2 ->
  a = b /\ r1 = r2.
Proof.
  revert b. induction a as [|c a IH]; intros [|d b] Ha Hb Heq; simpl in *.
  - by injection Heq.
  - injection Heq as <- _. by destruct (andb_prop _ _ Hb) as [? _].
  - injection Heq as -> _. by destruct (andb_prop _ _ Ha) as [? _].
  - injection Heq as -> Heq.
    apply andb_prop in Ha as [_ Ha]. apply andb_prop in Hb as [_ Hb].
    destruct (IH b Ha Hb Heq) as [-> ->]. done.
Qed.

(** On locks as the node sends them, the serialisation determines the
    lock. *)
Lemma JSON_stringify_inj l1 l2 :
  plain_lock l1 -> plain_lock l2 ->
  JSON_stringify l1 = JSON_stringify l2 -> l1 = l2.
Proof.
  intros (Hc1 & Hh1 & Ha1) (Hc2 & Hh2 & Ha2).
  destruct l1 as [c1 h1 a1], l2 as [c2 h2 a2]. simpl in *.
  unfold JSON_stringify, JSON_field, quote.
  rewrite !append_assoc, !append_cons, !append_nil_l. intros Heq.
  repeat (rewrite ?append_cons, ?append_nil_l in Heq; injection Heq as Heq).
  apply plain_until_quote in Heq as [-> Heq]; [|done|done].
  repeat (rewrite ?append_cons, ?append_nil_l in Heq; injection Heq as Heq).
  apply plain_until_quote in Heq as [-> Heq]; [|done|done].
  repeat (rewrite ?append_cons, ?append_nil_l in Heq; injection Heq as Heq).
  apply plain_until_quote in Heq as [-> _]; [|done|done].
  done.
Qed.

(** X10.  A self-transfer is a transaction that pays only to locks it
    spends from.  When the lookups are answered and at least one input
    resolves to a lock, [isSelfTransfer] returns [true] exactly when the
    lock of every output equals the lock of a cell one of the inputs
    spends: the comparison of serialised locks is the comparison of the
    locks, for locks whose fields are hex strings and names. *)
Theorem isSelfTransfer_lock_equality tx (s : state W) prevTxResults :
  (Promise_all
     (map (fun inp => call (get_transaction (tx_hash (previous_output inp))))
          (inputs tx)) s).1 = Normal prevTxResults ->
  (exists lk, spent_lock (inputs tx) prevTxResults lk) ->
  (forall lk, spent_lock (inputs tx) prevTxResults lk -> plain_lock lk) ->
  (forall o, o ∈ outputs tx -> plain_lock (lock o)) ->
  exists b,
    (isSelfTransfer tx s).1 = Normal b /\
    (b = true <->
     forall o, o ∈ outputs tx -> spent_lock (inputs tx) prevTxResults (lock o)).
Proof.
  intros Hres [lk0 Hlk0] Hin Hout. unfold isSelfTransfer. unfold_monad.
  destruct (Promise_all _ s) as [r s1]. simpl in Hres. subst r.
  set (inputLocks := collect_locks (inputs tx) prevTxResults ∅).
  assert (Hmem : forall l, JSON_stringify l ∈ inputLocks ->
            plain_lock l -> spent_lock (inputs tx) prevTxResults l).
  { intros l Hl Hp. apply elem_of_collect_locks in Hl as [Hl|(j & inp & res & lk & H1 & H2 & H3 & H4)];
      [by apply elem_of_empty in Hl|].
    assert (Hsp : spent_lock (inputs tx) prevTxResults lk) by (exists j, inp, res; done).
    apply JSON_stringify_inj in H4; [by subst|done|by apply Hin]. }
  assert (Hmem' : forall l, spent_lock (inputs tx) prevTxResults l ->
            JSON_stringify l ∈ inputLocks).
  { intros l (j & inp & res & H1 & H2 & H3). apply elem_of_collect_locks.
    right. exists j, inp, res, l. done. }
  destruct (bool_decide (size inputLocks = 0%nat)) eqn:Hsize; simpl.
  - apply bool_decide_eq_true in Hsize. apply size_empty_iff in Hsize.
    specialize (Hmem' lk0 Hlk0). rewrite Hsize in Hmem'.
    by apply elem_of_empty in Hmem'.
  - eexists. split; [reflexivity|]. rewrite forallb_forall. split.
    + intros H o Ho. apply Hmem; [|by apply Hout].
      apply list_elem_of_In in Ho. specialize (H o Ho).
      by apply bool_decide_eq_true in H.
    + intros H o Ho. apply bool_decide_eq_true. apply Hmem', H.
      by apply list_elem_of_In.
Qed.

End LockEquality.

Section LenientFile.
Context {W : Type} {E : Env W}.

Lemma trimStart_white ws s :
  all_white_space ws = true -> trimStart (ws +:+ s) = trimStart s.
Proof.
  induction ws as [|c ws IH]; [done|]. simpl. intros H.
  apply andb_prop in H as [Hc Hws]. rewrite ?append_cons. simpl. rewrite Hc. by apply IH.
Qed.

Lemma decimal_digit_not_white c : is_decimal_digit c = true -> is_white_space c = false.
Proof.
  unfold is_decimal_digit, is_white_space. intros H.
  apply andb_prop in H as [H1 H2]. apply Z.leb_le in H1. apply Z.leb_le in H2.
  apply orb_false_iff. split.
  - apply andb_false_iff. right. apply Nat.leb_gt. lia.
  - apply Nat.eqb_neq. lia.
Qed.

Lemma string_of_uint_digits d : all_digits (NilEmpty.string_of_uint d) = true.
Proof. induction d; simpl; done. Qed.

Lemma trimEnd_digits a b :
  all_digits a = true -> a <> EmptyString ->
  trimEnd (a +:+ b) = a +:+ trimEnd b /\ trimStart (a +:+ b) = a +:+ b.
Proof.
  intros Ha Hne. split.
  - clear Hne. induction a as [|c a IH]; [done|]. simpl in Ha.
    apply andb_prop in Ha as [Hc Ha]. rewrite ?append_cons. simpl. rewrite (IH Ha).
    rewrite (decimal_digit_not_white c Hc). by destruct (a +:+ trimEnd b).
  - destruct a as [|c a]; [done|]. simpl in Ha. apply andb_prop in Ha as [Hc _].
    rewrite ?append_cons. simpl. by rewrite (decimal_digit_not_white c Hc).
Qed.

Lemma trimEnd_no_digit_ahead s : no_digit_ahead s -> no_digit_ahead (trimEnd s).
Proof.
  intros H. destruct (trimEnd_head s) as [->|(c & rest & rest' & -> & ->)]; done.
Qed.

Lemma parse_digits_stop acc r :
  no_digit_ahead r -> parse_digits 10 true acc r = Some acc.
Proof.
  destruct r as [|c r]; [done|]. simpl. intros H.
  pose proof (not_decimal_digit c H) as Hd.
  destruct (digit_value c) as [d|]; [|done]. by rewrite Hd.
Qed.

Lemma parse_uint_acc_ahead d a r :
  no_digit_ahead r ->
  parse_digits 10 true (Zpos a) (NilEmpty.string_of_uint d +:+ r) =
  Some (Zpos (Pos.of_uint_acc d a)).
Proof.
  intros Hr. revert a. induction d; intros a; cbn [NilEmpty.string_of_uint];
    rewrite ?append_cons, ?append_nil_l; [by apply parse_digits_stop|..];
    simpl;
    match goal with
    | |- parse_digits 10 true (?p * 10 + ?k) _ = Some (Z.pos (Pos.of_uint_acc d ?y)) =>
        let k' := eval vm_compute in k in
        change k with k'; replace (p * 10 + k') with (Z.pos y) by lia; apply IHd
    end.
Qed.

Lemma parse_uint_ahead d seen r :
  no_digit_ahead r -> seen = true \/ d <> Decimal.Nil ->
  parse_digits 10 seen 0 (NilEmpty.string_of_uint d +:+ r) =
  Some (Z.of_N (Pos.of_uint d)).
Proof.
  intros Hr. revert seen. induction d; intros seen Hs; cbn [NilEmpty.string_of_uint];
    rewrite ?append_cons, ?append_nil_l.
  - destruct Hs as [->|Hs]; [|done]. by apply parse_digits_stop.
  - cbn [parse_digits digit_value]. simpl. apply IHd. by left.
  - simpl. apply (parse_uint_acc_ahead d 1 r Hr).
  - simpl. apply (parse_uint_acc_ahead d 2 r Hr).
  - simpl. apply (parse_uint_acc_ahead d 3 r Hr).
  - simpl. apply (parse_uint_acc_ahead d 4 r Hr).
  - simpl. apply (parse_uint_acc_ahead d 5 r Hr).
  - simpl. apply (parse_uint_acc_ahead d 6 r Hr).
  - simpl. apply (parse_uint_acc_ahead d 7 r Hr).
  - simpl. apply (parse_uint_acc_ahead d 8 r Hr).
  - simpl. apply (parse_uint_acc_ahead d 9 r Hr).
Qed.

(** [parseInt] reads the leading digits and ignores what follows. *)
Lemma parseInt_leading_digits p ws rest :
  all_white_space ws = true -> no_digit_ahead rest ->
  parseInt (trim (ws +:+ String_of_num (Int (Zpos p)) +:+ rest)) 10 = Int (Zpos p).
Proof.
  intros Hws Hrest. unfold trim. rewrite trimStart_white by done.
  simpl String_of_num. unfold NilZero.string_of_uint.
  pose proof (Unsigned.to_uint_nonnil p) as Hnn.
  pose proof (Unsigned.of_to p) as Hof.
  set (d := Pos.to_uint p) in *.
  assert (Hd : (match d with Decimal.Nil => "0"%string | _ => NilEmpty.string_of_uint d end)
               = NilEmpty.string_of_uint d) by (by destruct d).
  rewrite Hd.
  assert (Hne : NilEmpty.string_of_uint d <> EmptyString) by (by destruct d).
  destruct (trimEnd_digits _ rest (string_of_uint_digits d) Hne) as [_ Hts].
  rewrite Hts.
  destruct (trimEnd_digits _ rest (string_of_uint_digits d) Hne) as [Hte _].
  rewrite Hte.
  destruct (trimEnd_digits _ (trimEnd rest) (string_of_uint_digits d) Hne) as [_ Hts2].
  unfold parseInt. rewrite Hts2.
  pose proof (parse_uint_ahead d false (trimEnd rest)
                (trimEnd_no_digit_ahead _ Hrest) (or_intror Hnn)) as Hp.
  assert (Hsign : forall c r, NilEmpty.string_of_uint d +:+ trimEnd rest = String c r ->
            c <> "-"%char /\ c <> "+"%char).
  { intros c r. pose proof (string_of_uint_digits d) as Hall.
    destruct (NilEmpty.string_of_uint d) as [|c' r']; [done|].
    rewrite ?append_cons. intros [= <- <-]. simpl in Hall.
    apply andb_prop in Hall as [Hc _]. split; intros ->; discriminate. }
  destruct (NilEmpty.string_of_uint d +:+ trimEnd rest) as [|c r] eqn:Heq.
  - simpl in Hp. discriminate.
  - destruct (Hsign c r eq_refl) as [Hm Hpl].
    transitivity (match parse_digits 10 false 0 (String c r) with
                  | Some v => Int (1 * v)
                  | None => NaN
                  end); [|rewrite Hp, Hof; f_equal].
    clear -Hm Hpl.
    destruct c as [[] [] [] [] [] [] [] []]; try reflexivity;
      first [by destruct Hm|by destruct Hpl].
Qed.


End LenientFile.


Section Text.

Lemma length_append (a b : string) :
  String.length (a +:+ b) = (String.length a + String.length b)%nat.
Proof. induction a as [|c a IH]; [done|]. rewrite ?append_cons. simpl. by rewrite IH. Qed.

Lemma free_of_append c (a b : string) :
  free_of c (a +:+ b) = free_of c a && free_of c b.
Proof.
  induction a as [|x a IH]; [done|]. rewrite ?append_cons. simpl.
  by rewrite IH, andb_assoc.
Qed.

Lemma free_of_substring c n m s :
  free_of c s = true -> free_of c (substring n m s) = true.
Proof.
  revert n m. induction s as [|x s IH]; intros n m H.
  - by destruct n, m.
  - simpl in H. apply andb_prop in H as [Hx Hs].
    destruct n as [|n]; [destruct m as [|m]; [done|]|]; simpl.
    + by rewrite Hx, IH.
    + by apply IH.
Qed.

Lemma free_of_digits c s :
  is_decimal_digit c = false -> all_digits s = true -> free_of c s = true.
Proof.
  intros Hc. induction s as [|x s IH]; [done|]. simpl. intros H.
  apply andb_prop in H as [Hx Hs]. rewrite (IH Hs), andb_true_r.
  destruct (Ascii.eqb_spec x c) as [->|]; [congruence|done].
Qed.

Lemma decimal_pos p : decimal (Zpos p) = NilZero.string_of_uint (Pos.to_uint p).
Proof. done. Qed.

Lemma decimal_nonneg_digits z : 0 <= z -> all_digits (decimal z) = true.
Proof.
  intros Hz. destruct z as [|p|p]; [done| |lia]. rewrite decimal_pos.
  unfold NilZero.string_of_uint.
  pose proof (string_of_uint_digits (Pos.to_uint p)). by destruct (Pos.to_uint p).
Qed.

Lemma decimal_opp p : decimal (Zneg p) = "-" +:+ decimal (Zpos p).
Proof. done. Qed.

Lemma decimal_nonempty z : decimal z <> EmptyString.
Proof.
  destruct z as [|p|p]; [done| |done]. rewrite decimal_pos.
  unfold NilZero.string_of_uint.
  pose proof (Unsigned.to_uint_nonnil p). by destruct (Pos.to_uint p).
Qed.

Lemma free_of_decimal c z :
  is_decimal_digit c = false -> c <> "-"%char -> free_of c (decimal z) = true.
Proof.
  intros Hc Hm. destruct z as [|p|p].
  - apply free_of_digits; done.
  - apply free_of_digits; [done|]. by apply decimal_nonneg_digits.
  - rewrite decimal_opp, free_of_append. apply andb_true_intro. split.
    + cbn [free_of]. destruct (Ascii.eqb_spec "-" c) as [<-|]; done.
    + apply free_of_digits; [done|]. by apply decimal_nonneg_digits.
Qed.

Lemma free_of_group_digits c s :
  c <> ","%char -> free_of c s = true -> free_of c (group_digits s) = true.
Proof.
  intros Hc. induction s as [|x s IH]; [done|]. simpl. intros H.
  apply andb_prop in H as [Hx Hs]. rewrite Hx. simpl.
  destruct (_ && _); [|by apply IH].
  rewrite ?append_cons, ?append_nil_l. cbn [free_of]. rewrite (IH Hs), andb_true_r.
  destruct (Ascii.eqb_spec "," c) as [<-|]; done.
Qed.

Lemma free_of_toLocaleString c z :
  is_decimal_digit c = false -> c <> "-"%char -> c <> ","%char ->
  free_of c (toLocaleString z) = true.
Proof.
  intros Hc Hm Hcomma. unfold toLocaleString.
  destruct (z <? 0).
  - rewrite free_of_append. apply andb_true_intro. split.
    + cbn [free_of]. destruct (Ascii.eqb_spec "-" c) as [<-|]; done.
    + apply free_of_group_digits; [done|]. by apply free_of_decimal.
  - apply free_of_group_digits; [done|]. by apply free_of_decimal.
Qed.

Lemma free_of_zeros c n : c <> "0"%char -> free_of c (zeros n) = true.
Proof.
  intros Hc. induction n as [|n IH]; [done|]. cbn [zeros free_of].
  rewrite IH, andb_true_r. destruct (Ascii.eqb_spec "0" c) as [<-|]; done.
Qed.

(** The commas are the only thing the grouping adds. *)
Lemma strip_commas_group_digits s :
  free_of "," s = true -> strip_commas (group_digits s) = s.
Proof.
  induction s as [|x s IH]; [done|]. simpl. intros H.
  apply andb_prop in H as [Hx Hs].
  destruct (Ascii.eqb x ","); [done|]. f_equal.
  destruct (_ && _); [|by apply IH].
  rewrite ?append_cons, ?append_nil_l. simpl. by apply IH.
Qed.

Lemma strip_commas_toLocaleString z : strip_commas (toLocaleString z) = decimal z.
Proof.
  unfold toLocaleString. destruct z as [|p|p]; simpl (_ <? _).
  - done.
  - apply strip_commas_group_digits. by apply free_of_decimal.
  - rewrite ?append_cons, ?append_nil_l. simpl strip_commas. simpl Z.opp.
    rewrite strip_commas_group_digits by (by apply free_of_decimal). done.
Qed.

(** A text without line breaks is one line; a line break ends a line. *)
Lemma lines_one s : free_of (ascii_of_nat 10) s = true -> lines s = [s].
Proof.
  induction s as [|c s IH]; [done|]. simpl. intros H.
  apply andb_prop in H as [Hc Hs]. apply negb_true_iff in Hc. rewrite Hc.
  by rewrite (IH Hs).
Qed.

Lemma lines_cons l rest :
  free_of (ascii_of_nat 10) l = true ->
  lines (l +:+ LF +:+ rest) = l :: lines rest.
Proof.
  induction l as [|c l IH]; [done|]. simpl. intros H.
  apply andb_prop in H as [Hc Hs]. apply negb_true_iff in Hc.
  rewrite ?append_cons. simpl. rewrite Hc. by rewrite (IH Hs).
Qed.

Lemma lines_concat ls :
  ls <> [] -> Forall (fun l => free_of (ascii_of_nat 10) l = true) ls ->
  lines (String.concat LF ls) = ls.
Proof.
  intros Hne HF. induction HF as [|l ls Hl HF IH]; [done|].
  destruct ls as [|l' ls']; [by apply lines_one|].
  cbn [String.concat]. rewrite lines_cons by done. f_equal. by apply IH.
Qed.

Lemma trimEnd_append a b :
  trimEnd b <> EmptyString -> trimEnd (a +:+ b) = a +:+ trimEnd b.
Proof.
  intros Hb. induction a as [|c a IH]; [done|]. rewrite ?append_cons. simpl.
  rewrite IH. destruct (a +:+ trimEnd b) eqn:Heq; [|done].
  destruct a; [by rewrite append_nil_l in Heq|]. by rewrite append_cons in Heq.
Qed.

End Text.

Section Hash.

Lemma substring_all n s : (String.length s <= n)%nat -> substring 0 n s = s.
Proof.
  revert n. induction s as [|c s IH]; intros n Hn; [by destruct n|].
  destruct n as [|n]; simpl in *; [lia|]. rewrite IH by lia. done.
Qed.

Lemma substring_prefix a b : substring 0 (String.length a) (a +:+ b) = a.
Proof.
  induction a as [|c a IH]; [by destruct b|]. rewrite ?append_cons. simpl.
  by rewrite IH.
Qed.

Lemma substring_suffix a b :
  substring (String.length a) (String.length b) (a +:+ b) = b.
Proof.
  induction a as [|c a IH]; [apply substring_all; simpl; lia|].
  rewrite ?append_cons. simpl. apply IH.
Qed.

Lemma length_substring n m s :
  String.length (substring n m s) = Nat.min m (String.length s - n).
Proof.
  revert n m. induction s as [|c s IH]; intros n m.
  - destruct n, m; simpl; lia.
  - destruct n as [|n]; [destruct m as [|m]; [done|]|]; simpl; rewrite IH; lia.
Qed.

(** X12.  [truncHash] keeps the first 14 and the last 6 characters of a
    hash and drops what lies between, so the text is never longer than 23
    characters and hashes that differ in the middle only are printed alike.
    The two pieces overlap on a hash of fewer than 20 characters; a hash of
    at most 6 characters is printed twice. *)
Theorem truncHash_shape :
  (forall hash,
     String.length (truncHash hash) =
     (Nat.min 14 (String.length hash) + 3 + Nat.min 6 (String.length hash))%nat) /\
  (forall a b c,
     String.length a = 14%nat -> String.length c = 6%nat ->
     truncHash (a +:+ b +:+ c) = a +:+ "..." +:+ c) /\
  (forall hash,
     (String.length hash <= 6)%nat -> truncHash hash = hash +:+ "..." +:+ hash).
Proof.
  split; [|split].
  - intros hash. unfold truncHash. rewrite !length_append, !length_substring.
    simpl String.length. lia.
  - intros a b c Ha Hc. unfold truncHash.
    assert (H1 : substring 0 14 (a +:+ b +:+ c) = a).
    { rewrite <- Ha. apply substring_prefix. }
    assert (H2 : substring (String.length (a +:+ b +:+ c) - 6) 6 (a +:+ b +:+ c) = c).
    { rewrite <- (append_assoc a b c).
      replace (String.length ((a +:+ b) +:+ c) - 6)%nat with (String.length (a +:+ b))
        by (rewrite !length_append; lia).
      rewrite <- Hc. apply substring_suffix. }
    by rewrite H1, H2.
  - intros hash Hlen. unfold truncHash.
    replace (String.length hash - 6)%nat with 0%nat by lia.
    rewrite !substring_all by lia. done.
Qed.

End Hash.

Section Amounts.

Lemma trim_decimal z : trim (decimal z) = decimal z.
Proof.
  destruct z as [|p|p]; [done|..]; unfold decimal; simpl;
    unfold NilZero.string_of_uint;
    pose proof (Unsigned.to_uint_nonnil p) as Hnn;
    destruct (trim_uint _ Hnn) as [Ht1 Ht2];
    destruct (Pos.to_uint p); done.
Qed.

Lemma parseInt_decimal z : parseInt (decimal z) 10 = Int z.
Proof. rewrite <- (trim_decimal z). apply parseInt_String_of_num. Qed.


Lemma binary_round_small s p :
  Zpos p < 2 ^ 53 ->
  exists m e,
    binary_round 53 1024 s p 0 = S754_finite s m e /\
    -52 <= e <= 0 /\ Zpos m = Zpos p * 2 ^ (- e) /\ Zpos m < 2 ^ 53.
Proof.
  intros Hp. unfold binary_round.
  destruct (digits2_pos_bounds p) as [Hlo Hhi].
  set (dp := Zpos (digits2_pos p)) in *.
  assert (Hdp : 1 <= dp <= 53).
  { split; [subst dp; lia|].
    destruct (Z_le_gt_dec dp 53); [done|].
    assert (2 ^ 53 <= 2 ^ (dp - 1)) by (apply Z.pow_le_mono_r; lia). lia. }
  replace (fexp 53 1024 (dp + 0)) with (dp - 53) by (unfold fexp, emin; lia).
  unfold shl_align.
  destruct (dp - 53 - 0) as [|j|j] eqn:Hj; [|lia|].
  - assert (Hdp53 : dp = 53) by lia. clearbody dp. subst dp.
    change (53 - 1) with 52 in Hlo.
    rewrite round_aux_53 by lia. cbn [round_nearest_even]. cbv zeta.
    destruct (Z.ltb_spec (Zpos p) (2 ^ 53)) as [_|?]; [|lia].
    exists p, 0. simpl. split; [done|]. lia.
  - assert (Hmz : Zpos (Pos.iter xO p j) = Zpos p * 2 ^ Zpos j) by apply Zpos_iter_xO.
    assert (Hj' : Zpos j = 53 - dp) by lia.
    assert (Hpow : 2 ^ 53 = 2 ^ dp * 2 ^ Zpos j).
    { rewrite <- Z.pow_add_r by lia. f_equal. lia. }
    assert (Hpow' : 2 ^ 52 = 2 ^ (dp - 1) * 2 ^ Zpos j).
    { rewrite <- Z.pow_add_r by lia. f_equal. lia. }
    assert (H2j : 0 < 2 ^ Zpos j) by (apply Z.pow_pos_nonneg; lia).
    assert (Hlt : Zpos (Pos.iter xO p j) < 2 ^ 53).
    { rewrite Hmz, Hpow. apply Z.mul_lt_mono_pos_r; lia. }
    rewrite round_aux_53; [| |lia].
    2:{ split; [|done]. rewrite Hmz, Hpow'.
        apply Z.mul_le_mono_nonneg_r; lia. }
    cbn [round_nearest_even]. cbv zeta.
    destruct (Z.ltb_spec (Zpos (Pos.iter xO p j)) (2 ^ 53)) as [_|Hge]; [|lia].
    destruct (Z.leb_spec (dp - 53) 971) as [_|?]; [|lia].
    rewrite Pos2Z.id. exists (Pos.iter xO p j), (dp - 53).
    split; [done|]. split; [lia|]. split; [|done]. rewrite Hmz. do 2 f_equal. lia.
Qed.

Lemma fixed_point_hundreds k : 0 <= k -> fixed_point (k * 100) 2 = decimal k +:+ ".00".
Proof.
  intros Hk. unfold fixed_point. change (10 ^ Z.of_nat 2) with 100.
  rewrite Z_div_mult by lia. rewrite Z_mod_mult. done.
Qed.

(** A Number that holds an integer below 2^53 is printed by [toFixed(2)]
    as the integer followed by [.00]. *)
Lemma toFixed_2_integer z :
  Z.abs z < 2 ^ 53 ->
  Number_toFixed (Float.of_Z z) 2 = Some (decimal z +:+ ".00").
Proof.
  intros Hz.
  assert (Hpos : forall s p, Zpos p < 2 ^ 53 ->
            Number_toFixed (binary_round 53 1024 s p 0) 2 =
            Some ((if s then "-" else "") +:+ decimal (Zpos p) +:+ ".00")).
  { intros s p Hp.
    destruct (binary_round_small s p Hp) as (m & e & -> & He & Hm & Hm53).
    unfold Number_toFixed.
    assert (H2e : 0 < 2 ^ (- e)) by (apply Z.pow_pos_nonneg; lia).
    assert (H21 : 2 ^ 53 < 10 ^ 21) by done.
    destruct (Z.leb_spec 0 e) as [He0|He0].
    - assert (e = 0) as -> by lia. simpl in Hm. rewrite Z.mul_1_r in Hm.
      change (2 ^ 0) with 1. rewrite !Z.mul_1_r.
      destruct (Z.leb_spec (10 ^ 21) (Zpos m)) as [?|_]; [lia|].
      change (10 ^ Z.of_nat 2) with 100. rewrite Hm, fixed_point_hundreds by lia.
      done.
    - destruct (Z.leb_spec (10 ^ 21 * 2 ^ (- e)) (Zpos m)) as [?|_]; [nia|].
      change (10 ^ Z.of_nat 2) with 100.
      replace ((2 * Zpos m * 100 + 2 ^ (- e)) / (2 * 2 ^ (- e))) with (Zpos p * 100).
      + rewrite fixed_point_hundreds by lia. done.
      + rewrite Hm.
        replace (2 * (Zpos p * 2 ^ (- e)) * 100 + 2 ^ (- e))
          with ((Zpos p * 200 + 1) * 2 ^ (- e)) by lia.
        rewrite Z.div_mul_cancel_r by lia.
        replace (Zpos p * 200 + 1) with (1 + (Zpos p * 100) * 2) by lia.
        rewrite Z.div_add by lia. done. }
  unfold Float.of_Z, binary_normalize.
  destruct z as [|p|p].
  - done.
  - rewrite Hpos by lia. done.
  - rewrite Hpos by lia. done.
Qed.

(** The millions of an amount whose quotient is a safe integer. *)
Lemma formatMillions_small shannons :
  Z.abs shannons < 2 ^ 53 * (SHANNON_PER_CKB * 1000000) ->
  formatMillions shannons =
  Some (decimal (shannons ÷ (SHANNON_PER_CKB * 1000000)) +:+ ".00M").
Proof.
  intros Hs. unfold formatMillions. cbv zeta.
  rewrite toFixed_2_integer.
  - simpl. by rewrite append_assoc.
  - unfold SHANNON_PER_CKB in *.
    change (100000000 * 1000000) with 100000000000000 in *.
    rewrite <- Z.quot_abs by lia.
    apply Z.quot_lt_upper_bound; lia.
Qed.

(** X14.  [formatMillions] never shows a fraction.  The BigInt division
    has already dropped everything below a million CKB when the quotient
    becomes a Number, so the two digits [toFixed(2)] prints after the point
    are always [00]: 17,500,000 CKB is printed as [17.00M]. *)
Theorem formatMillions_no_fraction shannons :
  Z.abs shannons < 2 ^ 53 * (SHANNON_PER_CKB * 1000000) ->
  formatMillions shannons =
  Some (decimal (shannons ÷ (SHANNON_PER_CKB * 1000000)) +:+ ".00M").
Proof. exact (formatMillions_small shannons). Qed.

End Amounts.

Section Message.

Lemma free_of_fixed_point n f : free_of (ascii_of_nat 10) (fixed_point n f) = true.
Proof.
  unfold fixed_point. destruct f as [|f]; [by apply free_of_decimal|].
  unfold pad_zeros. rewrite !free_of_append.
  rewrite !free_of_decimal by done. rewrite free_of_zeros by done. done.
Qed.

Lemma free_of_toFixed x f s :
  Number_toFixed x f = Some s -> free_of (ascii_of_nat 10) s = true.
Proof.
  unfold Number_toFixed. destruct x as [sg|sg| |sg m e].
  - intros [= <-]. apply free_of_fixed_point.
  - intros [= <-]. by destruct sg.
  - by intros [= <-].
  - destruct (if 0 <=? e then _ else _); [done|]. intros [= <-].
    rewrite free_of_append, free_of_fixed_point. by destruct sg.
Qed.

Lemma free_of_Number_toLocaleString x s :
  Number_toLocaleString x = Some s -> free_of (ascii_of_nat 10) s = true.
Proof.
  unfold Number_toLocaleString. destruct x as [sg|sg| |sg m e].
  - intros [= <-]. by destruct sg.
  - intros [= <-]. by destruct sg.
  - by intros [= <-].
  - destruct (integer_value sg m e) as [z|]; [|done]. simpl.
    destruct (_ <? _); [|done]. intros [= <-]. by apply free_of_toLocaleString.
Qed.

Lemma free_of_formatCKB z : free_of (ascii_of_nat 10) (formatCKB z) = true.
Proof. unfold formatCKB. by apply free_of_toLocaleString. Qed.

Lemma free_of_truncHash hash :
  free_of (ascii_of_nat 10) hash = true -> free_of (ascii_of_nat 10) (truncHash hash) = true.
Proof.
  intros H. unfold truncHash. rewrite !free_of_append.
  by rewrite !free_of_substring.
Qed.

Lemma append_nonempty (a b : string) : a <> EmptyString -> a +:+ b <> EmptyString.
Proof. by destruct a. Qed.

(** The USD line: absent when there is no positive rate; otherwise one
    line, whose final line break [trimEnd] removes. *)
Lemma usdLine_trimmed outputCKB priceUsd usd :
  usdLine outputCKB priceUsd = Some usd ->
  if priced priceUsd
  then trimEnd usd <> EmptyString /\ free_of (ascii_of_nat 10) (trimEnd usd) = true
  else usd = EmptyString.
Proof.
  unfold usdLine, priced. destruct priceUsd as [rate|]; [|by intros [= <-]].
  destruct (negb (Float.falsy rate) && Float.ltb Float.zero rate);
    [|by intros [= <-]].
  cbv zeta.
  set (usdValue := Float_mul _ rate).
  intros H.
  assert (Hstr : exists usdStr perCKB,
            free_of (ascii_of_nat 10) usdStr = true /\ free_of (ascii_of_nat 10) perCKB = true /\
            usd = ("💵 USD value: <code>~" +:+ usdStr +:+ "</code> @ $" +:+ perCKB) +:+
                  "/CKB" +:+ LF).
  { destruct (Float.leb (Float.of_Z 1000000) usdValue).
    - destruct (Number_toFixed (Float.div usdValue (Float.of_Z 1000000)) 2)
        as [millions|] eqn:Hm; [|done]. simpl in H.
      destruct (Number_toFixed rate 4) as [perCKB|] eqn:Hp; [|done].
      simpl in H. injection H as <-.
      exists ("$" +:+ millions +:+ "M"), perCKB.
      split; [|split; [by eapply free_of_toFixed|]].
      + rewrite !free_of_append. by rewrite (free_of_toFixed _ _ _ Hm).
      + by rewrite !append_assoc.
    - destruct (Number_toLocaleString (Math_round usdValue)) as [rounded|] eqn:Hm;
        [|done]. simpl in H.
      destruct (Number_toFixed rate 4) as [perCKB|] eqn:Hp; [|done].
      simpl in H. injection H as <-.
      exists ("$" +:+ rounded), perCKB.
      split; [|split; [by eapply free_of_toFixed|]].
      + rewrite !free_of_append. by rewrite (free_of_Number_toLocaleString _ _ Hm).
      + by rewrite !append_assoc. }
  destruct Hstr as (usdStr & perCKB & H1 & H2 & ->).
  rewrite trimEnd_append by done.
  change (trimEnd ("/CKB" +:+ LF)) with "/CKB"%string.
  split; [by apply append_nonempty|].
  rewrite !free_of_append, H1, H2. done.
Qed.

(** X15.  The message has no empty line.  [buildAlert] drops every empty
    entry of its list of lines, the three separators as well as an absent
    USD line, so the text it returns is 7 lines, or 8 with the USD line,
    each of them non-empty, the first one the title.  Without a rate the
    message exists for every amount below 2^53 million CKB. *)
Theorem buildAlert_lines a :
  free_of (ascii_of_nat 10) (alert_hash a) = true ->
  (priced (alert_priceUsd a) = false ->
   Z.abs (alert_outputCKB a) < 2 ^ 53 * (SHANNON_PER_CKB * 1000000) ->
   exists msg, buildAlert a = Some msg) /\
  (forall msg,
     buildAlert a = Some msg ->
     (EmptyString ∉ lines msg) /\
     length (lines msg) = (if priced (alert_priceUsd a) then 8 else 7)%nat /\
     head (lines msg) = Some ("🐋 <b>CKB Whale Alert</b>"%string)).
Proof.
  intros Hhash. split.
  - intros Hp Hamount. unfold buildAlert.
    rewrite (formatMillions_small _ Hamount). simpl.
    unfold usdLine. unfold priced in Hp.
    destruct (alert_priceUsd a) as [rate|]; [|by eexists].
    rewrite Hp. by eexists.
  - intros msg. unfold buildAlert.
    destruct (formatMillions (alert_outputCKB a)) as [mill|] eqn:Hmill; [|done].
    cbn [mbind option_bind].
    destruct (usdLine (alert_outputCKB a) (alert_priceUsd a)) as [usd|] eqn:Husd;
      [|done].
    cbn [mbind option_bind]. intros [= <-].
    assert (Hm : free_of (ascii_of_nat 10) mill = true).
    { unfold formatMillions in Hmill. cbv zeta in Hmill.
      destruct (Number_toFixed _ 2) as [digits|] eqn:Hd; [|done].
      simpl in Hmill. injection Hmill as <-.
      rewrite free_of_append. by rewrite (free_of_toFixed _ _ _ Hd). }
    pose proof (usdLine_trimmed _ _ _ Husd) as Hu.
    assert (Hfree : forall l, l = mill \/ l = alert_hash a -> free_of (ascii_of_nat 10) l = true)
      by (by intros l [->| ->]).
    unfold alert_lines.
    repeat first
      [ rewrite filter_cons_True by (by apply append_nonempty)
      | rewrite filter_cons_True by done
      | rewrite filter_cons_False by (intros Hne; by apply Hne) ].
    destruct (priced (alert_priceUsd a)).
    + destruct Hu as [Hne Hfree'].
      rewrite filter_cons_True by done.
      repeat first
        [ rewrite filter_cons_True by (by apply append_nonempty)
        | rewrite filter_cons_False by (intros Hne'; by apply Hne') ].
      rewrite filter_nil. cbn [String.concat].
      repeat (rewrite lines_cons;
              [|rewrite ?free_of_append, ?free_of_formatCKB, ?free_of_decimal,
                  ?free_of_toLocaleString, ?free_of_truncHash, ?Hhash, ?Hm, ?Hfree'
                  by done; reflexivity]).
      rewrite lines_one
        by (rewrite ?free_of_append, ?free_of_truncHash, ?Hhash by done; reflexivity).
      split; [|done]. intros Hin.
      repeat (apply elem_of_cons in Hin as [Hin|Hin];
              [first [by symmetry in Hin
                     |symmetry in Hin; by apply append_nonempty in Hin]|]).
      by apply elem_of_nil in Hin.
    + subst usd. change (trimEnd "") with ""%string.
      rewrite filter_cons_False by (intros Hne'; by apply Hne').
      repeat first
        [ rewrite filter_cons_True by (by apply append_nonempty)
        | rewrite filter_cons_False by (intros Hne'; by apply Hne') ].
      rewrite filter_nil. cbn [String.concat].
      repeat (rewrite lines_cons;
              [|rewrite ?free_of_append, ?free_of_formatCKB, ?free_of_decimal,
                  ?free_of_toLocaleString, ?free_of_truncHash, ?Hhash, ?Hm
                  by done; reflexivity]).
      rewrite lines_one
        by (rewrite ?free_of_append, ?free_of_truncHash, ?Hhash by done; reflexivity).
      split; [|done]. intros Hin.
      repeat (apply elem_of_cons in Hin as [Hin|Hin];
              [first [by symmetry in Hin
                     |symmetry in Hin; by apply append_nonempty in Hin]|]).
      by apply elem_of_nil in Hin.
Qed.

End Message.

Section Telegram.
Variable ok : bool.
Implicit Types (s : state Sim).

Lemma blind_ret {A} (a : A) : telegram_blind ok (ret a).
Proof. by intros s s' H. Qed.

Lemma blind_lift {A} (c : completion A) : telegram_blind ok (lift c).
Proof. by intros s s' H. Qed.

Lemma blind_bind {A B} (m : M Sim A) (k : A -> M Sim B) :
  telegram_blind ok m -> (forall a, telegram_blind ok (k a)) ->
  telegram_blind ok (x ← m; k x).
Proof.
  intros Hm Hk s s' H. unfold mbind, M_bind, bind.
  destruct (Hm s s' H) as [Hr Hs].
  destruct (m s) as [r1 s1], (m s') as [r1' s1']. simpl in *. subst r1'.
  destruct r1 as [a|e]; [by apply Hk|done].
Qed.

Lemma blind_try_catch {A} (m : M Sim A) (h : exn -> M Sim A) :
  telegram_blind ok m -> (forall e, telegram_blind ok (h e)) ->
  telegram_blind ok (try_catch m h).
Proof.
  intros Hm Hh s s' H. unfold try_catch.
  destruct (Hm s s' H) as [Hr Hs].
  destruct (m s) as [r1 s1], (m s') as [r1' s1']. simpl in *. subst r1'.
  destruct r1 as [a|e]; [done|by apply Hh].
Qed.

Lemma blind_Promise_all {A} (ms : list (M Sim A)) :
  Forall (telegram_blind ok) ms -> telegram_blind ok (Promise_all ms).
Proof.
  induction 1 as [|m ms Hm _ IH]; [apply blind_ret|].
  intros s s' H. simpl. destruct (Hm s s' H) as [Hr Hs].
  destruct (m s) as [r1 s1], (m s') as [r1' s1']. simpl in *. subst r1'.
  destruct (IH s1 s1' Hs) as [Hr2 Hs2].
  destruct (Promise_all ms s1) as [r2 s2], (Promise_all ms s1') as [r2' s2'].
  simpl in *. subst r2'. destruct r1 as [a|e]; [|simpl; done]. destruct r2; simpl; done.
Qed.

Lemma blind_log ev :
  telegram_line ok ev = ev -> telegram_blind ok (log ev).
Proof.
  intros Hev s s' (H1 & H2 & H3 & H4 & H5). split; [done|].
  repeat split; simpl; try done. rewrite H5, map_app. simpl. by rewrite Hev.
Qed.

Lemma blind_set_price x now : telegram_blind ok (set_price x now).
Proof. by intros s s' (H1 & H2 & H3 & H4 & H5). Qed.

Lemma blind_set_lastBlock n : telegram_blind ok (set_lastBlock n).
Proof. by intros s s' (H1 & H2 & H3 & H4 & H5). Qed.

Lemma blind_get_transaction h : telegram_blind ok (call (get_transaction h)).
Proof. intros s s' (H1 & H2 & H3 & H4 & H5). simpl. by rewrite H4. Qed.

Lemma blind_get_block n : telegram_blind ok (call (get_block_by_number n)).
Proof. intros s s' (H1 & H2 & H3 & H4 & H5). simpl. by rewrite H4. Qed.

Lemma blind_write c : telegram_blind ok (call (writeFileSync c)).
Proof.
  intros s s' (H1 & H2 & H3 & H4 & H5). unfold call. simpl. unfold sim_write.
  rewrite H4. simpl. destruct (sim_disk_ok (world s) c); simpl; done.
Qed.

(** The send and the line that reports it. *)
Lemma blind_send a :
  telegram_blind ok
    (try_catch (call (telegram a);; log (EvTelegram true))
               (fun _ => log (EvTelegram false))).
Proof.
  intros s s' (H1 & H2 & H3 & H4 & H5). unfold_monad. simpl. rewrite H4. simpl.
  destruct (sim_telegram_ok (world s)), ok; simpl;
    (split; [done|]); repeat split; simpl; try done;
    by rewrite ?H4, ?H5, ?map_app.
Qed.

Lemma blind_isSelfTransfer tx : telegram_blind ok (isSelfTransfer tx).
Proof.
  unfold isSelfTransfer. apply blind_try_catch.
  - apply blind_bind.
    + apply blind_Promise_all. apply Forall_forall. intros m Hm.
      apply list_elem_of_In, in_map_iff in Hm as (inp & <- & _).
      apply blind_get_transaction.
    + intros results. destruct (bool_decide _); apply blind_ret.
  - intros e. apply blind_bind; [by apply blind_log|]. intros _. apply blind_ret.
Qed.

Lemma blind_scanTx blockNum priceUsd threshold tx :
  telegram_blind ok (scanTx blockNum priceUsd threshold tx).
Proof.
  unfold scanTx. destruct (_ <? _); [apply blind_ret|].
  apply blind_bind; [apply blind_isSelfTransfer|]. intros [|]; [by apply blind_log|].
  apply blind_bind; [by apply blind_log|]. intros _. apply blind_send.
Qed.

Lemma blind_scan_each blockNum priceUsd threshold txs :
  telegram_blind ok (scan_each blockNum priceUsd threshold txs).
Proof.
  induction txs as [|tx txs IH]; simpl; [apply blind_ret|].
  apply blind_bind; [apply blind_scanTx|]. intros _. apply IH.
Qed.

Lemma blind_fetchCkbPrice : telegram_blind ok fetchCkbPrice.
Proof.
  intros [p t l w c] [p' t' l' w' c'] (H1 & H2 & H3 & H4 & H5).
  simpl in *. subst.
  unfold fetchCkbPrice, now_ms. unfold_monad. simpl.
  destruct (_ && _); simpl; [done|].
  destruct (sim_feed w) as [[|x| |]|e]; simpl;
    [|destruct (Float.ltb Float.zero x); simpl|..];
    (split; [done|]); repeat split; simpl; try done;
    by rewrite ?map_app.
Qed.

Lemma blind_processBlock n : telegram_blind ok (processBlock n).
Proof.
  unfold processBlock. apply blind_bind.
  { apply blind_bind; [by apply blind_log|]. intros _. apply blind_get_block. }
  intros [block|]; [|apply blind_ret].
  apply blind_bind; [apply blind_fetchCkbPrice|]. intros p.
  apply blind_bind; [apply blind_lift|]. intros th.
  rewrite scan_loop_drop by lia. apply blind_scan_each.
Qed.

Lemma blind_saveLastBlock n : telegram_blind ok (saveLastBlock n).
Proof.
  unfold saveLastBlock. apply blind_try_catch.
  - apply blind_bind; [apply blind_write|]. intros _. by apply blind_log.
  - intros e. apply blind_bind; [by apply blind_log|]. intros _. apply blind_lift.
Qed.

Lemma blind_catch_up count n : telegram_blind ok (catch_up count n).
Proof.
  revert n. induction count as [|count IH]; intros n; simpl; [apply blind_ret|].
  apply blind_bind; [apply blind_processBlock|]. intros _.
  apply blind_bind; [apply blind_set_lastBlock|]. intros _.
  apply blind_bind; [apply blind_saveLastBlock|]. intros _. apply IH.
Qed.

Lemma blind_poll : telegram_blind ok poll.
Proof.
  intros s s' H. pose proof H as (H1 & H2 & H3 & H4 & H5).
  unfold poll, try_catch.
  set (body := fun last : option num => fun tipHex : string =>
    match last with
    | Some last0 =>
        if num_leb (parseInt tipHex 16) last0 then ret tt
        else
          for_heights (num_add last0 1)
            (Math_min (parseInt tipHex 16) (num_add last0 50));;
          (if num_ltb (Math_min (parseInt tipHex 16) (num_add last0 50))
                (parseInt tipHex 16)
           then log (EvCatchingUp
                       (Math_min (parseInt tipHex 16) (num_add last0 50))
                       (parseInt tipHex 16))
           else ret tt)
    | None =>
        set_lastBlock (parseInt tipHex 16);;
        saveLastBlock (parseInt tipHex 16);; log (EvInit (parseInt tipHex 16))
    end : M Sim unit).
  assert (Hbody : forall last tipHex, telegram_blind ok (body last tipHex)).
  { intros [last|] tipHex; unfold body.
    - destruct (num_leb _ _); [apply blind_ret|].
      apply blind_bind.
      + unfold for_heights. destruct (num_add last 1); [apply blind_ret|].
        destruct (Math_min _ _); [apply blind_ret|]. apply blind_catch_up.
      + intros _. destruct (num_ltb _ _); [by apply blind_log|apply blind_ret].
    - apply blind_bind; [apply blind_set_lastBlock|]. intros _.
      apply blind_bind; [apply blind_saveLastBlock|]. intros _. by apply blind_log. }
  unfold mbind, M_bind, bind, get, call. simpl. rewrite H4. simpl.
  destruct (sim_tip (world s)) as [tipHex|e]; simpl.
  - rewrite H3.
    set (s1 := {| ckbPriceUsd := ckbPriceUsd s; world := world s |}).
    set (s1' := {| ckbPriceUsd := ckbPriceUsd s'; world := with_telegram ok (world s) |}).
    assert (Hrel : apart_from_telegram ok s1 s1') by (subst s1 s1'; done).
    destruct (Hbody (lastBlock s) tipHex s1 s1' Hrel) as [Hr Hs].
    fold (body (lastBlock s) tipHex) in *.
    change (match lastBlock s with
            | Some last => _
            | None => _
            end s1) with (body (lastBlock s) tipHex s1).
    change (match lastBlock s with
            | Some last => _
            | None => _
            end s1') with (body (lastBlock s) tipHex s1').
    destruct (body (lastBlock s) tipHex s1) as [r2 s2],
             (body (lastBlock s) tipHex s1') as [r2' s2'].
    simpl in *. subst r2'. destruct r2 as [[]|e]; [done|].
    apply (blind_log (EvPollError e) eq_refl s2 s2' Hs).
  - split; [done|]. repeat split; simpl; try done. by rewrite H5, map_app.
Qed.

Lemma trace_apart_from_telegram evs :
  alerts (map (telegram_line ok) evs) = alerts evs /\
  heights_fetched (map (telegram_line ok) evs) = heights_fetched evs /\
  saves (map (telegram_line ok) evs) = saves evs.
Proof.
  induction evs as [|e evs (IH1 & IH2 & IH3)]; [done|].
  destruct e; simpl; rewrite ?IH1, ?IH2, ?IH3; done.
Qed.

(** X16.  Telegram has no say in what the bot does next.  Run the bot for
    any number of cycles in two worlds that differ only in whether
    Telegram accepts messages: pointer, state file and price cache end
    the same, the same blocks are fetched and saved, the same alerts are
    logged, and the traces are the same line by line but for the lines
    that report the outcome of a send.  A message Telegram refused is
    logged, never retried, and holds nothing up. *)
Theorem telegram_never_blocks (w : Sim) k :
  let s := run k (startup w) in
  let s' := run k (startup (with_telegram ok w)) in
  apart_from_telegram ok s s' /\
  alerts (console s') = alerts (console s) /\
  heights_fetched (console s') = heights_fetched (console s) /\
  saves (console s') = saves (console s) /\
  sim_file (world s') = sim_file (world s).
Proof.
  intros s s'.
  assert (H : apart_from_telegram ok s s').
  { subst s s'.
    assert (H0 : apart_from_telegram ok (startup w) (startup (with_telegram ok w))).
    { unfold startup, loadLastBlock. simpl.
      destruct (sim_file w) as [c|]; simpl; [|done].
      destruct (_ && _); done. }
    generalize dependent (startup (with_telegram ok w)).
    generalize (startup w). clear w.
    induction k as [|k IH]; intros s s' H; simpl; [done|].
    apply IH. by apply blind_poll. }
  split; [done|]. destruct H as (_ & _ & _ & Hw & Hc).
  rewrite Hc, Hw. destruct (trace_apart_from_telegram (console s)) as (H1 & H2 & H3).
  done.
Qed.

End Telegram.

(** ** The extensions on the scenarios *)

(** The feed answers [Number.MIN_VALUE]: after one cycle the cache holds
    it, a positive rate. *)
Lemma price_cache_invariant_witness :
  let s := run 1%nat (startup tiny_price) in
  null_or_positive (ckbPriceUsd s) /\
  (ckbPriceUsd (startup tiny_price) <> None -> ckbPriceUsd s <> None) /\
  forall r s', fetchCkbPrice s = (Normal r, s') -> null_or_positive r.
Proof. exact (price_cache_invariant 1%nat (startup tiny_price) I). Defined.

(** The pointer is at 2000, the tip at 1002: nothing happens. *)
Lemma poll_idle_witness :
  let s := startup (with_file (Some "2000"%string)) in
  (poll s).1 = Normal tt /\
  console (poll s).2 = console s /\
  lastBlock (poll s).2 = Some (Int 2000) /\
  ckbPriceUsd (poll s).2 = ckbPriceUsd s /\
  priceFetchedAt (poll s).2 = priceFetchedAt s /\
  world (poll s).2 = (get_tip_block_number (world s)).2.
Proof.
  apply (poll_idle (startup (with_file (Some "2000"%string))) (Int 2000) "0x3ea");
    reflexivity.
Defined.

(** The tip is [null]: the pointer becomes NaN and stays NaN. *)
Lemma nan_pointer_sticks_witness :
  let s := startup bad_tip in
  let s1 := (poll s).2 in
  (lastBlock s1 = Some NaN /\
   exists ok rest, new_events s s1 = EvSave NaN ok :: rest) /\
  lastBlock (run 3%nat s1) = Some NaN /\
  Forall idle_line (new_events s1 (run 3%nat s1)).
Proof.
  split.
  - apply (proj1 nan_pointer_sticks (startup bad_tip) "null"); reflexivity.
  - apply (proj2 nan_pointer_sticks 3%nat (poll (startup bad_tip)).2). reflexivity.
Defined.


Lemma steady_healthy : steady "0x3ea" healthy.
Proof.
  split; [by intros c|]. split; [done|]. split.
  - intros n. simpl. destruct (n =? 1000); eauto.
  - intros x. discriminate.
Defined.


(** The README transaction pays to [lockB], which it does not spend
    from. *)
Lemma isSelfTransfer_lock_equality_witness :
  exists b,
    (isSelfTransfer whaleTx (startup healthy)).1 = Normal b /\
    (b = true <->
     forall o, o ∈ outputs whaleTx ->
       spent_lock (inputs whaleTx) [Some {| transaction := Some prevTx |}] (lock o)).
Proof.
  apply (isSelfTransfer_lock_equality whaleTx (startup healthy)
           [Some {| transaction := Some prevTx |}]).
  - reflexivity.
  - exists lockA, 0%nat, spend_prev, {| transaction := Some prevTx |}. done.
  - intros lk (j & inp & res & H1 & H2 & H3).
    destruct j as [|j]; [|by destruct j].
    injection H1 as <-. injection H2 as <-. injection H3 as <-. done.
  - intros o Ho. apply list_elem_of_In in Ho. simpl in Ho.
    destruct Ho as [<-|[<-|[]]]; done.
Defined.

(** A hash of 24 characters: the 4 in the middle are dropped. *)
Lemma truncHash_shape_witness :
  truncHash ("0x1a2b3c4d5e6f" +:+ "0000" +:+ "abc123") =
  "0x1a2b3c4d5e6f" +:+ "..." +:+ "abc123".
Proof.
  apply (proj1 (proj2 truncHash_shape) "0x1a2b3c4d5e6f" "0000" "abc123");
    reflexivity.
Defined.


(** 17,500,000 CKB is printed as 17.00M. *)
Lemma formatMillions_no_fraction_witness :
  formatMillions (CKB 17500000) =
  Some (decimal (CKB 17500000 ÷ (SHANNON_PER_CKB * 1000000)) +:+ ".00M").
Proof. apply (formatMillions_no_fraction (CKB 17500000)). reflexivity. Defined.

(** The README alert, without a rate: 7 lines. *)
Lemma buildAlert_lines_witness :
  exists msg,
    buildAlert (readme_alert None) = Some msg /\
    (EmptyString ∉ lines msg) /\ length (lines msg) = 7%nat.
Proof.
  destruct (buildAlert_lines (readme_alert None) eq_refl) as [Hex Hall].
  destruct Hex as [msg Hmsg]; [reflexivity|reflexivity|].
  exists msg. split; [exact Hmsg|].
  destruct (Hall msg Hmsg) as (H1 & H2 & _). split; [exact H1|exact H2].
Defined.

(** The texts of the README alert, at no rate, at a rate of 0.01 and at a
    rate of 3: all lines but the last, which holds the link. *)
Example buildAlert_readme :
  (take 6 ∘ lines) <$> buildAlert (readme_alert None) =
    Some [ "🐋 <b>CKB Whale Alert</b>"; "<b>17.00M CKB</b> moved on-chain";
           "💰 Total output: <code>17,500,000 CKB</code>";
           "📦 Largest output: <code>15,000,000 CKB</code>";
           "🔀 Inputs → Outputs: 3 → 2"; "📏 Block: <code>18,500,000</code>" ]%string /\
  (take 4 ∘ lines) <$> buildAlert (readme_alert (Some price_0_01)) =
    Some [ "🐋 <b>CKB Whale Alert</b>"; "<b>17.00M CKB</b> moved on-chain";
           "💰 Total output: <code>17,500,000 CKB</code>";
           "💵 USD value: <code>~$175,000</code> @ $0.0100/CKB" ]%string /\
  (take 1 ∘ drop 3 ∘ lines) <$> buildAlert (readme_alert (Some (Float.of_Z 3))) =
    Some [ "💵 USD value: <code>~$52.50M</code> @ $3.0000/CKB" ]%string /\
  truncHash (alert_hash (readme_alert None)) = "0x1a2b3c4d5e6f...abc123"%string.
Proof. repeat split; vm_compute; reflexivity. Qed.

(** Numbers in fixed-point notation and in the [en-AU] locale. *)
Example formatting_samples :
  Number_toFixed price_0_003 4 = Some "0.0030"%string /\
  Number_toFixed (Float.div (Float.of_Z 201) (Float.of_Z 200)) 2 = Some "1.00"%string /\
  Number_toFixed (Float.div (Float.of_Z 5) (Float.of_Z 2)) 0 = Some "3"%string /\
  Number_toFixed (Float.div (Float.of_Z (-1)) (Float.of_Z 3000)) 2 = Some "-0.00"%string /\
  Number_toFixed (Float.of_Z (10 ^ 21)) 2 = None /\
  Number_toFixed (S754_infinity false) 2 = Some "Infinity"%string /\
  toLocaleString 0 = "0"%string /\ toLocaleString 999 = "999"%string /\
  toLocaleString 1000 = "1,000"%string /\
  toLocaleString (-1234567) = "-1,234,567"%string /\
  formatCKB (-50000000) = "0"%string /\ formatCKB 199999999 = "1"%string /\
  formatMillions (- CKB 17500000) = Some "-17.00M"%string /\
  formatMillions (CKB 999999) = Some "0.00M"%string /\
  Math_round (Float.div (Float.of_Z 5) (Float.of_Z 2)) = Float.of_Z 3 /\
  Math_round (Float.div (Float.of_Z (-5)) (Float.of_Z 2)) = Float.of_Z (-2) /\
  Math_round (Float.div (Float.of_Z (-1)) (Float.of_Z 2)) = S754_zero true /\
  truncHash "0xself" = "0xself...0xself"%string.
Proof. repeat split; vm_compute; reflexivity. Qed.

Section NoBackOff.
Implicit Types (s : state Sim) (w : Sim).

Lemma fetchCkbPrice_feed_down s :
  ckbPriceUsd s = None -> refreshed (sim_feed (world s)) = None ->
  exists evs s',
    fetchCkbPrice s = (Normal None, s') /\ ckbPriceUsd s' = None /\
    console s' = console s ++ EvPriceRequest :: evs /\ price_requests evs = [].
Proof.
  intros Hp Hfeed. unfold fetchCkbPrice, now_ms. unfold_monad. simpl.
  rewrite Hp. simpl. unfold refreshed in Hfeed.
  destruct (sim_feed (world s)) as [[|x| |]|e]; simpl;
    [|destruct (Float.ltb Float.zero x); [discriminate|]; simpl|..];
    first [ exists [], {| ckbPriceUsd := ckbPriceUsd s;
                          priceFetchedAt := priceFetchedAt s;
                          lastBlock := lastBlock s; world := world s;
                          console := console s ++ [EvPriceRequest] |};
            by rewrite Hp
          | exists [EvPriceFailed e],
                   {| ckbPriceUsd := ckbPriceUsd s;
                      priceFetchedAt := priceFetchedAt s;
                      lastBlock := lastBlock s; world := world s;
                      console := (console s ++ [EvPriceRequest]) ++ [EvPriceFailed e] |};
            rewrite Hp, <- app_assoc; done ].
Qed.

(** With the feed down and nothing cached, a block costs one request. *)
Lemma processBlock_feed_down tipHex n s :
  feed_down tipHex (world s) -> ckbPriceUsd s = None ->
  exists evs,
    console (processBlock n s).2 = console s ++ EvGetBlock n :: evs /\
    ckbPriceUsd (processBlock n s).2 = None /\
    length (price_requests evs) = 1%nat.
Proof.
  intros (Hst & Hfeed & Hblock) Hp.
  unfold processBlock. unfold_monad. simpl.
  destruct (Hblock n) as [block ->]. simpl.
  set (s1 := {| ckbPriceUsd := _ |}).
  destruct (fetchCkbPrice_feed_down s1 Hp Hfeed) as (evs & s2 & Hf & Hp2 & Hc2 & Hr2).
  rewrite Hf. simpl. rewrite scan_loop_drop by lia.
  set (th := 10000000 * SHANNON_PER_CKB).
  destruct (scan_each_step n None th (drop 1 (transactions block)) s2)
    as (Hp3 & _ & _ & (scan & Hc3 & HF)).
  exists (EvPriceRequest :: evs ++ scan).
  split; [rewrite Hc3, Hc2; subst s1; simpl; by simplify_list_eq|].
  split; [by rewrite Hp3|].
  change (EvPriceRequest :: evs ++ scan) with ([EvPriceRequest] ++ evs ++ scan).
  rewrite !price_requests_app, Hr2, (scan_lines_no_request _ _ _ HF). done.
Qed.

Lemma catch_up_feed_down tipHex count n s :
  feed_down tipHex (world s) -> ckbPriceUsd s = None ->
  (count = 0%nat -> lastBlock s = Some (Int (n - 1))) ->
  exists evs,
    console (catch_up count n s).2 = console s ++ evs /\
    feed_down tipHex (world (catch_up count n s).2) /\
    ckbPriceUsd (catch_up count n s).2 = None /\
    length (price_requests evs) = count.
Proof.
  revert n s. induction count as [|count IH]; intros n s Hfd Hp Hlast.
  - exists []. simpl. by rewrite app_nil_r.
  - pose proof Hfd as (Hst & Hfeed & Hblock).
    destruct (processBlock_feed_down tipHex n s Hfd Hp) as (evs1 & Hc1 & Hp1 & Hr1).
    destruct (processBlock_steady tipHex n s Hst)
      as (evs1' & s1 & Hrun & Hw & Hl & _ & _ & _);
      [rewrite Hp; apply safe_rate_null|].
    cbn [catch_up]. unfold mbind, M_bind, bind. rewrite Hrun in *. simpl in Hc1, Hp1.
    unfold set_lastBlock.
    match goal with |- context [saveLastBlock (Int n) ?x] => set (s1' := x) end.
    assert (Hst1 : steady tipHex (world s1')) by (subst s1'; simpl; by rewrite Hw).
    destruct (saveLastBlock_sim (Int n) s1' (proj1 Hst1))
      as (s2 & Hsave & Hl2 & Hp2 & Hc2 & _ & Hd & Ht & Hb & Hf).
    rewrite Hsave.
    destruct (IH (n + 1) s2) as (evs3 & Hc3 & Hfd3 & Hp3 & Hr3).
    { destruct Hst1 as (H1 & H2 & H3 & H4).
      unfold feed_down, steady, disk_ok. rewrite Hd, Ht, Hb, Hf.
      subst s1'. simpl. rewrite Hw. done. }
    { by rewrite Hp2. }
    { intros _. rewrite Hl2. subst s1'. simpl. do 2 f_equal. lia. }
    exists (EvGetBlock n :: evs1 ++ EvSave (Int n) true :: evs3).
    split; [rewrite Hc3, Hc2; subst s1'; simpl; rewrite Hc1; by simplify_list_eq|].
    split; [done|]. split; [done|].
    change (EvGetBlock n :: evs1 ++ EvSave (Int n) true :: evs3)
      with ([EvGetBlock n] ++ evs1 ++ [EvSave (Int n) true] ++ evs3).
    rewrite !price_requests_app, !length_app, Hr1, Hr3. simpl. lia.
Qed.

Lemma poll_feed_down tipHex t p s :
  feed_down tipHex (world s) -> ckbPriceUsd s = None ->
  parseInt tipHex 16 = Int t -> lastBlock s = Some (Int p) ->
  let q := Z.max p (Z.min t (p + 50)) in
  feed_down tipHex (world (poll s).2) /\ ckbPriceUsd (poll s).2 = None /\
  length (price_requests (new_events s (poll s).2)) = Z.to_nat (q - p).
Proof.
  intros Hfd Hp Hparse Hlast q. subst q.
  pose proof Hfd as ((_ & Htip & _) & _).
  unfold poll. unfold_monad. simpl. rewrite Htip. simpl. rewrite Hlast, Hparse.
  simpl. destruct (Z.leb_spec t p) as [Hle|Hlt]; simpl.
  - replace (Z.max p (Z.min t (p + 50))) with p by lia.
    rewrite Z.sub_diag. unfold new_events. simpl. rewrite drop_all.
    destruct s; done.
  - replace (Z.max p (Z.min t (p + 50))) with (Z.min t (p + 50)) by lia.
    set (s1 := {| ckbPriceUsd := _ |}).
    set (count := Z.to_nat (Z.min t (p + 50) + 1 - (p + 1))).
    destruct (catch_up_feed_down tipHex count (p + 1) s1)
      as (evs & Hc2 & Hfd2 & Hp2 & Hr2);
      [done|done|intros _; subst s1; simpl; do 2 f_equal; lia|].
    destruct (catch_up_steady tipHex count (p + 1) s1) as (evs' & s2 & Hrun & _);
      [by destruct Hfd|subst s1; simpl; rewrite Hp; apply safe_rate_null
      |intros _; subst s1; simpl; do 2 f_equal; lia|].
    rewrite Hrun in *. simpl in Hc2, Hfd2, Hp2.
    replace (Z.to_nat (Z.min t (p + 50) - p)) with count by lia.
    destruct (_ <? _); simpl.
    + split; [done|]. split; [done|].
      erewrite new_events_app; [|simpl; rewrite Hc2; subst s1; simpl;
                                 by rewrite <- app_assoc].
      by rewrite price_requests_app, length_app, Hr2, Nat.add_0_r.
    + split; [done|]. split; [done|].
      erewrite new_events_app; [|rewrite Hc2; subst s1; simpl; done]. done.
Qed.


End NoBackOff.

Lemma feed_down_healthy : feed_down "0x3ea" healthy.
Proof.
  split; [exact steady_healthy|]. split; [done|].
  intros n. simpl. destruct (n =? 1000); eauto.
Defined.


Section Biggest.

Lemma fold_biggest (outputs : list Z) (a : Z) :
  let m := fold_left (fun a b => if a <? b then b else a) outputs a in
  a <= m /\ (forall o, o ∈ outputs -> o <= m) /\ (m = a \/ m ∈ outputs).
Proof.
  revert a. induction outputs as [|b outputs IH]; intros a; simpl.
  - split; [lia|]. split; [|by left]. intros o Ho. by apply elem_of_nil in Ho.
  - destruct (IH (if a <? b then b else a)) as (H1 & H2 & H3).
    destruct (Z.ltb_spec a b) as [Hlt|Hge].
    + split; [lia|]. split.
      * intros o Ho. apply elem_of_cons in Ho as [->|Ho]; [done|by apply H2].
      * right. destruct H3 as [->|H3]; [by left|by right].
    + split; [lia|]. split.
      * intros o Ho. apply elem_of_cons in Ho as [->|Ho]; [lia|by apply H2].
      * destruct H3 as [->|H3]; [by left|right; by right].
Qed.

(** X18.  The largest output printed is the largest of the output values,
    and 0 when there is no output: it is at least every output value, never
    negative, and one of the values unless it is 0. *)
Theorem biggest_is_max outputs :
  0 <= biggest outputs /\
  (forall o, o ∈ outputs -> o <= biggest outputs) /\
  (biggest outputs = 0 \/ biggest outputs ∈ outputs).
Proof. apply fold_biggest. Qed.

End Biggest.
